(** * Exonian article-workflow bot: a shallow embedding of [exonian_bot.py]

    The development follows the source file top to bottom.  Part I holds the
    definitions: the pieces of the Python runtime the bot calls ([str]
    methods, [int], [datetime]), the part of the chat platform it talks to
    (guild, channels, permission overwrites, fallible API calls) and then the
    bot's own functions under their source names.  Part II holds the lemmas.

    Conventions.
    - A Python [str] is a [list ascii]; a character is a code point in
      U+0000..U+00FF and the character predicates ([isalnum], [isdigit],
      [isspace], [lower]) follow the Unicode character database on that range.
    - A raised exception is a value: fallible calls return [result A].
    - A handler is a function on the [World]; a platform call fails when the
      oracle [api_fails] says so.
    - [setup] and [list_articles] run on the [Bot]: the [World] together
      with the module-level [config] and the configuration file, which
      [BotConfig.save] writes with [json.dumps] and [BotConfig.load] reads
      with [json.loads]. *)

From Stdlib Require Import ZArith Lia Bool Ascii String.
From stdpp Require Import gmap strings list fin_maps.

Local Open Scope Z_scope.

(* ===================================================================== *)
(** * Part I: definitions                                                 *)
(* ===================================================================== *)

(** ** Exceptions *)

Inductive exn : Type :=
  | ValueError
  | TypeError
  | Forbidden        (* discord.Forbidden *)
  | NotFound         (* discord.NotFound *)
  | HTTPException    (* discord.HTTPException, any other platform failure *)
  | OverflowError.

Inductive result (A : Type) : Type :=
  | Ok (a : A)
  | Raise (e : exn).
Arguments Ok {A} a.
Arguments Raise {A} e.

Definition rbind {A B} (r : result A) (k : A → result B) : result B :=
  match r with
  | Ok a => k a
  | Raise e => Raise e
  end.

Declare Scope result_scope.
Delimit Scope result_scope with result.
Notation "'do!' x ← r ; k" := (rbind r (fun x => k))
  (at level 10, x pattern, r at level 100, k at level 200) : result_scope.
Local Open Scope result_scope.

(** [try: r except Exception: h] *)
Definition try_except {A} (r : result A) (h : exn → result A) : result A :=
  match r with
  | Ok a => Ok a
  | Raise e => h e
  end.

Definition is_Ok {A} (r : result A) : bool :=
  match r with Ok _ => true | Raise _ => false end.

(** ** Python [str] *)

Definition str : Type := list ascii.

(** A string literal of the source. *)
Definition py (s : string) : str := list_ascii_of_string s.

Definition ord (c : ascii) : N := N_of_ascii c.
Definition chr (n : N) : ascii := ascii_of_N n.

Definition in_range (lo hi : N) (c : ascii) : bool :=
  ((lo <=? ord c) && (ord c <=? hi))%N.

Definition ascii_eqb (a b : ascii) : bool := bool_decide (a = b).

(** [str.isdecimal] per character: general category Nd. *)
Definition isdecimal (c : ascii) : bool := in_range 48 57 c.

(** [str.isdigit] per character: decimals and the superscript digits
    U+00B2, U+00B3, U+00B9. *)
Definition isdigit (c : ascii) : bool :=
  isdecimal c || in_range 178 179 c || in_range 185 185 c.

(** [str.isnumeric] per character: digits and the vulgar fractions
    U+00BC..U+00BE. *)
Definition isnumeric (c : ascii) : bool :=
  isdigit c || in_range 188 190 c.

(** [str.isalpha] per character: general categories Lu, Ll, Lt, Lm, Lo. *)
Definition isalpha (c : ascii) : bool :=
  in_range 65 90 c || in_range 97 122 c
  || in_range 170 170 c || in_range 181 181 c || in_range 186 186 c
  || in_range 192 214 c || in_range 216 246 c || in_range 248 255 c.

Definition isalnum (c : ascii) : bool :=
  isalpha c || isdecimal c || isdigit c || isnumeric c.

(** [str.isspace] per character. *)
Definition isspace (c : ascii) : bool :=
  in_range 9 13 c || in_range 28 32 c || in_range 133 133 c
  || in_range 160 160 c.

Definition isupper (c : ascii) : bool :=
  in_range 65 90 c || in_range 192 214 c || in_range 216 222 c.

(** [ch.lower()]: one character in, a string out. *)
Definition lower (c : ascii) : str :=
  if isupper c then [chr (ord c + 32)] else [c].

(** [s.isdigit()] on a whole string. *)
Definition str_isdigit (s : str) : bool :=
  negb (bool_decide (s = [])) && forallb isdigit s.

(** [s.startswith(p)] *)
Fixpoint startswith (p s : str) : bool :=
  match p, s with
  | [], _ => true
  | _ :: _, [] => false
  | a :: p', b :: s' => ascii_eqb a b && startswith p' s'
  end.

(** [s.endswith(p)] *)
Definition endswith (p s : str) : bool :=
  startswith (rev p) (rev s).

(** [s.find(sub)]: offset of the first occurrence. *)
Fixpoint find (sub s : str) : option nat :=
  if startswith sub s then Some 0%nat
  else match s with
       | [] => None
       | _ :: s' => S <$> find sub s'
       end.

(** [s.find(sub, start)] for [0 <= start]. *)
Definition find_from (sub s : str) (start : nat) : option nat :=
  if bool_decide (start ≤ length s)%nat
  then (λ i, (start + i)%nat) <$> find sub (drop start s)
  else None.

(** [s.index(sub, start)]: as [find], but raises [ValueError]. *)
Definition index_from (sub s : str) (start : nat) : result nat :=
  match find_from sub s start with
  | Some i => Ok i
  | None => Raise ValueError
  end.

(** [sub in s] *)
Definition contains (sub s : str) : bool :=
  match find sub s with Some _ => true | None => false end.

(** [s[a:b]] for [0 <= a], [0 <= b]. *)
Definition slice (s : str) (a b : nat) : str :=
  take (b - a) (drop a s).

Fixpoint lstrip_by (p : ascii → bool) (s : str) : str :=
  match s with
  | c :: s' => if p c then lstrip_by p s' else s
  | [] => []
  end.

Definition strip_by (p : ascii → bool) (s : str) : str :=
  rev (lstrip_by p (rev (lstrip_by p s))).

(** [s.strip()] *)
Definition strip (s : str) : str := strip_by isspace s.

(** [s.strip(chars)] *)
Definition strip_chars (chars s : str) : str :=
  strip_by (λ c, existsb (ascii_eqb c) chars) s.

(** [s.split()]: the maximal runs of non-whitespace, [cur] being the run
    read so far (reversed). *)
Fixpoint split_ws (s : str) (cur : str) : list str :=
  match s with
  | [] => if bool_decide (cur = []) then [] else [rev cur]
  | c :: s' =>
      if isspace c
      then (if bool_decide (cur = []) then [] else [rev cur]) ++ split_ws s' []
      else split_ws s' (c :: cur)
  end.

Definition split (s : str) : list str := split_ws s [].

(** [s.replace(old, new)] for a non-empty [old]: occurrences are replaced
    left to right and do not overlap; [skip] counts the characters of the
    occurrence just replaced that are still to be passed over. *)
Fixpoint replace_go (old new s : str) (skip : nat) : str :=
  match s with
  | [] => []
  | c :: s' =>
      match skip with
      | S k => replace_go old new s' k
      | O => if startswith old s
             then new ++ replace_go old new s' (length old - 1)
             else c :: replace_go old new s' 0
      end
  end.

Definition replace (old new s : str) : str := replace_go old new s 0.

(** ** [slugify] (source lines 58-62) *)

Definition hyphen : ascii := "-"%char.

(** [while "--" in s: s = s.replace("--", "-")]; every round shortens [s],
    so [length s] rounds are enough. *)
Fixpoint collapse_loop (fuel : nat) (s : str) : str :=
  if contains (py "--") s
  then match fuel with
       | O => s
       | S fuel' => collapse_loop fuel' (replace (py "--") (py "-") s)
       end
  else s.

Definition slugify (title : str) : str :=
  let s := strip_chars (py "-")
             (flat_map (λ ch, if isalnum ch then lower ch else [hyphen]) title) in
  let s := collapse_loop (length s) s in
  if bool_decide (s = []) then py "article" else take 90 s.

(** ** Python [int] *)

Definition digit_value (c : ascii) : Z := Z.of_N (ord c) - 48.

(** The decimal digits of an [int] literal, with single underscores allowed
    between digits; [prev] tells whether the last character was a digit. *)
Fixpoint int_digits (s : str) (acc : Z) (prev : bool) : option Z :=
  match s with
  | [] => if prev then Some acc else None
  | c :: s' =>
      if isdecimal c then int_digits s' (10 * acc + digit_value c) true
      else if ascii_eqb c "_" && prev then int_digits s' acc false
      else None
  end.

(** [int(s)]: surrounding whitespace is dropped, a sign may lead, and the
    digits must be decimal ([ValueError] otherwise, also for a digit such as
    U+00B2 that is not a decimal).  The limit of 4300 digits that Python
    3.11 puts on the conversion is left out: the lemmas that convert digits
    ask for it. *)
Definition int_of_str (s : str) : result Z :=
  let s := strip s in
  let '(sign, body) :=
    match s with
    | c :: s' => if ascii_eqb c "-" then (-1, s')
                 else if ascii_eqb c "+" then (1, s') else (1, s)
    | [] => (1, s)
    end in
  match int_digits body 0 false with
  | Some n => Ok (sign * n)
  | None => Raise ValueError
  end.

(** ** Python [datetime] *)

(** A [datetime] value.  [tzinfo] is [None] for a naive value and the UTC
    offset of a fixed-offset [timezone], in microseconds, for an aware one. *)
Record datetime : Type := mkdatetime {
  year : Z;
  month : Z;
  day : Z;
  hour : Z;
  minute : Z;
  second : Z;
  microsecond : Z;
  tzinfo : option Z
}.

#[global] Instance datetime_eq_dec : EqDecision datetime.
Proof. solve_decision. Defined.

Definition is_leap (y : Z) : bool :=
  (y mod 4 =? 0) && (negb (y mod 100 =? 0) || (y mod 400 =? 0)).

Definition days_in_month (y m : Z) : Z :=
  if m =? 2 then (if is_leap y then 29 else 28)
  else if (m =? 4) || (m =? 6) || (m =? 9) || (m =? 11) then 30
  else 31.

Definition check_date_fields (y m d : Z) : bool :=
  (1 <=? y) && (y <=? 9999) && (1 <=? m) && (m <=? 12)
  && (1 <=? d) && (d <=? days_in_month y m).

Definition check_time_fields (h mi s us : Z) : bool :=
  (0 <=? h) && (h <=? 23) && (0 <=? mi) && (mi <=? 59)
  && (0 <=? s) && (s <=? 59) && (0 <=? us) && (us <=? 999999).

Definition usec_per_day : Z := 86400000000.

(** [timezone(offset)] wants the offset strictly between -24h and 24h. *)
Definition check_tzinfo (tz : option Z) : bool :=
  match tz with
  | None => true
  | Some off => (- usec_per_day <? off) && (off <? usec_per_day)
  end.

Definition valid_datetime (dt : datetime) : bool :=
  check_date_fields (year dt) (month dt) (day dt)
  && check_time_fields (hour dt) (minute dt) (second dt) (microsecond dt)
  && check_tzinfo (tzinfo dt).

(** The constructor [datetime(y, m, d, h, mi, s, us, tz)]. *)
Definition datetime_new (y m d h mi s us : Z) (tz : option Z) : result datetime :=
  let dt := mkdatetime y m d h mi s us tz in
  if valid_datetime dt then Ok dt else Raise ValueError.

(** [dt.replace(year=y)] builds a new value and so checks it again. *)
Definition replace_year (dt : datetime) (y : Z) : result datetime :=
  datetime_new y (month dt) (day dt) (hour dt) (minute dt) (second dt)
    (microsecond dt) (tzinfo dt).

(** *** [isoformat] *)

Definition digit_char (d : Z) : ascii := chr (Z.to_N (48 + d)).

(** ["%0nd" % k], for [0 <= k < 10^n]. *)
Fixpoint zfill (n : nat) (k : Z) : str :=
  match n with
  | O => []
  | S n' => digit_char (k / 10 ^ Z.of_nat n') :: zfill n' (k mod 10 ^ Z.of_nat n')
  end.

Definition usec_per_hour : Z := 3600000000.
Definition usec_per_minute : Z := 60000000.
Definition usec_per_second : Z := 1000000.

(** [_format_offset] *)
Definition format_offset (tz : option Z) : str :=
  match tz with
  | None => []
  | Some off =>
      let sign := if off <? 0 then "-"%char else "+"%char in
      let a := Z.abs off in
      let hh := a / usec_per_hour in
      let mm := (a mod usec_per_hour) / usec_per_minute in
      let ss := (a mod usec_per_minute) / usec_per_second in
      let us := a mod usec_per_second in
      sign :: zfill 2 hh ++ ":"%char :: zfill 2 mm
        ++ (if (ss =? 0) && (us =? 0) then []
            else ":"%char :: zfill 2 ss
                   ++ (if us =? 0 then [] else "."%char :: zfill 6 us))
  end.

(** The time part of [dt.isoformat()]. *)
Definition format_time (dt : datetime) : str :=
  zfill 2 (hour dt) ++ ":"%char :: zfill 2 (minute dt)
    ++ ":"%char :: zfill 2 (second dt)
    ++ (if microsecond dt =? 0 then [] else "."%char :: zfill 6 (microsecond dt)).

(** [dt.isoformat()] *)
Definition isoformat (dt : datetime) : str :=
  zfill 4 (year dt) ++ "-"%char :: zfill 2 (month dt)
    ++ "-"%char :: zfill 2 (day dt)
    ++ "T"%char :: format_time dt ++ format_offset (tzinfo dt).

(** *** [fromisoformat]

    The grammar is the documented one,
    [YYYY-MM-DD[*HH[:MM[:SS[.fff[fff]]]][+HH:MM[:SS[.ffffff]]]]], which is
    what Python 3.7 to 3.10 read.  From Python 3.11 on the function reads
    more: a [Z] for the offset, times and offsets without colons, dates
    without hyphens, week dates, a fraction of any length.  Every version
    reads what [isoformat] prints, and to the same date.  The lemmas that
    speak of topics in general are therefore stated for the topics every
    version decodes alike ([topic_decodes]), and the one on what the decoder
    refuses for a parser given as a parameter ([extract_deadline_with]). *)

(** Reads exactly [n] decimal digits. *)
Fixpoint read_digits (n : nat) (s : str) (acc : Z) : option (Z * str) :=
  match n with
  | O => Some (acc, s)
  | S n' =>
      match s with
      | c :: s' =>
          if isdecimal c then read_digits n' s' (10 * acc + digit_value c)
          else None
      | [] => None
      end
  end.

Definition expect (c : ascii) (s : str) : option str :=
  match s with
  | c' :: s' => if ascii_eqb c c' then Some s' else None
  | [] => None
  end.

Definition of_option {A} (o : option A) : result A :=
  match o with Some a => Ok a | None => Raise ValueError end.

(** [_parse_isoformat_date]: the ten characters [YYYY-MM-DD]; returns the
    fields and what follows them. *)
Definition parse_isoformat_date (s : str) : option (Z * Z * Z * str) :=
  '(y, s) ← read_digits 4 s 0;
  s ← expect "-" s;
  '(m, s) ← read_digits 2 s 0;
  s ← expect "-" s;
  '(d, s) ← read_digits 2 s 0;
  Some (y, m, d, s).

(** The fraction of [_parse_hh_mm_ss_ff]: three or six digits. *)
Definition parse_fraction (s : str) : option Z :=
  if bool_decide (length s = 3%nat) then
    '(f, _) ← read_digits 3 s 0; Some (f * 1000)
  else if bool_decide (length s = 6%nat) then
    '(f, _) ← read_digits 6 s 0; Some f
  else None.

(** [_parse_hh_mm_ss_ff]: the whole of [s] read as [HH[:MM[:SS[.fff[fff]]]]]. *)
Definition parse_hh_mm_ss_ff (s : str) : option (Z * Z * Z * Z) :=
  '(h, s) ← read_digits 2 s 0;
  match s with
  | [] => Some (h, 0, 0, 0)
  | _ =>
      s ← expect ":" s;
      '(mi, s) ← read_digits 2 s 0;
      match s with
      | [] => Some (h, mi, 0, 0)
      | _ =>
          s ← expect ":" s;
          '(sec, s) ← read_digits 2 s 0;
          match s with
          | [] => Some (h, mi, sec, 0)
          | _ =>
              s ← expect "." s;
              us ← parse_fraction s;
              Some (h, mi, sec, us)
          end
      end
  end.

(** The offset of the time zone string after the sign. *)
Definition parse_tz (negative : bool) (tzstr : str) : option Z :=
  if bool_decide (length tzstr = 5%nat) || bool_decide (length tzstr = 8%nat)
     || bool_decide (length tzstr = 15%nat)
  then
    '(h, mi, sec, us) ← parse_hh_mm_ss_ff tzstr;
    let td := h * usec_per_hour + mi * usec_per_minute
              + sec * usec_per_second + us in
    Some (if negative then - td else td)
  else None.

(** [_parse_isoformat_time]: the string is cut at its first ["-"], or with
    none at its first ["+"]; what follows is the time zone. *)
Definition parse_isoformat_time (t : str) : option (Z * Z * Z * Z * option Z) :=
  let cut :=
    match find (py "-") t with
    | Some i => Some (i, true)
    | None => match find (py "+") t with
              | Some i => Some (i, false)
              | None => None
              end
    end in
  match cut with
  | None =>
      '(h, mi, sec, us) ← parse_hh_mm_ss_ff t;
      Some (h, mi, sec, us, None)
  | Some (i, negative) =>
      '(h, mi, sec, us) ← parse_hh_mm_ss_ff (take i t);
      off ← parse_tz negative (drop (S i) t);
      Some (h, mi, sec, us, Some off)
  end.

(** [datetime.fromisoformat(s)] *)
Definition fromisoformat (s : str) : result datetime :=
  match parse_isoformat_date s with
  | None => Raise ValueError
  | Some (y, m, d, rest) =>
      match rest with
      | [] => datetime_new y m d 0 0 0 0 None
      | _sep :: t =>
          match parse_isoformat_time t with
          | None => Raise ValueError
          | Some (h, mi, sec, us, tz) => datetime_new y m d h mi sec us tz
          end
      end
  end.

(** *** Ordering *)

Fixpoint lex_ltb (a b : list Z) : bool :=
  match a, b with
  | x :: a', y :: b' => (x <? y) || ((x =? y) && lex_ltb a' b')
  | [], _ :: _ => true
  | _, [] => false
  end.

Definition fields (dt : datetime) : list Z :=
  [year dt; month dt; day dt; hour dt; minute dt; second dt; microsecond dt].

(** Days from 0001-01-01 ([date.toordinal]). *)
Definition days_before_year (y : Z) : Z :=
  let y := y - 1 in y * 365 + y / 4 - y / 100 + y / 400.

Fixpoint days_before_month (y : Z) (m : nat) : Z :=
  match m with
  | O => 0
  | S m' => days_before_month y m' + days_in_month y (Z.of_nat m)
  end.

Definition toordinal (y m d : Z) : Z :=
  days_before_year y + days_before_month y (Z.to_nat (m - 1)) + d.

(** Microseconds since 0001-01-01T00:00 UTC of an aware value. *)
Definition utc_instant (dt : datetime) (off : Z) : Z :=
  (toordinal (year dt) (month dt) (day dt) * 86400
   + hour dt * 3600 + minute dt * 60 + second dt) * usec_per_second
  + microsecond dt - off.

(** [a < b]: two naive values compare field by field, two aware ones by
    instant, and a naive with an aware one raises [TypeError]. *)
Definition datetime_lt (a b : datetime) : result bool :=
  match tzinfo a, tzinfo b with
  | None, None => Ok (lex_ltb (fields a) (fields b))
  | Some oa, Some ob => Ok (utc_instant a oa <? utc_instant b ob)
  | _, _ => Raise TypeError
  end.

(** *** [strptime]

    [datetime.strptime] turns the format into a regular expression, matches
    it at the start of the data with backtracking, refuses data that is left
    over, and builds the value from the groups.  Only the directives the
    bot's formats use are given a meaning. *)

Inductive directive : Type := dY | dm | dd | dH | dM | db.

#[global] Instance directive_eq_dec : EqDecision directive.
Proof. solve_decision. Defined.

(** A piece of the regular expression: a directive's group with its
    alternatives in order (an alternative is a sequence of character
    classes), a literal character, or [\s+]. *)
Inductive re_item : Type :=
  | Group (d : directive) (alts : list (list (ascii → bool)))
  | Lit (c : ascii)
  | Spaces.

Definition is_char (c : ascii) : ascii → bool := λ x, ascii_eqb x c.

(** A letter under [re.IGNORECASE]. *)
Definition ci_char (c : ascii) : ascii → bool :=
  λ x, bool_decide (lower x = lower c).

Definition month_abbr : list str :=
  [py "jan"; py "feb"; py "mar"; py "apr"; py "may"; py "jun";
   py "jul"; py "aug"; py "sep"; py "oct"; py "nov"; py "dec"].

(** The regular expression of each directive ([TimeRE.__init__]). *)
Definition directive_alts (d : directive) : list (list (ascii → bool)) :=
  match d with
  | dY => [[isdecimal; isdecimal; isdecimal; isdecimal]]
  | dm => [[is_char "1"; in_range 48 50]; [is_char "0"; in_range 49 57];
           [in_range 49 57]]
  | dd => [[is_char "3"; in_range 48 49]; [in_range 49 50; isdecimal];
           [is_char "0"; in_range 49 57]; [in_range 49 57];
           [is_char " "; in_range 49 57]]
  | dH => [[is_char "2"; in_range 48 51]; [in_range 48 49; isdecimal];
           [isdecimal]]
  | dM => [[in_range 48 53; isdecimal]; [isdecimal]]
  | db => map (map ci_char) month_abbr
  end.

Definition directive_of_char (c : ascii) : option directive :=
  if ascii_eqb c "Y" then Some dY
  else if ascii_eqb c "m" then Some dm
  else if ascii_eqb c "d" then Some dd
  else if ascii_eqb c "H" then Some dH
  else if ascii_eqb c "M" then Some dM
  else if ascii_eqb c "b" then Some db
  else None.

(** [TimeRE.pattern]: a run of whitespace in the format becomes [\s+], a
    ["%x"] the group of [x], any other character itself. *)
Fixpoint pattern (fmt : str) (in_space : bool) : option (list re_item) :=
  match fmt with
  | [] => Some []
  | c :: fmt' =>
      if isspace c then
        rest ← pattern fmt' true;
        Some (if in_space then rest else Spaces :: rest)
      else if ascii_eqb c "%" then
        match fmt' with
        | x :: fmt'' =>
            d ← directive_of_char x;
            rest ← pattern fmt'' false;
            Some (Group d (directive_alts d) :: rest)
        | [] => None
        end
      else
        rest ← pattern fmt' false;
        Some (Lit c :: rest)
  end.

(** The characters of [s] matched by a sequence of classes, and the rest. *)
Fixpoint match_classes (cls : list (ascii → bool)) (s : str) : option (str * str) :=
  match cls with
  | [] => Some ([], s)
  | p :: cls' =>
      match s with
      | c :: s' =>
          if p c then '(m, rest) ← match_classes cls' s'; Some (c :: m, rest)
          else None
      | [] => None
      end
  end.

Definition span_length (p : ascii → bool) (s : str) : nat :=
  (length s - length (lstrip_by p s))%nat.

(** All the ways the expression matches a prefix of [s], in the order a
    backtracking matcher tries them: the groups and what is left. *)
Fixpoint re_all (re : list re_item) (s : str) : list (list (directive * str) * str) :=
  match re with
  | [] => [([], s)]
  | Group d alts :: re' =>
      flat_map (λ alt,
        match match_classes alt s with
        | Some (m, rest) =>
            map (λ '(g, rem), ((d, m) :: g, rem)) (re_all re' rest)
        | None => []
        end) alts
  | Lit c :: re' =>
      match s with
      | x :: s' => if ci_char c x then re_all re' s' else []
      | [] => []
      end
  | Spaces :: re' =>
      (* greedy: the longest run first, at least one character *)
      flat_map (λ k, re_all re' (drop k s))
               (rev (seq 1 (span_length isspace s)))
  end.

Fixpoint group (d : directive) (g : list (directive * str)) : option str :=
  match g with
  | [] => None
  | (d', m) :: g' => if bool_decide (d = d') then Some m else group d g'
  end.

Fixpoint index_of (x : str) (l : list str) : option nat :=
  match l with
  | [] => None
  | y :: l' => if bool_decide (x = y) then Some 0%nat else S <$> index_of x l'
  end.

Definition int_group (d : directive) (g : list (directive * str)) (default : Z)
  : result Z :=
  match group d g with
  | Some m => int_of_str m
  | None => Ok default
  end.

(** [datetime.strptime(s, fmt)] *)
Definition strptime (s fmt : str) : result datetime :=
  match pattern fmt false with
  | None => Raise ValueError
  | Some re =>
      match re_all re s with
      | [] => Raise ValueError                (* does not match format *)
      | (g, rem) :: _ =>
          if negb (bool_decide (rem = [])) then Raise ValueError
                                              (* unconverted data remains *)
          else
            do! m ← int_group dm g 1;
            do! m ← match group db g with
                    | Some name =>
                        of_option ((λ i, Z.of_nat (S i)) <$>
                                   index_of (flat_map lower name) month_abbr)
                    | None => Ok m
                    end;
            do! d ← int_group dd g 1;
            do! h ← int_group dH g 0;
            do! mi ← int_group dM g 0;
            do! y ← match group dY g with
                    | Some digits => do! y ← int_of_str digits; Ok (Some y)
                    | None => Ok None
                    end;
            let leap_year_fix :=
              bool_decide (y = None) && (m =? 2) && (d =? 29) in
            let y' := match y with
                      | Some y => y
                      | None => if leap_year_fix then 1904 else 1900
                      end in
            (* datetime_date(year, month, day).toordinal() *)
            if negb (check_date_fields y' m d) then Raise ValueError
            else
              let y' := if leap_year_fix then 1900 else y' in
              datetime_new y' m d h mi 0 0 None
      end
  end.

(** ** [parse_when] (source lines 64-82) *)

Definition _DATE_FORMATS : list str :=
  [ py "%Y-%m-%d %H:%M";      (* 2025-09-07 23:00 *)
    py "%Y-%m-%d";            (* 2025-09-07 *)
    py "%b %d %Y %H:%M";      (* Sep 7 2025 23:00 *)
    py "%b %d %H:%M" ].       (* Sep 7 23:00  (assumes current year) *)

(** One round of the loop body inside [try]. *)
Definition parse_when_try (now : datetime) (s fmt : str) : result datetime :=
  do! dt ← strptime s fmt;
  if negb (contains (py "%Y") fmt) then replace_year dt (year now) else Ok dt.

(** The loop over the formats; [except ValueError: continue]. *)
Fixpoint parse_when_loop (now : datetime) (s : str) (fmts : list str)
  : result (option datetime) :=
  match fmts with
  | [] => Ok None
  | fmt :: fmts' =>
      match parse_when_try now s fmt with
      | Ok dt => Ok (Some dt)
      | Raise ValueError => parse_when_loop now s fmts'
      | Raise e => Raise e
      end
  end.

(** [now] is what [datetime.now()] returns. *)
Definition parse_when (now : datetime) (s : str) : result (option datetime) :=
  parse_when_loop now (strip s) _DATE_FORMATS.

(** ** [extract_deadline_from_topic] (source lines 84-94) *)

Definition DEADLINE_TAG : str := py "[deadline: ".

Definition extract_deadline_from_topic (topic : option str)
  : result (option datetime) :=
  match topic with
  | None => Ok None
  | Some topic =>
      if bool_decide (topic = []) || negb (contains DEADLINE_TAG topic)
      then Ok None
      else
        try_except
          (do! i ← index_from DEADLINE_TAG topic 0;
           let start := (i + length DEADLINE_TAG)%nat in
           do! end_ ← index_from (py "]") topic start;
           do! dt ← fromisoformat (slice topic start end_);
           Ok (Some dt))
          (λ _, Ok None)
  end.

(** The same function with the parser it calls as a parameter.
    [datetime.fromisoformat] does not read the same texts in every version
    of the interpreter (see [fromisoformat] above); [parse] stands for the
    function of the interpreter that runs the bot, which returns a date or
    raises. *)
Definition extract_deadline_with (parse : str → result datetime)
    (topic : option str) : result (option datetime) :=
  match topic with
  | None => Ok None
  | Some topic =>
      if bool_decide (topic = []) || negb (contains DEADLINE_TAG topic)
      then Ok None
      else
        try_except
          (do! i ← index_from DEADLINE_TAG topic 0;
           let start := (i + length DEADLINE_TAG)%nat in
           do! end_ ← index_from (py "]") topic start;
           do! dt ← parse (slice topic start end_);
           Ok (Some dt))
          (λ _, Ok None)
  end.

(** The topic [new_article] writes (source line 237):
    [f"Article: {title} | {DEADLINE_TAG}{dt.isoformat()}]"]. *)
Definition article_topic (title : str) (dt : datetime) : str :=
  py "Article: " ++ title ++ py " | " ++ DEADLINE_TAG ++ isoformat dt ++ py "]".

(** ** The chat platform: guild, channels, permission overwrites *)

(** The key of a permission overwrite: what [channel.overwrites] returns is
    keyed by [discord.Member], [discord.Role] or, for an id that is not in
    the cache, [discord.Object].  The library looks the keys up when the
    overwrites are read; a channel of the model holds them as they were
    read, which is how they are read again as long as the members and the
    roles they belong to are in the caches of the guild ([cached_targets];
    the lemmas that say which overwrites a command computes ask for it). *)
Inductive Target : Type :=
  | Member (id : Z)
  | Role (id : Z)
  | Object (id : Z).

#[global] Instance Target_eq_dec : EqDecision Target.
Proof. solve_decision. Defined.

#[global] Instance Target_countable : Countable Target.
Proof.
  refine (inj_countable'
    (λ t, match t with
          | Member i => inl i
          | Role i => inr (inl i)
          | Object i => inr (inr i)
          end)
    (λ x, match x with
          | inl i => Member i
          | inr (inl i) => Role i
          | inr (inr i) => Object i
          end) _).
  intros []; reflexivity.
Defined.

(** [discord.PermissionOverwrite]: each flag is [True], [False] or [None]
    (inherit).  Only the flags the bot sets are kept. *)
Record PermissionOverwrite : Type := mkPermissionOverwrite {
  view_channel : option bool;
  send_messages : option bool;
  read_message_history : option bool;
  manage_messages : option bool
}.

#[global] Instance PermissionOverwrite_eq_dec : EqDecision PermissionOverwrite.
Proof. solve_decision. Defined.

Abbreviation Overwrites := (gmap Target PermissionOverwrite).

Inductive ChannelType : Type :=
  | TextChannel
  | OtherChannel.      (* voice, stage, forum, thread, ... *)

#[global] Instance ChannelType_eq_dec : EqDecision ChannelType.
Proof. solve_decision. Defined.

Inductive Message : Type :=
  | DeadlinePassed     (* the sweep's notice *)
  | Checklist (title : str) (writers : option str) (deadline : Z).

Record Channel : Type := mkChannel {
  ch_id : Z;
  ch_type : ChannelType;
  ch_name : str;
  ch_topic : option str;
  ch_category : option Z;
  ch_overwrites : Overwrites;
  ch_messages : list (Message * bool)      (* the flag: pinned *)
}.

Record Guild : Type := mkGuild {
  guild_id : Z;
  categories : list (Z * str);      (* [guild.categories]: id and name *)
  roles : list (Z * str);           (* [guild.roles]: id and name *)
  channels : list Channel;
  member_cache : gset Z;            (* what [guild.get_member] knows *)
  members : gset Z;                 (* the members of the server *)
  next_id : Z                       (* the id of the next created object *)
}.

(** [guild.default_role]: the [@everyone] role carries the guild's id. *)
Definition default_role (g : Guild) : Z := guild_id g.

Record BotConfig : Type := mkBotConfig {
  cfg_guild_id : option Z;
  active_category_name : str;
  archived_category_name : str;
  editors_role_name : str
}.

(** What a command tells its user ([interaction.followup.send]). *)
Inductive Reply : Type :=
  | MustBeInServer          (* "This command must be used in a server." *)
  | BadDeadline             (* "Couldn't parse the deadline. ..." *)
  | Created (channel : Z) (writers : list Z)
  | MissingPermissions
  | ErrorWhileCreating (e : exn)
  | ChooseTextChannel       (* "Choose a text channel to archive." *)
  | Archived (channel : Z)
  | ErrorWhileArchiving (e : exn).

Record World : Type := mkWorld {
  guild : Guild;
  replies : list Reply
}.

(** The slash command's context: whether it was used in a server
    ([interaction.guild]) and in which channel ([interaction.channel]). *)
Record Interaction : Type := mkInteraction {
  in_guild : bool;
  in_channel : Z
}.

(** The calls to the platform that can fail. *)
Inductive ApiCall : Type :=
  | Defer
  | Followup
  | CreateCategory (name : str)
  | CreateTextChannel (name : str)
  | EditCategory (channel : Z)
  | EditOverwrites (channel : Z)
  | SendMessage (channel : Z)
  | PinMessage (channel : Z)
  | FetchMember (uid : Z).

(** [discord.utils.get(items, name=name)]: the first item of that name. *)
Fixpoint get_by_name (items : list (Z * str)) (name : str) : option Z :=
  match items with
  | [] => None
  | (i, n) :: items' =>
      if bool_decide (n = name) then Some i else get_by_name items' name
  end.

Fixpoint get_channel (chs : list Channel) (id : Z) : option Channel :=
  match chs with
  | [] => None
  | c :: chs' => if ch_id c =? id then Some c else get_channel chs' id
  end.

Definition update_channel (f : Channel → Channel) (id : Z) (chs : list Channel)
  : list Channel :=
  map (λ c, if ch_id c =? id then f c else c) chs.

(** [category.text_channels] *)
Definition text_channels (g : Guild) (cat : Z) : list Z :=
  map ch_id
    (filter (λ c, ch_type c = TextChannel ∧ ch_category c = Some cat)
            (channels g)).

Definition set_category (cat : Z) (c : Channel) : Channel :=
  mkChannel (ch_id c) (ch_type c) (ch_name c) (ch_topic c) (Some cat)
            (ch_overwrites c) (ch_messages c).

Definition set_overwrites (ow : Overwrites) (c : Channel) : Channel :=
  mkChannel (ch_id c) (ch_type c) (ch_name c) (ch_topic c) (ch_category c)
            ow (ch_messages c).

Definition add_message (m : Message) (c : Channel) : Channel :=
  mkChannel (ch_id c) (ch_type c) (ch_name c) (ch_topic c) (ch_category c)
            (ch_overwrites c) (ch_messages c ++ [(m, false)]).

Definition pin_last (c : Channel) : Channel :=
  mkChannel (ch_id c) (ch_type c) (ch_name c) (ch_topic c) (ch_category c)
            (ch_overwrites c)
            (match reverse (ch_messages c) with
             | (m, _) :: older => reverse ((m, true) :: older)
             | [] => []
             end).

Definition with_channels (g : Guild) (chs : list Channel) : Guild :=
  mkGuild (guild_id g) (categories g) (roles g) chs (member_cache g)
          (members g) (next_id g).

Definition with_guild (w : World) (g : Guild) : World := mkWorld g (replies w).

(** ** The archived-state overwrites

    The computation is written twice in the source, once in the [archive]
    command and once in the sweep; both copies are kept. *)

Definition read_only : PermissionOverwrite :=
  mkPermissionOverwrite (Some true) (Some false) (Some true) None.

Definition read_write : PermissionOverwrite :=
  mkPermissionOverwrite (Some true) (Some true) (Some true) None.

(** Source lines 291-315 of [archive_channel]: [overwrites] is what
    [ch.overwrites] returned, [default_role] the id of [guild.default_role]
    and [editors_role] the id of the role found under the configured name. *)
Definition archive_channel_cleaned (default_role : Z) (editors_role : option Z)
    (overwrites : Overwrites) : Overwrites :=
  let overwrites := <[Role default_role := read_only]> overwrites in
  map_fold
    (λ target _perms cleaned,
       match target with
       | Member _ => <[target := read_only]> cleaned
       | Role id =>
           if bool_decide (editors_role = Some id)
           then <[target := read_write]> cleaned
           else <[target := read_only]> cleaned
       | Object _ =>
           <[target := mkPermissionOverwrite (Some true) (Some false) None None]>
             cleaned
       end)
    ∅ overwrites.

(** Source lines 348-368 of [sweeper]. *)
Definition sweeper_cleaned (default_role : Z) (editors_role : option Z)
    (overwrites : Overwrites) : Overwrites :=
  let overwrites := <[Role default_role := read_only]> overwrites in
  map_fold
    (λ target _perms cleaned,
       match target with
       | Member _ => <[target := read_only]> cleaned
       | Role id =>
           if bool_decide (editors_role = Some id)
           then <[target := read_write]> cleaned
           else <[target := read_only]> cleaned
       | Object _ =>
           <[target := mkPermissionOverwrite (Some true) (Some false) None None]>
             cleaned
       end)
    ∅ overwrites.

(** The entry the loop writes for one target, in closed form. *)
Definition cleaned_entry (editors_role : option Z) (target : Target)
  : PermissionOverwrite :=
  match target with
  | Member _ => read_only
  | Role id => if bool_decide (editors_role = Some id) then read_write else read_only
  | Object _ => mkPermissionOverwrite (Some true) (Some false) None None
  end.

(** What the archive transition makes of a channel: the two edits of
    [archive_channel], [ch.edit(category=archived_cat)] and
    [ch.edit(overwrites=cleaned)]. *)
Definition archived (archived_cat default_role : Z) (editors_role : option Z)
    (c : Channel) : Channel :=
  set_overwrites
    (archive_channel_cleaned default_role editors_role (ch_overwrites c))
    (set_category archived_cat c).

(** [sep.join(items)] *)
Fixpoint join (sep : str) (items : list str) : str :=
  match items with
  | [] => []
  | [x] => x
  | x :: items' => x ++ sep ++ join sep items'
  end.

(** ** Writer mentions (source lines 220-226 of [new_article]) *)

Definition parse_mention (mention : str) : result (list Z) :=
  if startswith (py "<@") mention && endswith (py ">") mention then
    let stripped := strip_chars (py "<@!>") mention in
    if str_isdigit stripped
    then do! uid ← int_of_str stripped; Ok [uid]
    else Ok []
  else Ok [].

Fixpoint parse_mentions (mentions : list str) (user_ids : list Z)
  : result (list Z) :=
  match mentions with
  | [] => Ok user_ids
  | mention :: mentions' =>
      do! ids ← parse_mention mention;
      parse_mentions mentions' (user_ids ++ ids)
  end.

(** [if writers: for mention in writers.split(): ...] *)
Definition writer_ids (writers : option str) : result (list Z) :=
  match writers with
  | None => Ok []
  | Some w => if bool_decide (w = []) then Ok [] else parse_mentions (split w) []
  end.

(** ** Handlers: state and exceptions

    A handler runs on the world and either returns or raises; what it did to
    the world before raising stays done. *)

Definition M (A : Type) : Type := World → result A * World.

Definition ret {A} (a : A) : M A := λ w, (Ok a, w).

Definition raise {A} (e : exn) : M A := λ w, (Raise e, w).

Definition bind {A B} (m : M A) (k : A → M B) : M B :=
  λ w, match m w with
       | (Ok a, w') => k a w'
       | (Raise e, w') => (Raise e, w')
       end.

(** [try: m except Exception as e: h e] *)
Definition catch {A} (m : M A) (h : exn → M A) : M A :=
  λ w, match m w with
       | (Ok a, w') => (Ok a, w')
       | (Raise e, w') => h e w'
       end.

Definition lift {A} (r : result A) : M A := λ w, (r, w).

Definition get_guild : M Guild := λ w, (Ok (guild w), w).

Definition modify_guild (f : Guild → Guild) : M unit :=
  λ w, (Ok tt, with_guild w (f (guild w))).

Declare Scope handler_scope.
Delimit Scope handler_scope with handler.
Notation "'let!' x ':=' m 'in' k" := (bind m (fun x => k))
  (at level 10, x pattern, m at level 100, k at level 200) : handler_scope.
Notation "m ';;' k" := (bind m (fun _ => k))
  (at level 100, k at level 200, right associativity) : handler_scope.
Local Open Scope handler_scope.

Section Platform.

(** Whether, and how, a call to the platform fails. *)
Variable api_fails : ApiCall → option exn.

(** [dt.timestamp()], which goes through the local time zone. *)
Variable timestamp : datetime → result Z.

Definition api (c : ApiCall) : M unit :=
  match api_fails c with
  | Some e => raise e
  | None => ret tt
  end.

(** [interaction.followup.send(...)] *)
Definition followup_send (r : Reply) : M unit :=
  api Followup ;;
  λ w, (Ok tt, mkWorld (guild w) (replies w ++ [r])).

(** [guild.create_category(name)] *)
Definition create_category (name : str) : M Z :=
  api (CreateCategory name) ;;
  let! g := get_guild in
  modify_guild (λ g, mkGuild (guild_id g) (categories g ++ [(next_id g, name)])
                             (roles g) (channels g) (member_cache g)
                             (members g) (next_id g + 1)) ;;
  ret (next_id g).

(** [ensure_categories] (source lines 96-103) *)
Definition ensure_categories (config : BotConfig) : M (Z * Z) :=
  let! g := get_guild in
  let active := get_by_name (categories g) (active_category_name config) in
  let archived := get_by_name (categories g) (archived_category_name config) in
  let! active :=
    match active with
    | None => create_category (active_category_name config)
    | Some a => ret a
    end in
  let! archived :=
    match archived with
    | None => create_category (archived_category_name config)
    | Some a => ret a
    end in
  ret (active, archived).

(** [guild.create_text_channel(name, category, overwrites, topic)] *)
Definition create_text_channel (name : str) (cat : Z) (ow : Overwrites)
    (topic : str) : M Z :=
  api (CreateTextChannel name) ;;
  let! g := get_guild in
  modify_guild (λ g,
    mkGuild (guild_id g) (categories g) (roles g)
            (channels g ++ [mkChannel (next_id g) TextChannel name (Some topic)
                                      (Some cat) ow []])
            (member_cache g) (members g) (next_id g + 1)) ;;
  ret (next_id g).

Definition on_channel (f : Channel → Channel) (ch : Z) : M unit :=
  modify_guild (λ g, with_channels g (update_channel f ch (channels g))).

(** [ch.edit(category=cat)] *)
Definition edit_category (ch cat : Z) : M unit :=
  api (EditCategory ch) ;; on_channel (set_category cat) ch.

(** [ch.edit(overwrites=ow)] *)
Definition edit_overwrites (ch : Z) (ow : Overwrites) : M unit :=
  api (EditOverwrites ch) ;; on_channel (set_overwrites ow) ch.

(** [ch.send(m)] *)
Definition send (ch : Z) (m : Message) : M unit :=
  api (SendMessage ch) ;; on_channel (add_message m) ch.

(** [msg.pin()] on the message just sent *)
Definition pin (ch : Z) : M unit :=
  api (PinMessage ch) ;; on_channel pin_last ch.

(** [guild.get_member(uid)]: the cache, [None] when the id is not in it. *)
Definition get_member (g : Guild) (uid : Z) : option Z :=
  if decide (uid ∈ member_cache g) then Some uid else None.

(** [guild.fetch_member(uid)]: asks the platform; raises [NotFound] when
    the id is not a member of the server. *)
Definition fetch_member (uid : Z) : M Z :=
  api (FetchMember uid) ;;
  let! g := get_guild in
  if decide (uid ∈ members g) then ret uid else raise NotFound.

(** The loop over [set(user_ids)] (source lines 228-235); the order in
    which a set gives its elements is not specified, here it is the order
    of first occurrence. *)
Fixpoint resolve_members (uids : list Z) (allowed_users : list Z)
    (overwrites : Overwrites) : M (list Z * Overwrites) :=
  match uids with
  | [] => ret (allowed_users, overwrites)
  | uid :: uids' =>
      let! g := get_guild in
      let! member :=
        match get_member g uid with
        | Some m => ret (Some m)
        | None => let! m := fetch_member uid in ret (Some m)
        end in
      match member with
      | Some m =>
          resolve_members uids' (allowed_users ++ [m])
            (<[Member m := mkPermissionOverwrite (Some true) (Some true)
                                                 (Some true) None]> overwrites)
      | None => resolve_members uids' allowed_users overwrites
      end
  end.

(** [new_article] (source lines 186-268); [now] is [datetime.now()]. *)
Definition new_article (config : BotConfig) (now : datetime)
    (interaction : Interaction) (title deadline : str) (writers : option str)
  : M unit :=
  api Defer ;;
  catch
    (if negb (in_guild interaction) then followup_send MustBeInServer
     else
       let! dt := lift (parse_when now deadline) in
       match dt with
       | None => followup_send BadDeadline
       | Some dt =>
           let! (active_cat, _) := ensure_categories config in
           let! g := get_guild in
           let editors_role :=
             get_by_name (roles g) (editors_role_name config) in
           let channel_name := slugify title in
           let overwrites : Overwrites :=
             {[ Role (default_role g) :=
                  mkPermissionOverwrite (Some false) None None None ]} in
           let overwrites :=
             match editors_role with
             | Some e =>
                 <[Role e := mkPermissionOverwrite (Some true) (Some true)
                                                   (Some true) (Some true)]>
                   overwrites
             | None => overwrites
             end in
           let! user_ids := lift (writer_ids writers) in
           let! (allowed_users, overwrites) :=
             resolve_members (remove_dups user_ids) [] overwrites in
           let topic := article_topic title dt in
           let! channel :=
             create_text_channel channel_name active_cat overwrites topic in
           let! ts := lift (timestamp dt) in
           send channel
             (Checklist title
                (match writers with
                 | Some w => if bool_decide (w = []) then None
                             else Some (join (py " ") (split w))
                 | None => None
                 end) ts) ;;
           catch (pin channel)
                 (λ e, match e with Forbidden => ret tt | _ => raise e end) ;;
           followup_send (Created channel allowed_users)
       end)
    (λ e, match e with
          | Forbidden => followup_send MissingPermissions
          | _ => followup_send (ErrorWhileCreating e)
          end).

(** [archive_channel] (source lines 270-326) *)
Definition archive_channel (config : BotConfig) (interaction : Interaction)
    (channel : option Z) : M unit :=
  api Defer ;;
  catch
    (if negb (in_guild interaction) then followup_send MustBeInServer
     else
       let! (_, archived_cat) := ensure_categories config in
       let ch := match channel with
                 | Some c => c
                 | None => in_channel interaction
                 end in
       let! g := get_guild in
       match get_channel (channels g) ch with
       | Some c =>
           if bool_decide (ch_type c = TextChannel) then
             (* Move channel *)
             edit_category ch archived_cat ;;
             let! g := get_guild in
             let editors_role :=
               get_by_name (roles g) (editors_role_name config) in
             let overwrites :=
               match get_channel (channels g) ch with
               | Some c => ch_overwrites c
               | None => ∅
               end in
             let cleaned :=
               archive_channel_cleaned (default_role g) editors_role
                                       overwrites in
             edit_overwrites ch cleaned ;;
             followup_send (Archived ch)
           else followup_send ChooseTextChannel
       | None => followup_send ChooseTextChannel
       end)
    (λ e, match e with
          | Forbidden => followup_send MissingPermissions
          | _ => followup_send (ErrorWhileArchiving e)
          end).

(** The body of the sweep's loop (source lines 342-371) for one channel. *)
Definition sweep_channel (archived_cat : Z) (editors_role : option Z)
    (now : datetime) (ch : Z) : M unit :=
  let! g := get_guild in
  let topic := match get_channel (channels g) ch with
               | Some c => ch_topic c
               | None => None
               end in
  let! dl := lift (extract_deadline_from_topic topic) in
  let! due := match dl with
              | Some dl => lift (datetime_lt dl now)
              | None => ret false
              end in
  if due then
    catch
      (send ch DeadlinePassed ;;
       edit_category ch archived_cat ;;
       (* Lock posting similar to manual archive *)
       let! g := get_guild in
       let overwrites :=
         match get_channel (channels g) ch with
         | Some c => ch_overwrites c
         | None => ∅
         end in
       let cleaned :=
         sweeper_cleaned (default_role g) editors_role overwrites in
       edit_overwrites ch cleaned)
      (λ _, ret tt)
  else ret tt.

Fixpoint sweeper_loop (archived_cat : Z) (editors_role : option Z)
    (now : datetime) (chs : list Z) : M unit :=
  match chs with
  | [] => ret tt
  | ch :: chs' =>
      sweep_channel archived_cat editors_role now ch ;;
      sweeper_loop archived_cat editors_role now chs'
  end.

(** [sweeper] (source lines 330-371): one tick. *)
Definition sweeper (config : BotConfig) (now : datetime) : M unit :=
  match cfg_guild_id config with
  | None => ret tt
  | Some gid =>
      let! g := get_guild in
      if negb (gid =? guild_id g) then ret tt
      else
        let! (active_cat, archived_cat) := ensure_categories config in
        let! g := get_guild in
        let editors_role :=
          get_by_name (roles g) (editors_role_name config) in
        sweeper_loop archived_cat editors_role now (text_channels g active_cat)
  end.

End Platform.

(** ** [json.dumps] of the configuration (source line 42)

    [json.dumps(asdict(self), indent=2)]: the dictionary of the four fields
    in the order of their declaration, one member a line, indented by two
    blanks; non-ASCII characters are escaped ([ensure_ascii]). *)

Definition dquote : ascii := chr 34.

Definition backslash : ascii := chr 92.

Definition hex_digit (n : N) : ascii :=
  if (n <? 10)%N then chr (48 + n) else chr (87 + n).

(** ['\\u{0:04x}'.format(n)] for [n < 0x10000]. *)
Definition u_escape (n : N) : str :=
  [backslash; "u"%char;
   hex_digit (n / 4096); hex_digit (n / 256 mod 16);
   hex_digit (n / 16 mod 16); hex_digit (n mod 16)].

(** [ESCAPE_DCT] and the replacement of [encode_basestring_ascii]. *)
Definition escape_char (c : ascii) : str :=
  let n := ord c in
  if (n =? 34)%N then [backslash; dquote]
  else if (n =? 92)%N then [backslash; backslash]
  else if (n =? 10)%N then [backslash; "n"%char]
  else if (n =? 13)%N then [backslash; "r"%char]
  else if (n =? 9)%N then [backslash; "t"%char]
  else if (n =? 12)%N then [backslash; "f"%char]
  else if (n =? 8)%N then [backslash; "b"%char]
  else if ((32 <=? n) && (n <=? 126))%N then [c]
  else u_escape n.

Definition encode_basestring_ascii (s : str) : str :=
  [dquote] ++ flat_map escape_char s ++ [dquote].

(** The number of decimal digits of [k >= 0]. *)
Fixpoint num_digits (fuel : nat) (k : Z) : nat :=
  match fuel with
  | O => 1
  | S fuel' => if k <? 10 then 1%nat else S (num_digits fuel' (k / 10))
  end.

(** The integers [int.__repr__] and [int] convert: since Python 3.11 those
    of at most 4300 decimal digits; for a longer one they raise
    [ValueError]. *)
Definition str_digits_limit (z : Z) : Prop := Z.abs z < 10 ^ 4300.

(** [int.__repr__], for an integer within the limit. *)
Definition repr_int (z : Z) : str :=
  let k := Z.abs z in
  (if z <? 0 then py "-" else [])
  ++ zfill (num_digits (Z.to_nat (Z.log2 k)) k) k.

Definition dumps_guild_id (guild_id : option Z) : str :=
  match guild_id with
  | None => py "null"
  | Some z => repr_int z
  end.

Definition newline : ascii := chr 10.

Definition dumps_member (key : string) (value : str) : str :=
  encode_basestring_ascii (py key) ++ py ": " ++ value.

Definition dumps_config (c : BotConfig) : str :=
  py "{" ++ [newline] ++ py "  "
  ++ dumps_member "guild_id" (dumps_guild_id (cfg_guild_id c))
  ++ py "," ++ [newline] ++ py "  "
  ++ dumps_member "active_category_name"
       (encode_basestring_ascii (active_category_name c))
  ++ py "," ++ [newline] ++ py "  "
  ++ dumps_member "archived_category_name"
       (encode_basestring_ascii (archived_category_name c))
  ++ py "," ++ [newline] ++ py "  "
  ++ dumps_member "editors_role_name"
       (encode_basestring_ascii (editors_role_name c))
  ++ [newline] ++ py "}".

(** ** [json.loads] (source line 48)

    What the decoder makes of a text: the value, or [ValueError]
    ([JSONDecodeError] is one); the definitions follow the scanner of the
    [_json] module, which the interpreter uses.  A string is kept as its code points, which
    an escape can take beyond U+00FF, and a number with a fraction or an
    exponent as its text.  The two limits of the interpreter are left out:
    the depth of nesting ([RecursionError]) and, since Python 3.11, the
    number of digits of an integer. *)

#[local] Unset Elimination Schemes.

Inductive json : Type :=
  | JNull
  | JBool (b : bool)
  | JInt (z : Z)
  | JFloat (text : str)
  | JNaN
  | JInfinity (negative : bool)
  | JStr (s : list N)
  | JList (items : list json)
  | JDict (items : list (list N * json)).

#[local] Set Elimination Schemes.

(** [WHITESPACE]: blank, tab, line feed, carriage return. *)
Definition is_ws (c : ascii) : bool :=
  let n := ord c in ((n =? 32) || (n =? 9) || (n =? 10) || (n =? 13))%N.

Definition skip_ws (s : str) : str := lstrip_by is_ws s.

Definition hex_value (c : ascii) : option N :=
  let n := ord c in
  if in_range 48 57 c then Some (n - 48)%N
  else if in_range 97 102 c then Some (n - 87)%N
  else if in_range 65 70 c then Some (n - 55)%N
  else None.

(** Four hexadecimal digits. *)
Definition read_hex4 (s : str) : option (N * str) :=
  match s with
  | a :: b :: c :: d :: rest =>
      a ← hex_value a; b ← hex_value b; c ← hex_value c; d ← hex_value d;
      Some (((a * 16 + b) * 16 + c) * 16 + d, rest)%N
  | _ => None
  end.

Definition is_high_surrogate (n : N) : bool := ((55296 <=? n) && (n <=? 56319))%N.

Definition is_low_surrogate (n : N) : bool := ((56320 <=? n) && (n <=? 57343))%N.

Definition join_surrogates (hi lo : N) : N :=
  (65536 + (hi - 55296) * 1024 + (lo - 56320))%N.

(** [BACKSLASH]: the character an escape other than [\u] stands for. *)
Definition unescape (c : ascii) : option N :=
  if ascii_eqb c dquote then Some 34%N
  else if ascii_eqb c backslash then Some 92%N
  else if ascii_eqb c "/" then Some 47%N
  else if ascii_eqb c "b" then Some 8%N
  else if ascii_eqb c "f" then Some 12%N
  else if ascii_eqb c "n" then Some 10%N
  else if ascii_eqb c "r" then Some 13%N
  else if ascii_eqb c "t" then Some 9%N
  else None.

(** [scanstring] in strict mode, from after the opening quote: the
    characters of the string and what follows the closing quote. *)
Fixpoint scanstring (fuel : nat) (s : str) (acc : list N)
  : result (list N * str) :=
  match fuel with
  | O => Raise ValueError
  | S fuel' =>
      match s with
      | [] => Raise ValueError          (* Unterminated string *)
      | c :: s' =>
          if ascii_eqb c dquote then Ok (acc, s')
          else if ascii_eqb c backslash then
            match s' with
            | [] => Raise ValueError    (* Unterminated string *)
            | e :: s'' =>
                if ascii_eqb e "u" then
                  if bool_decide (length s'' ≤ 4)%nat then Raise ValueError
                  else
                    match read_hex4 s'' with
                    | None => Raise ValueError   (* Invalid \uXXXX escape *)
                    | Some (hi, rest) =>
                        if is_high_surrogate hi
                           && bool_decide (6 < length rest)%nat
                           && startswith [backslash; "u"%char] rest
                        then
                          match read_hex4 (drop 2 rest) with
                          | None => Raise ValueError
                          | Some (lo, rest') =>
                              if is_low_surrogate lo
                              then scanstring fuel' rest'
                                     (acc ++ [join_surrogates hi lo])
                              else scanstring fuel' rest (acc ++ [hi])
                          end
                        else scanstring fuel' rest (acc ++ [hi])
                    end
                else
                  match unescape e with
                  | Some n => scanstring fuel' s'' (acc ++ [n])
                  | None => Raise ValueError     (* Invalid \escape *)
                  end
            end
          else if (ord c <=? 31)%N then Raise ValueError
                                        (* Invalid control character *)
          else scanstring fuel' s' (acc ++ [ord c])
      end
  end.

(** The longest prefix of decimal digits, and the rest. *)
Fixpoint span_digits (s : str) : str * str :=
  match s with
  | c :: s' =>
      if isdecimal c then let '(ds, rest) := span_digits s' in (c :: ds, rest)
      else ([], s)
  | [] => ([], [])
  end.

(** [NUMBER_RE]: an optional minus sign, then a zero or a non-zero digit
    with more digits; then, optionally, a point with digits, and an [e] or
    [E] with an optional sign and digits.  With neither fraction nor
    exponent the number is an [int]. *)
Definition match_number (s : str) : result (json * str) :=
  let '(sign, s1) :=
    match s with
    | c :: s' => if ascii_eqb c "-" then (py "-", s') else ([], s)
    | [] => ([], s)
    end in
  match s1 with
  | [] => Raise ValueError
  | c :: s2 =>
      if in_range 49 57 c || ascii_eqb c "0" then
        let '(integer, s3) :=
          if ascii_eqb c "0" then ([c], s2)
          else let '(ds, rest) := span_digits s2 in (c :: ds, rest) in
        let '(frac, s4) :=
          match s3 with
          | dot :: s3' =>
              if ascii_eqb dot "." then
                match span_digits s3' with
                | ([], _) => ([], s3)
                | (ds, rest) => (dot :: ds, rest)
                end
              else ([], s3)
          | [] => ([], s3)
          end in
        let '(exp, s5) :=
          match s4 with
          | e :: s4' =>
              if ascii_eqb e "e" || ascii_eqb e "E" then
                let '(esign, s4'') :=
                  match s4' with
                  | x :: rest =>
                      if ascii_eqb x "-" || ascii_eqb x "+" then ([x], rest)
                      else ([], s4')
                  | [] => ([], s4')
                  end in
                match span_digits s4'' with
                | ([], _) => ([], s4)
                | (ds, rest) => (e :: esign ++ ds, rest)
                end
              else ([], s4)
          | [] => ([], s4)
          end in
        if bool_decide (frac = []) && bool_decide (exp = []) then
          do! z ← int_of_str (sign ++ integer);
          Ok (JInt z, s5)
        else Ok (JFloat (sign ++ integer ++ frac ++ exp), s5)
      else Raise ValueError
  end.

(** [dict[key] = value]: a key that is there keeps its place. *)
Fixpoint dict_set (items : list (list N * json)) (key : list N) (value : json)
  : list (list N * json) :=
  match items with
  | [] => [(key, value)]
  | (k, v) :: items' =>
      if bool_decide (k = key) then (k, value) :: items'
      else (k, v) :: dict_set items' key value
  end.

(** [scan_once], with the loops of [JSONObject] and [JSONArray]; every
    call is on a shorter text, so the length of the text is fuel enough. *)
Fixpoint scan_once (fuel : nat) (s : str) : result (json * str) :=
  match fuel with
  | O => Raise ValueError
  | S fuel' =>
      match s with
      | [] => Raise ValueError               (* Expecting value *)
      | c :: s' =>
          if ascii_eqb c dquote then
            do! (cs, rest) ← scanstring (length s) s' [];
            Ok (JStr cs, rest)
          else if ascii_eqb c "{" then
            let s1 := skip_ws s' in
            if startswith (py "}") s1 then Ok (JDict [], drop 1 s1)
            else object_loop fuel' s1 []
          else if ascii_eqb c "[" then
            let s1 := skip_ws s' in
            if startswith (py "]") s1 then Ok (JList [], drop 1 s1)
            else array_loop fuel' s1 []
          else if startswith (py "null") s then Ok (JNull, drop 4 s)
          else if startswith (py "true") s then Ok (JBool true, drop 4 s)
          else if startswith (py "false") s then Ok (JBool false, drop 5 s)
          else if startswith (py "NaN") s then Ok (JNaN, drop 3 s)
          else if startswith (py "Infinity") s then
            Ok (JInfinity false, drop 8 s)
          else if startswith (py "-Infinity") s then
            Ok (JInfinity true, drop 9 s)
          else match_number s
      end
  end
with object_loop (fuel : nat) (s : str) (items : list (list N * json))
  : result (json * str) :=
  match fuel with
  | O => Raise ValueError
  | S fuel' =>
      match s with
      | q :: s1 =>
          if ascii_eqb q dquote then
            do! (key, s2) ← scanstring (length s) s1 [];
            match skip_ws s2 with
            | colon :: s3 =>
                if ascii_eqb colon ":" then
                  do! (value, s4) ← scan_once fuel' (skip_ws s3);
                  let items := dict_set items key value in
                  match skip_ws s4 with
                  | x :: s5 =>
                      if ascii_eqb x "}" then Ok (JDict items, s5)
                      else if ascii_eqb x ","
                      then object_loop fuel' (skip_ws s5) items
                      else Raise ValueError  (* Expecting ',' delimiter *)
                  | [] => Raise ValueError
                  end
                else Raise ValueError        (* Expecting ':' delimiter *)
            | [] => Raise ValueError
            end
          else Raise ValueError              (* Expecting property name *)
      | [] => Raise ValueError
      end
  end
with array_loop (fuel : nat) (s : str) (items : list json)
  : result (json * str) :=
  match fuel with
  | O => Raise ValueError
  | S fuel' =>
      do! (value, s1) ← scan_once fuel' s;
      let items := items ++ [value] in
      match skip_ws s1 with
      | x :: s2 =>
          if ascii_eqb x "]" then Ok (JList items, s2)
          else if ascii_eqb x ","
          then array_loop fuel' (skip_ws s2) items
          else Raise ValueError              (* Expecting ',' delimiter *)
      | [] => Raise ValueError
      end
  end.

(** [JSONDecoder.decode]: leading whitespace, one value, trailing
    whitespace, and nothing else. *)
Definition json_loads (s : str) : result json :=
  do! (obj, rest) ← scan_once (S (length s)) (skip_ws s);
  if bool_decide (skip_ws rest = []) then Ok obj
  else Raise ValueError.                     (* Extra data *)

Definition codes (s : str) : list N := map ord s.

(** ** [BotConfig.load] and [BotConfig.save] (source lines 34-54) *)

(** A [BotConfig] as the interpreter has it: the dataclass does not check
    the types of its fields, so what [load] builds holds whatever values
    the file gave. *)
Record RawConfig : Type := mkRawConfig {
  raw_guild_id : json;
  raw_active_category_name : json;
  raw_archived_category_name : json;
  raw_editors_role_name : json
}.

(** [BotConfig()]: the defaults of the fields (source lines 36-39). *)
Definition default_config : BotConfig :=
  mkBotConfig None (py "Active Articles") (py "Archived Articles")
              (py "Editors").

Definition to_raw (c : BotConfig) : RawConfig :=
  mkRawConfig
    (match cfg_guild_id c with None => JNull | Some z => JInt z end)
    (JStr (codes (active_category_name c)))
    (JStr (codes (archived_category_name c)))
    (JStr (codes (editors_role_name c))).

(** The items of [data] as the keyword arguments of [BotConfig], one after
    the other; a keyword that is not a field raises [TypeError]. *)
Fixpoint set_fields (items : list (list N * json)) (c : RawConfig)
  : result RawConfig :=
  match items with
  | [] => Ok c
  | (key, value) :: items' =>
      if bool_decide (key = codes (py "guild_id")) then
        set_fields items'
          (mkRawConfig value (raw_active_category_name c)
             (raw_archived_category_name c) (raw_editors_role_name c))
      else if bool_decide (key = codes (py "active_category_name")) then
        set_fields items'
          (mkRawConfig (raw_guild_id c) value
             (raw_archived_category_name c) (raw_editors_role_name c))
      else if bool_decide (key = codes (py "archived_category_name")) then
        set_fields items'
          (mkRawConfig (raw_guild_id c) (raw_active_category_name c)
             value (raw_editors_role_name c))
      else if bool_decide (key = codes (py "editors_role_name")) then
        set_fields items'
          (mkRawConfig (raw_guild_id c) (raw_active_category_name c)
             (raw_archived_category_name c) value)
      else Raise TypeError
  end.

(** [BotConfig] called with [data] unpacked (source line 49): [data]
    must be a mapping. *)
Definition BotConfig_new (data : json) : result RawConfig :=
  match data with
  | JDict items => set_fields items (to_raw default_config)
  | _ => Raise TypeError
  end.

(** The file [exonian_config.json]: not there, there but not to be read as
    text (a directory, no permission, bytes that do not decode), or a
    text. *)
Inductive File : Type :=
  | NoFile
  | Unreadable
  | Text (s : str).

(** [BotConfig.load] (source lines 44-52) *)
Definition load (file : File) : RawConfig :=
  match file with
  | NoFile => to_raw default_config
  | Unreadable => to_raw default_config
  | Text s =>
      match try_except
              (do! data ← json_loads s;
               do! c ← BotConfig_new data;
               Ok (Some c))
              (λ _, Ok None) with
      | Ok (Some c) => c
      | _ => to_raw default_config
      end
  end.

(** The code points of a string of the model (U+0000..U+00FF). *)
Definition str_of_codes (cs : list N) : option str :=
  if forallb (λ n, n <? 256)%N cs then Some (map chr cs) else None.

(** The configuration when every field holds a value of its declared
    type. *)
Definition typed (c : RawConfig) : option BotConfig :=
  guild_id ← match raw_guild_id c with
             | JNull => Some None
             | JInt z => Some (Some z)
             | _ => None
             end;
  active ← match raw_active_category_name c with
           | JStr cs => str_of_codes cs
           | _ => None
           end;
  archived ← match raw_archived_category_name c with
             | JStr cs => str_of_codes cs
             | _ => None
             end;
  editors ← match raw_editors_role_name c with
            | JStr cs => str_of_codes cs
            | _ => None
            end;
  Some (mkBotConfig guild_id active archived editors).

(** ** The bot: configuration in memory and on disk, [setup] and
    [list_articles]

    [config] is a module-level object: [setup] assigns to it and saves it,
    every other handler reads it when it runs. *)

(** A line of the list [list_articles] sends. *)
Inductive Line : Type :=
  | WithDeadline (channel : Z) (timestamp : Z)
  | NoDeadline (channel : Z).

(** What [setup] and [list_articles] tell their user. *)
Inductive Answer : Type :=
  | Told (r : Reply)
  | SetupComplete (active archived editors : Z)
  | NoActiveArticles     (* "No active article channels." *)
  | Articles (lines : list Line).

(** The exceptions of these handlers: the platform's and the
    interpreter's. *)
Inductive bot_exn : Type :=
  | Platform (e : exn)
  | AttributeError
  | OSError.

Inductive outcome (A : Type) : Type :=
  | Done (a : A)
  | Failed (e : bot_exn).

Arguments Done {A} a.

Arguments Failed {A} e.

Record Bot : Type := mkBot {
  bot_world : World;
  bot_config : BotConfig;        (* the module-level [config] *)
  bot_file : File;               (* [exonian_config.json] *)
  bot_said : list Answer
}.

Definition B (A : Type) : Type := Bot → outcome A * Bot.

Definition bret {A} (a : A) : B A := λ s, (Done a, s).

Definition bfail {A} (e : bot_exn) : B A := λ s, (Failed e, s).

Definition bbind {A C} (m : B A) (k : A → B C) : B C :=
  λ s, match m s with
       | (Done a, s') => k a s'
       | (Failed e, s') => (Failed e, s')
       end.

(** A handler on the [World], run on the bot's world. *)
Definition on_world {A} (m : M A) : B A :=
  λ s, match m (bot_world s) with
       | (Ok a, w) =>
           (Done a, mkBot w (bot_config s) (bot_file s) (bot_said s))
       | (Raise e, w) =>
           (Failed (Platform e),
            mkBot w (bot_config s) (bot_file s) (bot_said s))
       end.

Definition get_config : B BotConfig := λ s, (Done (bot_config s), s).

Definition set_config (c : BotConfig) : B unit :=
  λ s, (Done tt, mkBot (bot_world s) c (bot_file s) (bot_said s)).

Declare Scope bot_scope.

Delimit Scope bot_scope with bot.

Notation "'let!' x ':=' m 'in' k" := (bbind m (fun x => k))
  (at level 10, x pattern, m at level 100, k at level 200) : bot_scope.

Notation "m ';;' k" := (bbind m (fun _ => k))
  (at level 100, k at level 200, right associativity) : bot_scope.

(** [guild.create_role(name=name)] *)
Definition with_new_role (g : Guild) (name : str) : Guild :=
  mkGuild (guild_id g) (categories g) (roles g ++ [(next_id g, name)])
          (channels g) (member_cache g) (members g) (next_id g + 1).

Section Bot.

(** Whether, and how, a call to the platform fails: the calls of
    [ApiCall], and the creation of a role. *)
Variable api_fails : ApiCall → option exn.

Variable create_role_fails : str → option exn.

(** Whether the configuration file can be opened for writing. *)
Variable write_fails : bool.

(** [int(dt.timestamp())] *)
Variable timestamp : datetime → result Z.

Local Open Scope bot_scope.

(** [interaction.followup.send(...)] *)
Definition answer (a : Answer) : B unit :=
  on_world (api api_fails Followup) ;;
  λ s, (Done tt, mkBot (bot_world s) (bot_config s) (bot_file s)
                       (bot_said s ++ [a])).

Definition create_role (name : str) : B Z :=
  match create_role_fails name with
  | Some e => bfail (Platform e)
  | None =>
      let! g := on_world get_guild in
      on_world (modify_guild (λ g, with_new_role g name)) ;;
      bret (next_id g)
  end.

(** [get_or_create_role] (source lines 105-109) *)
Definition get_or_create_role (name : str) : B Z :=
  let! g := on_world get_guild in
  match get_by_name (roles g) name with
  | Some role => bret role
  | None => create_role name
  end.

(** [BotConfig.save] (source lines 41-42) *)
Definition save : B unit :=
  λ s, if write_fails then (Failed OSError, s)
       else (Done tt, mkBot (bot_world s) (bot_config s)
                            (Text (dumps_config (bot_config s)))
                            (bot_said s)).

(** [setup] (source lines 147-163) *)
Definition setup (interaction : Interaction) : B unit :=
  on_world (api api_fails Defer) ;;
  let! g := on_world get_guild in
  let! config := get_config in
  (* config.guild_id = interaction.guild_id *)
  set_config (mkBotConfig
                (if in_guild interaction then Some (guild_id g) else None)
                (active_category_name config)
                (archived_category_name config)
                (editors_role_name config)) ;;
  (* [interaction.guild] is [None] outside a server, and
     [ensure_categories] asks it for its categories *)
  if negb (in_guild interaction) then bfail AttributeError
  else
    let! config := get_config in
    let! (active, archived) := on_world (ensure_categories api_fails config) in
    let! editors := get_or_create_role (editors_role_name config) in
    save ;;
    answer (SetupComplete active archived editors).

(** The loop of [list_articles] (source lines 175-180). *)
Fixpoint article_lines (g : Guild) (chs : list Z) (lines : list Line)
  : B (list Line) :=
  match chs with
  | [] => bret lines
  | ch :: chs' =>
      let topic := match get_channel (channels g) ch with
                   | Some c => ch_topic c
                   | None => None
                   end in
      let! dl := on_world (lift (extract_deadline_from_topic topic)) in
      match dl with
      | Some dl =>
          let! ts := on_world (lift (timestamp dl)) in
          article_lines g chs' (lines ++ [WithDeadline ch ts])
      | None => article_lines g chs' (lines ++ [NoDeadline ch])
      end
  end.

(** [list_articles] (source lines 165-184) *)
Definition list_articles (interaction : Interaction) : B unit :=
  on_world (api api_fails Defer) ;;
  if negb (in_guild interaction) then answer (Told MustBeInServer)
  else
    let! config := get_config in
    let! (active_cat, _) := on_world (ensure_categories api_fails config) in
    let! g := on_world get_guild in
    let! lines := article_lines g (text_channels g active_cat) [] in
    if bool_decide (lines = []) then answer NoActiveArticles
    else answer (Articles lines).

(** A tick of the sweep, on the configuration as it is. *)
Definition tick (now : datetime) : B unit :=
  let! config := get_config in
  on_world (sweeper api_fails config now).

End Bot.

(** ** Definitions the lemmas are stated with *)

(** The characters of a time or offset string without its sign. *)
Definition time_char (c : ascii) : Prop :=
  isdecimal c = true ∨ c = ":"%char ∨ c = "."%char.

(** The shape [HH:MM:SS[.ffffff]] of the time part. *)
Definition hhmmss (h mi s us : Z) : str :=
  zfill 2 h ++ ":"%char :: zfill 2 mi ++ ":"%char :: zfill 2 s
    ++ (if us =? 0 then [] else "."%char :: zfill 6 us).

(** The shape [HH:MM[:SS[.ffffff]]] of the offset. *)
Definition hhmm_ss (h mi s us : Z) : str :=
  zfill 2 h ++ ":"%char :: zfill 2 mi
    ++ (if (s =? 0) && (us =? 0) then []
        else ":"%char :: zfill 2 s
               ++ (if us =? 0 then [] else "."%char :: zfill 6 us)).

(** The part of the topic in front of the tag. *)
Definition topic_head (title : str) : str := py "Article: " ++ title ++ py " | ".


(** The directives of the groups of an expression, in order. *)
Fixpoint re_directives (re : list re_item) : list directive :=
  match re with
  | [] => []
  | Group d _ :: re' => d :: re_directives re'
  | _ :: re' => re_directives re'
  end.

(** The metadata strings there is no deadline to read from: the empty one,
    one without the tag, one with no bracket after the tag, and one whose
    text between tag and bracket the parser refuses. *)
Inductive undecodable (parse : str → result datetime) : str → Prop :=
  | undecodable_empty :
      undecodable parse []
  | undecodable_no_tag topic :
      contains DEADLINE_TAG topic = false →
      undecodable parse topic
  | undecodable_no_bracket topic i :
      find DEADLINE_TAG topic = Some i →
      find_from (py "]") topic (i + length DEADLINE_TAG) = None →
      undecodable parse topic
  | undecodable_timestamp topic i j e :
      find DEADLINE_TAG topic = Some i →
      find_from (py "]") topic (i + length DEADLINE_TAG) = Some j →
      parse (slice topic (i + length DEADLINE_TAG) j) = Raise e →
      undecodable parse topic.

(** What the decoder gives for the topics that every version of the
    interpreter decodes alike: nothing where it gives up before it calls
    [fromisoformat] (no topic, no tag, no bracket after the tag), and the
    date where the text between tag and bracket is what [isoformat] prints
    for a date that exists. *)
Inductive topic_decodes : option str → option datetime → Prop :=
  | decodes_no_topic :
      topic_decodes None None
  | decodes_no_tag topic :
      contains DEADLINE_TAG topic = false →
      topic_decodes (Some topic) None
  | decodes_no_bracket topic i :
      find DEADLINE_TAG topic = Some i →
      find_from (py "]") topic (i + length DEADLINE_TAG) = None →
      topic_decodes (Some topic) None
  | decodes_isoformat topic i j dt :
      find DEADLINE_TAG topic = Some i →
      find_from (py "]") topic (i + length DEADLINE_TAG) = Some j →
      valid_datetime dt = true →
      slice topic (i + length DEADLINE_TAG) j = isoformat dt →
      topic_decodes (Some topic) (Some dt).

(** A channel whose topic every version decodes alike. *)
Definition settled_topic (c : Channel) : Prop :=
  ∃ r, topic_decodes (ch_topic c) r.

(** A channel whose topic every version decodes alike, to nothing or to a
    deadline without a UTC offset. *)
Definition plain_topic (c : Channel) : Prop :=
  ∃ r, topic_decodes (ch_topic c) r ∧ ∀ dl, r = Some dl → tzinfo dl = None.

(** The overwrites are those of members in the cache and of roles of the
    guild: [ch.overwrites] then gives each of them under the key it is
    stored with. *)
Definition cached_targets (g : Guild) (overwrites : Overwrites) : Prop :=
  ∀ target, is_Some (overwrites !! target) →
    match target with
    | Member id => id ∈ member_cache g
    | Role id => id = default_role g ∨ id ∈ (roles g).*1
    | Object _ => False
    end.

(** What a failed input check may leave behind: nothing but categories
    added at the end of the list. *)
Definition categories_added (g g' : Guild) : Prop :=
  guild_id g' = guild_id g
  ∧ roles g' = roles g
  ∧ channels g' = channels g
  ∧ member_cache g' = member_cache g
  ∧ members g' = members g
  ∧ ∃ new, categories g' = categories g ++ new.

(** The slug before it is cut: separators stripped and runs collapsed. *)
Definition slug_stripped (title : str) : str :=
  strip_chars (py "-")
    (flat_map (λ ch, if isalnum ch then lower ch else [hyphen]) title).

Definition slug_collapsed (title : str) : str :=
  collapse_loop (length (slug_stripped title)) (slug_stripped title).

(** The two strings of [s.replace("--", "-")]. *)
Definition two_hyphens : str := py "--".
Definition one_hyphen : str := py "-".

(** Whether the sweep finds the channel past its deadline. *)
Definition due (now : datetime) (c : Channel) : bool :=
  match extract_deadline_from_topic (ch_topic c) with
  | Ok (Some dl) => match datetime_lt dl now with Ok b => b | Raise _ => false end
  | _ => false
  end.

(** The deadline in the topic, when there is one, has no UTC offset. *)
Definition naive_deadline (c : Channel) : Prop :=
  ∀ dl, extract_deadline_from_topic (ch_topic c) = Ok (Some dl) →
        tzinfo dl = None.

(** What one round of the sweep makes of a channel that is due: the
    notice, the move and the new overwrites, as far as the platform lets
    the calls through. *)
Definition swept (api_fails : ApiCall → option exn)
    (archived_cat default_role : Z) (editors_role : option Z) (c : Channel)
  : Channel :=
  match api_fails (SendMessage (ch_id c)) with
  | Some _ => c
  | None =>
      let c1 := add_message DeadlinePassed c in
      match api_fails (EditCategory (ch_id c)) with
      | Some _ => c1
      | None =>
          let c2 := set_category archived_cat c1 in
          match api_fails (EditOverwrites (ch_id c)) with
          | Some _ => c2
          | None =>
              set_overwrites
                (sweeper_cleaned default_role editors_role (ch_overwrites c2)) c2
          end
      end
  end.

(** What a round of the sweep's loop makes of a channel. *)
Definition sweep_of (api_fails : ApiCall → option exn) (archived_cat : Z)
    (editors_role : option Z) (now : datetime) (g : Guild) (c : Channel)
  : Channel :=
  if due now c
  then swept api_fails archived_cat (default_role g) editors_role c
  else c.

(** What a command leaves of a channel it edits. *)
Definition channel_kept (c c' : Channel) : Prop :=
  ch_id c' = ch_id c ∧ ch_type c' = ch_type c ∧ ch_name c' = ch_name c
  ∧ ch_topic c' = ch_topic c ∧ ch_messages c' = ch_messages c.

(** [archive]'s answer to an exception (source lines 320-326). *)
Definition archive_error (e : exn) : Reply :=
  match e with
  | Forbidden => MissingPermissions
  | _ => ErrorWhileArchiving e
  end.

(** The server but for its channels: nothing changed, categories at most
    added at the end of the list. *)
Definition same_server (g g' : Guild) : Prop :=
  guild_id g' = guild_id g
  ∧ roles g' = roles g
  ∧ member_cache g' = member_cache g
  ∧ members g' = members g
  ∧ ∃ new, categories g' = categories g ++ new.

(** The guild with one more category, as [guild.create_category] leaves
    it. *)
Definition with_new_category (g : Guild) (name : str) : Guild :=
  mkGuild (guild_id g) (categories g ++ [(next_id g, name)]) (roles g)
          (channels g) (member_cache g) (members g) (next_id g + 1).

(** The channels are the same ones in the same order, each related to what
    it was by [K]. *)
Definition channels_related (K : relation Channel) (g g' : Guild) : Prop :=
  same_server g g' ∧ Forall2 K (channels g) (channels g').

(** A handler that takes every world to a related one, whether it returns
    or raises. *)
Definition keeps (R : relation World) {A} (m : M A) : Prop :=
  ∀ w, R w (m w).2.

(** A relation on guilds, as one on worlds. *)
Definition on_guild (R : relation Guild) : relation World :=
  λ w w', R (guild w) (guild w').

(** Nothing was said to the user. *)
Definition silent : relation World := λ w w', replies w' = replies w.

(** What [archive] may do to a channel: to the one with the id [ch], change
    its category and overwrites; to another one, nothing. *)
Definition archive_edit (ch : Z) (c c' : Channel) : Prop :=
  channel_kept c c' ∧ (ch_id c ≠ ch → c' = c).

(** [R] lets a handler change the guild, in the ways [ok] describes. *)
Definition guild_changes (R : relation World) (ok : Guild → Guild → Prop)
  : Prop :=
  ∀ w g, ok (guild w) g → R w (with_guild w g).

(** A handler that answers the user once when it returns, and not at all
    when it raises. *)
Definition answers {A} (m : M A) : Prop :=
  ∀ w, match (m w).1 with
       | Ok _ => ∃ r, replies (m w).2 = replies w ++ [r]
       | Raise _ => replies (m w).2 = replies w
       end.

(** The overwrite [new_article] gives a writer (source lines 233-235). *)
Definition writer_overwrite : PermissionOverwrite :=
  mkPermissionOverwrite (Some true) (Some true) (Some true) None.

(** The overwrites [new_article] starts from (source lines 214-218). *)
Definition article_overwrites (default_role : Z) (editors_role : option Z)
  : Overwrites :=
  let overwrites : Overwrites :=
    {[ Role default_role := mkPermissionOverwrite (Some false) None None None ]} in
  match editors_role with
  | Some e =>
      <[Role e := mkPermissionOverwrite (Some true) (Some true) (Some true)
                                        (Some true)]> overwrites
  | None => overwrites
  end.


(** [new_article]'s answer to an exception (source lines 262-268). *)
Definition new_article_error (e : exn) : Reply :=
  match e with
  | Forbidden => MissingPermissions
  | _ => ErrorWhileCreating e
  end.

(** The [Writers] line of the checklist (source line 248). *)
Definition checklist_writers (writers : option str) : option str :=
  match writers with
  | Some w => if bool_decide (w = []) then None
              else Some (join (py " ") (split w))
  | None => None
  end.

(** The guild with one more text channel. *)
Definition with_new_channel (g : Guild) (c : Channel) : Guild :=
  mkGuild (guild_id g) (categories g) (roles g) (channels g ++ [c])
          (member_cache g) (members g) (next_id g + 1).

(** No channel has the id the platform gives out next. *)
Definition fresh_ids (g : Guild) : Prop :=
  ∀ c, c ∈ channels g → ch_id c < next_id g.

(** The channel with the messages [ms]. *)
Definition set_messages (ms : list (Message * bool)) (c : Channel) : Channel :=
  mkChannel (ch_id c) (ch_type c) (ch_name c) (ch_topic c) (ch_category c)
            (ch_overwrites c) ms.

(** The channel [new_article] asks the platform for. *)
Definition article_channel (id : Z) (title : str) (dt : datetime) (cat : Z)
    (ow : Overwrites) (ms : list (Message * bool)) : Channel :=
  mkChannel id TextChannel (slugify title) (Some (article_topic title dt))
            (Some cat) ow ms.

(** The platform's counter of ids does not go back. *)
Definition next_id_le : relation Guild := λ g g', next_id g ≤ next_id g'.

(** A text channel of the category [a] that is past its deadline. *)
Definition to_sweep (a : Z) (now : datetime) (c : Channel) : Prop :=
  ch_type c = TextChannel ∧ ch_category c = Some a ∧ due now c = true.

#[global] Instance to_sweep_dec a now c : Decision (to_sweep a now c).
Proof. unfold to_sweep. apply _. Defined.

(** A user mention as the client writes it: ["<@id>"], or ["<@!id>"] for
    a nickname mention, the id in [n] decimal digits. *)
Definition mention (nick : bool) (n : nat) (uid : Z) : str :=
  py "<@" ++ (if nick then py "!" else []) ++ zfill n uid ++ py ">".

(** The guild of the bot's world. *)
Definition bot_guild (s : Bot) : Guild := guild (bot_world s).

(** Categories and roles at most added at the end of their lists, and
    nothing else of the server changed. *)
Definition server_grown (g g' : Guild) : Prop :=
  guild_id g' = guild_id g
  ∧ channels g' = channels g
  ∧ member_cache g' = member_cache g
  ∧ members g' = members g
  ∧ (∃ new, categories g' = categories g ++ new)
  ∧ (∃ new, roles g' = roles g ++ new).

(** The configuration with the guild [setup] assigns. *)
Definition with_guild_id (config : BotConfig) (guild_id : option Z)
  : BotConfig :=
  mkBotConfig guild_id (active_category_name config)
              (archived_category_name config) (editors_role_name config).

(** The line of a channel in the list. *)
Definition line_of (timestamp : datetime → result Z) (c : Channel)
    (line : Line) : Prop :=
  match extract_deadline_from_topic (ch_topic c) with
  | Ok (Some dl) =>
      ∃ ts, timestamp dl = Ok ts ∧ line = WithDeadline (ch_id c) ts
  | _ => line = NoDeadline (ch_id c)
  end.

(** The deadline of the channel has no timestamp. *)
Definition no_timestamp (timestamp : datetime → result Z) (c : Channel)
  : Prop :=
  ∃ dl e, extract_deadline_from_topic (ch_topic c) = Ok (Some dl)
          ∧ timestamp dl = Raise e.

(** The ticks of the sweep at the times [nows], one after the other. *)
Definition ticks (api_fails : ApiCall → option exn) (config : BotConfig)
    (nows : list datetime) (w : World) : World :=
  foldl (λ w now, (sweeper api_fails config now w).2) w nows.

(** The names of the fields of [BotConfig] (source lines 36-39). *)
Definition config_fields : list (list N) :=
  [codes (py "guild_id"); codes (py "active_category_name");
   codes (py "archived_category_name"); codes (py "editors_role_name")].

(** ** Scenarios *)

Definition no_failure : ApiCall → option exn := λ _, None.

Definition config0 : BotConfig :=
  mkBotConfig (Some 1) (py "Active Articles") (py "Archived Articles")
              (py "Editors").

Definition now0 : datetime := mkdatetime 2026 11 3 12 0 0 0 None.

Definition roles0 : list (Z * str) := [(1, py "@everyone"); (2, py "Editors")].

(** A server on which [/setup] has not run: no categories yet, and a voice
    channel. *)
Definition fresh_guild : Guild :=
  mkGuild 1 [] roles0
    [mkChannel 50 OtherChannel (py "newsroom-voice") None None ∅ []]
    ∅ {[ 7 ]} 100.

(** A server after [/setup], with member 7. *)
Definition home_guild (chs : list Channel) : Guild :=
  mkGuild 1 [(10, py "Active Articles"); (11, py "Archived Articles")] roles0
    chs ∅ {[ 7 ]} 100.

(** The same server with member 7 in the cache. *)
Definition cached_guild (chs : list Channel) : Guild :=
  mkGuild 1 [(10, py "Active Articles"); (11, py "Archived Articles")] roles0
    chs {[ 7 ]} {[ 7 ]} 100.

Definition writer_overwrites : Overwrites :=
  {[ Role 1 := mkPermissionOverwrite (Some false) None None None;
     Member 7 := mkPermissionOverwrite (Some true) (Some true) (Some true) None ]}.

(** Two active articles, both past their deadline; the first topic carries
    a UTC offset. *)
Definition article_utc : Channel :=
  mkChannel 20 TextChannel (py "council-vote")
    (Some (py "Article: Council vote | [deadline: 2020-01-01T00:00:00+00:00]"))
    (Some 10) writer_overwrites [].

Definition article_due : Channel :=
  mkChannel 21 TextChannel (py "budget")
    (Some (article_topic (py "Budget") (mkdatetime 2020 1 1 0 0 0 0 None)))
    (Some 10) writer_overwrites [].

(** A platform that lets the bot move channels but not edit overwrites. *)
Definition overwrites_refused : ApiCall → option exn :=
  λ c, match c with EditOverwrites _ => Some Forbidden | _ => None end.


(** A platform on which a message cannot be sent. *)
Definition send_refused : ApiCall → option exn :=
  λ c, match c with SendMessage _ => Some HTTPException | _ => None end.

(** The day after the deadline of "Budget". *)
Definition day_after : datetime := mkdatetime 2027 1 2 9 0 0 0 None.

(** A platform on which no channel can be moved. *)
Definition move_refused : ApiCall → option exn :=
  λ c, match c with EditCategory _ => Some Forbidden | _ => None end.

(** A configuration file with a key too many: [{"guild_id": 1, "token": 2}]. *)
Definition stray_key_file : str :=
  py "{" ++ [dquote] ++ py "guild_id" ++ [dquote] ++ py ": 1, "
    ++ [dquote] ++ py "token" ++ [dquote] ++ py ": 2}".


(** A clock for which every deadline has the timestamp 0. *)
Definition epoch : datetime → result Z := λ _, Ok 0.

(** A clock that cannot convert any deadline. *)
Definition no_clock : datetime → result Z := λ _, Raise OverflowError.

(** The bot on a server on which [/setup] has not run, before the first
    configuration is saved. *)
Definition fresh_bot : Bot :=
  mkBot (mkWorld fresh_guild []) default_config NoFile [].

(** The bot on its home server. *)
Definition home_bot (chs : list Channel) : Bot :=
  mkBot (mkWorld (home_guild chs) []) config0 (Text (dumps_config config0)) [].

(** A platform that lets the bot create roles. *)
Definition roles_granted : str → option exn := λ _, None.

(* ===================================================================== *)
(** * Part II: lemmas                                                     *)
(* ===================================================================== *)

Example slugify_hello :
  slugify (py "Hello, World!  2nd -- Draft") = py "hello-world-2nd-draft".
Proof. vm_compute. reflexivity. Qed.

(** ** [slugify] *)

Lemma slugify_unfold (title : str) :
  slugify title
  = if bool_decide (slug_collapsed title = []) then py "article"
    else take 90 (slug_collapsed title).
Proof. done. Qed.

(** *** [strip] *)

Lemma lstrip_by_head (p : ascii → bool) (s : str) (c : ascii) (r : str) :
  lstrip_by p s = c :: r → p c = false.
Proof.
  induction s as [|x s IH]; simpl; [done|].
  destruct (p x) eqn:E; [done|]. by intros [= <- _].
Qed.

Lemma lstrip_by_last (p : ascii → bool) (s : str) :
  lstrip_by p s ≠ [] → last (lstrip_by p s) = last s.
Proof.
  induction s as [|x s IH]; simpl; [done|].
  destruct (p x); [|done]. intros H. rewrite IH by done.
  destruct s; [done|]. done.
Qed.

Lemma lstrip_by_elem (p : ascii → bool) (s : str) (c : ascii) :
  c ∈ lstrip_by p s → c ∈ s.
Proof.
  induction s as [|x s IH]; simpl; [done|].
  destruct (p x); [|done]. intros H. right. by apply IH.
Qed.

Lemma elem_of_rev {A} (l : list A) (x : A) : x ∈ rev l ↔ x ∈ l.
Proof. rewrite !list_elem_of_In. symmetry. apply in_rev. Qed.

Lemma strip_by_elem (p : ascii → bool) (s : str) (c : ascii) :
  c ∈ strip_by p s → c ∈ s.
Proof.
  unfold strip_by. rewrite elem_of_rev. intros H.
  apply lstrip_by_elem in H. rewrite elem_of_rev in H.
  by apply lstrip_by_elem in H.
Qed.

Lemma head_rev {A} (l : list A) : head (rev l) = last l.
Proof.
  induction l as [|x l IH] using rev_ind; [done|].
  by rewrite rev_app_distr, last_snoc.
Qed.

Lemma last_rev {A} (l : list A) : last (rev l) = head l.
Proof. by rewrite <- head_rev, rev_involutive. Qed.

Lemma strip_by_head (p : ascii → bool) (s : str) (c : ascii) :
  head (strip_by p s) = Some c → p c = false.
Proof.
  unfold strip_by. rewrite head_rev. intros H.
  assert (lstrip_by p (rev (lstrip_by p s)) ≠ []) as Hne
    by (intros E; by rewrite E in H).
  rewrite lstrip_by_last, last_rev in H by done.
  destruct (lstrip_by p s) as [|x r] eqn:E; [done|].
  injection H as ->. by eapply lstrip_by_head.
Qed.

Lemma strip_by_last (p : ascii → bool) (s : str) (c : ascii) :
  last (strip_by p s) = Some c → p c = false.
Proof.
  unfold strip_by. rewrite last_rev. intros H.
  destruct (lstrip_by p (rev (lstrip_by p s))) as [|x r] eqn:E; [done|].
  injection H as ->. by eapply lstrip_by_head.
Qed.

Lemma in_hyphen (c : ascii) :
  existsb (ascii_eqb c) (py "-") = false ↔ c ≠ hyphen.
Proof.
  simpl. rewrite orb_false_r. unfold ascii_eqb, hyphen.
  rewrite bool_decide_eq_false. done.
Qed.

(** *** [replace] and the loop *)


Lemma startswith_dd (s : str) :
  startswith two_hyphens s = true ↔ ∃ r, s = hyphen :: hyphen :: r.
Proof.
  unfold two_hyphens. simpl. split.
  - destruct s as [|a [|b r]]; simpl; rewrite ?andb_false_r; try done.
    rewrite andb_true_r, andb_true_iff. unfold ascii_eqb.
    rewrite !bool_decide_eq_true. intros [<- <-]. by eexists.
  - intros [r ->]. done.
Qed.

(** A round that finds ["--"] shortens the string. *)
Lemma replace_go_length (s : str) (k : nat) :
  (length (replace_go two_hyphens one_hyphen s k) ≤ length s - k)%nat
  ∨ (length s < k)%nat ∧ replace_go two_hyphens one_hyphen s k = [].
Proof.
  revert k. induction s as [|c s IH]; intros k.
  - simpl. destruct k; [left; lia|right; split; [lia|done]].
  - cbn [replace_go]. destruct k as [|k].
    + left. destruct (startswith two_hyphens (c :: s)) eqn:E.
      * apply startswith_dd in E as [r [= -> ->]].
        destruct (IH 1%nat) as [H|[H _]]; simpl in *; lia.
      * destruct (IH 0%nat) as [H|[H _]]; simpl in *; lia.
    + destruct (IH k) as [H|[H ->]]; [left; simpl; lia|right].
      split; [simpl; lia|done].
Qed.

Lemma replace_shorter (s : str) :
  contains two_hyphens s = true → (length (replace two_hyphens one_hyphen s) < length s)%nat.
Proof.
  unfold contains, replace.
  induction s as [|c s IH]; [done|].
  cbn [find replace_go].
  destruct (startswith two_hyphens (c :: s)) eqn:E.
  - intros _. apply startswith_dd in E as [r [= -> ->]].
    destruct (replace_go_length (hyphen :: r) 1) as [H|[H _]]; simpl in *; lia.
  - destruct (find two_hyphens s); [|done]. intros _. simpl.
    specialize (IH eq_refl). lia.
Qed.

Lemma collapse_loop_done (fuel : nat) (s : str) :
  (length s ≤ fuel)%nat → contains two_hyphens (collapse_loop fuel s) = false.
Proof.
  revert s. induction fuel as [|fuel IH]; intros s Hlen.
  - destruct s; [reflexivity|simpl in Hlen; lia].
  - change (collapse_loop (S fuel) s)
      with (if contains two_hyphens s then collapse_loop fuel (replace two_hyphens one_hyphen s) else s).
    destruct (contains two_hyphens s) eqn:E; [|exact E].
    apply IH. pose proof (replace_shorter s E). lia.
Qed.

Lemma startswith_app_l (sub a b : str) :
  startswith sub a = true → startswith sub (a ++ b) = true.
Proof.
  revert a. induction sub as [|x sub IH]; intros a; [done|].
  destruct a as [|y a]; simpl; [done|].
  rewrite !andb_true_iff. intros [? ?]. split; [done|]. by apply IH.
Qed.

Lemma contains_app_l (sub a b : str) :
  contains sub a = true → contains sub (a ++ b) = true.
Proof.
  unfold contains. induction a as [|c a IH].
  - simpl. destruct (startswith sub []) eqn:E; [|done].
    destruct sub; [|done]. by destruct b.
  - cbn [find app]. destruct (startswith sub (c :: a)) eqn:E.
    + change (c :: a ++ b) with ((c :: a) ++ b).
      by rewrite (startswith_app_l _ _ b E).
    + destruct (find sub a) eqn:F; [|done]. intros _.
      destruct (startswith sub (c :: a ++ b)); [done|].
      specialize (IH eq_refl). by destruct (find sub (a ++ b)).
Qed.

Lemma contains_take (sub s : str) (n : nat) :
  contains sub s = false → contains sub (take n s) = false.
Proof.
  intros H. destruct (contains sub (take n s)) eqn:E; [|done].
  apply (contains_app_l _ _ (drop n s)) in E.
  rewrite take_drop in E. congruence.
Qed.

(** The first character, when it is no separator, stays. *)
Lemma replace_head (s : str) :
  head s ≠ Some hyphen → head (replace two_hyphens one_hyphen s) = head s.
Proof.
  destruct s as [|c s]; [done|]. intros H. unfold replace.
  cbn [replace_go].
  destruct (startswith two_hyphens (c :: s)) eqn:E; [|done].
  apply startswith_dd in E as [r [= -> ->]]. done.
Qed.

Lemma collapse_loop_head (fuel : nat) (s : str) :
  head s ≠ Some hyphen → head (collapse_loop fuel s) = head s.
Proof.
  revert s. induction fuel as [|fuel IH]; intros s H.
  - simpl. by destruct (contains _ s).
  - change (collapse_loop (S fuel) s)
      with (if contains two_hyphens s then collapse_loop fuel (replace two_hyphens one_hyphen s) else s).
    destruct (contains two_hyphens s); [|done].
    rewrite IH; rewrite replace_head; done.
Qed.

(** So does the last one. *)
Lemma replace_go_last (s : str) (k : nat) (x : ascii) :
  k = 0%nat ∨ (k = 1%nat ∧ head s = Some hyphen) →
  last s = Some x → x ≠ hyphen →
  last (replace_go two_hyphens one_hyphen s k) = Some x.
Proof.
  revert k. induction s as [|c s IH]; intros k Hk Hlast Hx; [done|].
  assert (s ≠ [] → last s = Some x) as Hs.
  { intros Hne. destruct s; [done|]. by rewrite last_cons_cons in Hlast. }
  cbn [replace_go]. change (length two_hyphens - 1)%nat with 1%nat.
  destruct Hk as [->|[-> Hhead]].
  - destruct (startswith two_hyphens (c :: s)) eqn:E.
    + apply startswith_dd in E as [r [= -> ->]].
      specialize (IH 1%nat (or_intror (conj eq_refl eq_refl)) (Hs ltac:(done)) Hx).
      change (one_hyphen ++ ?l) with (hyphen :: l).
      rewrite last_cons, IH. done.
    + destruct s as [|y s].
      * simpl in *. done.
      * specialize (IH 0%nat (or_introl eq_refl) (Hs ltac:(done)) Hx).
        rewrite last_cons, IH. done.
  - injection Hhead as ->.
    destruct s as [|y s]; [simpl in Hlast; congruence|].
    apply IH; [by left|by apply Hs|done].
Qed.

Lemma collapse_loop_last (fuel : nat) (s : str) (x : ascii) :
  last s = Some x → x ≠ hyphen → last (collapse_loop fuel s) = Some x.
Proof.
  revert s. induction fuel as [|fuel IH]; intros s H Hx.
  - simpl. by destruct (contains _ s).
  - change (collapse_loop (S fuel) s)
      with (if contains two_hyphens s then collapse_loop fuel (replace two_hyphens one_hyphen s) else s).
    destruct (contains two_hyphens s); [|done].
    apply IH; [|done]. apply replace_go_last; auto.
Qed.


Lemma replace_go_elem (s : str) (k : nat) (x : ascii) :
  x ∈ replace_go two_hyphens one_hyphen s k → x ∈ s ∨ x = hyphen.
Proof.
  revert k. induction s as [|c s IH]; intros k; [by left|].
  cbn [replace_go]. destruct k as [|k].
  - destruct (startswith two_hyphens (c :: s)).
    + change (one_hyphen ++ ?l) with (hyphen :: l).
      intros [->|H]%elem_of_cons; [by right|].
      destruct (IH _ H) as [?|?]; [left; by right|by right].
    + intros [->|H]%elem_of_cons; [left; by left|].
      destruct (IH _ H) as [?|?]; [left; by right|by right].
  - intros H. destruct (IH _ H) as [?|?]; [left; by right|by right].
Qed.

Lemma collapse_loop_elem (fuel : nat) (s : str) (x : ascii) :
  x ∈ collapse_loop fuel s → x ∈ s ∨ x = hyphen.
Proof.
  revert s. induction fuel as [|fuel IH]; intros s.
  - simpl. destruct (contains _ s); by left.
  - change (collapse_loop (S fuel) s)
      with (if contains two_hyphens s then collapse_loop fuel (replace two_hyphens one_hyphen s) else s).
    destruct (contains two_hyphens s); [|by left].
    intros [H|?]%IH; [|by right]. by apply replace_go_elem in H.
Qed.

Lemma lower_not_upper (ch x : ascii) : x ∈ lower ch → isupper x = false.
Proof.
  unfold lower. destruct (isupper ch) eqn:E.
  - intros ->%list_elem_of_singleton. revert E.
    destruct ch as [[] [] [] [] [] [] [] []]; vm_compute; congruence.
  - by intros ->%list_elem_of_singleton.
Qed.

Lemma flat_map_lower_id (s : str) :
  Forall (λ c, isupper c = false) s → flat_map lower s = s.
Proof.
  induction 1 as [|c s Hc _ IH]; [done|].
  simpl. unfold lower at 1. by rewrite Hc, IH.
Qed.

Lemma slug_stripped_head (title : str) : head (slug_stripped title) ≠ Some hyphen.
Proof.
  intros H. apply strip_by_head in H. by apply in_hyphen in H.
Qed.

Lemma slug_stripped_last (title : str) : last (slug_stripped title) ≠ Some hyphen.
Proof.
  intros H. apply strip_by_last in H. by apply in_hyphen in H.
Qed.

Lemma slug_collapsed_last (title : str) :
  last (slug_collapsed title) = last (slug_stripped title).
Proof.
  unfold slug_collapsed.
  destruct (last (slug_stripped title)) as [x|] eqn:E.
  - apply collapse_loop_last; [done|].
    intros ->. by apply (slug_stripped_last title).
  - apply last_None in E. rewrite E. done.
Qed.

Lemma slug_collapsed_nil (title : str) :
  slug_collapsed title = [] ↔ slug_stripped title = [].
Proof.
  rewrite <- (last_None (slug_collapsed title)), <- (last_None (slug_stripped title)).
  by rewrite slug_collapsed_last.
Qed.

Lemma slug_collapsed_not_upper (title : str) :
  Forall (λ c, isupper c = false) (slug_collapsed title).
Proof.
  apply Forall_forall. intros x H.
  apply collapse_loop_elem in H as [H| ->]; [|done].
  apply strip_by_elem, list_elem_of_In, in_flat_map in H as (ch & _ & H).
  apply list_elem_of_In in H.
  destruct (isalnum ch); [by eapply lower_not_upper|].
  by apply list_elem_of_singleton in H as ->.
Qed.

(** X1.  What holds of every slug: at most 90 characters, no two
    separators in a row, no separator in front, nothing upper-case,
    ["article"] for a title without an alphanumeric character; and no
    separator at the end as long as nothing was cut off. *)
Lemma slugify_properties (title : str) :
  (length (slugify title) ≤ 90)%nat
  ∧ contains (py "--") (slugify title) = false
  ∧ head (slugify title) ≠ Some hyphen
  ∧ flat_map lower (slugify title) = slugify title
  ∧ (slug_stripped title = [] → slugify title = py "article")
  ∧ (slug_stripped title ≠ [] → slugify title = take 90 (slug_collapsed title))
  ∧ ((length (slug_collapsed title) ≤ 90)%nat →
     last (slugify title) ≠ Some hyphen).
Proof.
  rewrite slugify_unfold.
  pose proof (slug_collapsed_nil title) as Hnil.
  case_bool_decide as Hc.
  - split_and!; try done.
    + simpl. lia.
    + intros H. by apply Hnil in Hc.
  - split_and!.
    + rewrite length_take. lia.
    + apply contains_take, collapse_loop_done. done.
    + destruct (slug_collapsed title) as [|c s] eqn:E; [done|].
      change (head (take 90 (c :: s))) with (head (c :: s)). rewrite <- E.
      unfold slug_collapsed. rewrite collapse_loop_head;
        apply slug_stripped_head.
    + apply flat_map_lower_id.
      pose proof (slug_collapsed_not_upper title) as H.
      rewrite Forall_forall in H |- *. intros x Hx. apply H.
      rewrite <- (take_drop 90 (slug_collapsed title)). apply elem_of_app. by left.
    + intros H. by apply Hnil in H.
    + done.
    + intros Hlen. rewrite take_ge by done.
      rewrite slug_collapsed_last. apply slug_stripped_last.
Qed.

(** ** The archived-state overwrites *)

Section Cleaned.

Context (default_role : Z) (editors_role : option Z).

(** The loop writes [cleaned_entry] at every key of the map it walks. *)
Lemma archive_channel_cleaned_lookup (overwrites : Overwrites) (k : Target) :
  archive_channel_cleaned default_role editors_role overwrites !! k
  = (λ _, cleaned_entry editors_role k)
      <$> (<[Role default_role := read_only]> overwrites !! k).
Proof.
  unfold archive_channel_cleaned.
  generalize (<[Role default_role := read_only]> overwrites). clear overwrites.
  intros m.
  apply (map_fold_weak_ind
           (λ (r m : Overwrites),
              r !! k = (λ _, cleaned_entry editors_role k) <$> m !! k)).
  - by rewrite !lookup_empty.
  - intros i x m' r Hnone IH.
    destruct (decide (i = k)) as [->|Hne].
    + rewrite lookup_insert_eq. simpl.
      destruct k as [id|id|id]; simpl.
      * by rewrite lookup_insert_eq.
      * case_bool_decide; by rewrite lookup_insert_eq.
      * by rewrite lookup_insert_eq.
    + rewrite (lookup_insert_ne m') by done. rewrite <- IH.
      destruct i as [id|id|id]; simpl.
      * by rewrite lookup_insert_ne.
      * case_bool_decide; by rewrite lookup_insert_ne.
      * by rewrite lookup_insert_ne.
Qed.

(** The sweep's copy of the loop does the same. *)
Lemma sweeper_cleaned_lookup (overwrites : Overwrites) (k : Target) :
  sweeper_cleaned default_role editors_role overwrites !! k
  = (λ _, cleaned_entry editors_role k)
      <$> (<[Role default_role := read_only]> overwrites !! k).
Proof.
  unfold sweeper_cleaned.
  generalize (<[Role default_role := read_only]> overwrites). clear overwrites.
  intros m.
  apply (map_fold_weak_ind
           (λ (r m : Overwrites),
              r !! k = (λ _, cleaned_entry editors_role k) <$> m !! k)).
  - by rewrite !lookup_empty.
  - intros i x m' r Hnone IH.
    destruct (decide (i = k)) as [->|Hne].
    + rewrite (lookup_insert_eq m'). simpl.
      destruct k as [id|id|id]; simpl; try case_bool_decide;
        by rewrite lookup_insert_eq.
    + rewrite (lookup_insert_ne m') by done. rewrite <- IH.
      destruct i as [id|id|id]; simpl; try case_bool_decide;
        by rewrite lookup_insert_ne.
Qed.

Lemma archive_channel_cleaned_dom (overwrites : Overwrites) :
  dom (archive_channel_cleaned default_role editors_role overwrites)
  = {[ Role default_role ]} ∪ dom overwrites.
Proof.
  rewrite <- (dom_insert_L overwrites (Role default_role) read_only).
  apply set_eq. intros k.
  rewrite !elem_of_dom, archive_channel_cleaned_lookup.
  destruct (<[Role default_role := read_only]> overwrites !! k); simpl;
    split; intros [? ?]; eauto; discriminate.
Qed.

Lemma archive_channel_cleaned_idem (overwrites : Overwrites) :
  archive_channel_cleaned default_role editors_role
    (archive_channel_cleaned default_role editors_role overwrites)
  = archive_channel_cleaned default_role editors_role overwrites.
Proof.
  apply map_eq. intros k.
  rewrite (archive_channel_cleaned_lookup (archive_channel_cleaned _ _ _)).
  destruct (decide (k = Role default_role)) as [->|Hne].
  - rewrite lookup_insert_eq, archive_channel_cleaned_lookup,
      lookup_insert_eq. done.
  - rewrite lookup_insert_ne by done.
    rewrite archive_channel_cleaned_lookup.
    by destruct (<[Role default_role := read_only]> overwrites !! k).
Qed.

End Cleaned.

(** What the archive transition writes, for every
    overwrite map, default role and Editors role (present or absent): the
    default role has an entry; the entry of the Editors role, when that role
    exists and has an entry, allows view, send and read-history, also when
    the Editors role is the default role itself; every other role entry, so
    the default role's when it is not the Editors role, and every member
    entry deny send and allow view and read-history; an entry that is neither
    a role's nor a member's denies send and allows view; and every entry that
    was there before is still there, with view allowed, and read-history
    allowed when it is a member's or a role's. *)
Theorem archive_overwrites_spec (default_role : Z) (editors_role : option Z)
    (overwrites : Overwrites) :
  let cleaned := archive_channel_cleaned default_role editors_role overwrites in
  is_Some (cleaned !! Role default_role)
  ∧ (∀ id p, editors_role = Some id → cleaned !! Role id = Some p →
             p = read_write)
  ∧ (∀ id p, editors_role ≠ Some id → cleaned !! Role id = Some p →
             p = read_only)
  ∧ (∀ id p, cleaned !! Member id = Some p → p = read_only)
  ∧ (∀ id p, cleaned !! Object id = Some p →
             view_channel p = Some true ∧ send_messages p = Some false)
  ∧ (∀ k, is_Some (overwrites !! k) →
          ∃ p, cleaned !! k = Some p ∧ view_channel p = Some true
               ∧ match k with
                 | Object _ => True
                 | _ => read_message_history p = Some true
                 end)
  ∧ dom cleaned = {[ Role default_role ]} ∪ dom overwrites.
Proof.
  cbv zeta. split_and!.
  - rewrite archive_channel_cleaned_lookup, lookup_insert_eq. by eexists.
  - intros id p He. rewrite archive_channel_cleaned_lookup.
    destruct (_ !! Role id); [|discriminate]. simpl.
    rewrite bool_decide_eq_true_2 by done. congruence.
  - intros id p He. rewrite archive_channel_cleaned_lookup.
    destruct (_ !! Role id); [|discriminate]. simpl.
    rewrite bool_decide_eq_false_2 by done. congruence.
  - intros id p. rewrite archive_channel_cleaned_lookup.
    destruct (_ !! Member id); [|discriminate]. simpl. congruence.
  - intros id p. rewrite archive_channel_cleaned_lookup.
    destruct (_ !! Object id); [|discriminate]. simpl. by intros [= <-].
  - intros k [p0 Hk]. rewrite archive_channel_cleaned_lookup.
    assert (is_Some (<[Role default_role := read_only]> overwrites !! k))
      as [p1 ->].
    { destruct (decide (k = Role default_role)) as [->|Hne].
      - rewrite lookup_insert_eq. by eexists.
      - rewrite lookup_insert_ne by done. by eexists. }
    simpl. eexists. split; [done|].
    destruct k as [id|id|id]; simpl; [done| |done].
    by case_bool_decide.
  - apply archive_channel_cleaned_dom.
Qed.

(** As long as the Editors role is not the default role, the archive
    transition does what its comments say: the default role, every member
    and every role but the Editors role are denied send, the Editors role
    is allowed it, and every entry that was there is still there with view
    allowed, and read-history allowed when it is a member's or a role's. *)
Lemma archive_overwrites_distinct (default_role : Z) (editors_role : option Z)
    (overwrites : Overwrites) :
  editors_role ≠ Some default_role →
  let cleaned := archive_channel_cleaned default_role editors_role overwrites in
  (∃ p, cleaned !! Role default_role = Some p ∧ send_messages p = Some false)
  ∧ (∀ id p, cleaned !! Member id = Some p → send_messages p = Some false)
  ∧ (∀ id p, editors_role ≠ Some id → cleaned !! Role id = Some p →
             send_messages p = Some false)
  ∧ (∀ id p, editors_role = Some id → cleaned !! Role id = Some p →
             send_messages p = Some true)
  ∧ (∀ k, is_Some (overwrites !! k) →
          ∃ p, cleaned !! k = Some p ∧ view_channel p = Some true
               ∧ match k with
                 | Object _ => True
                 | _ => read_message_history p = Some true
                 end).
Proof.
  intros Hne. cbv zeta.
  assert (∀ k, archive_channel_cleaned default_role editors_role overwrites !! k
               = (λ _, cleaned_entry editors_role k)
                   <$> (<[Role default_role := read_only]> overwrites !! k))
    as Hlook by (intros k; apply archive_channel_cleaned_lookup).
  split_and!.
  - exists read_only. split; [|done].
    rewrite Hlook, lookup_insert_eq. simpl.
    by rewrite bool_decide_eq_false_2.
  - intros id p. rewrite Hlook.
    destruct (_ !! Member id); [|discriminate]. simpl. by intros [= <-].
  - intros id p He. rewrite Hlook.
    destruct (_ !! Role id); [|discriminate]. simpl.
    rewrite bool_decide_eq_false_2 by done. by intros [= <-].
  - intros id p He. rewrite Hlook.
    destruct (_ !! Role id); [|discriminate]. simpl.
    rewrite bool_decide_eq_true_2 by done. by intros [= <-].
  - intros k [p0 Hk]. rewrite Hlook.
    assert (is_Some (<[Role default_role := read_only]> overwrites !! k))
      as [p1 ->].
    { destruct (decide (k = Role default_role)) as [->|Hk'].
      - rewrite lookup_insert_eq. by eexists.
      - rewrite lookup_insert_ne by done. by eexists. }
    simpl. eexists. split; [done|].
    destruct k as [id|id|id]; simpl; [done| |done].
    by case_bool_decide.
Qed.


(** C4.  The archive transition is idempotent: for every overwrite map,
    default role and Editors role (present or absent), computing the
    archived-state overwrites from their own result gives that result again,
    and archiving an archived channel leaves category and overwrites as they
    are. *)
Theorem archived_idempotent (archived_cat default_role : Z)
    (editors_role : option Z) :
  (∀ overwrites : Overwrites,
     archive_channel_cleaned default_role editors_role
       (archive_channel_cleaned default_role editors_role overwrites)
     = archive_channel_cleaned default_role editors_role overwrites)
  ∧ (∀ c : Channel,
       archived archived_cat default_role editors_role
         (archived archived_cat default_role editors_role c)
       = archived archived_cat default_role editors_role c)
  ∧ (∀ c : Channel,
       ch_category (archived archived_cat default_role editors_role c)
       = Some archived_cat).
Proof.
  split_and!.
  - apply archive_channel_cleaned_idem.
  - intros c. unfold archived, set_overwrites, set_category. simpl.
    by rewrite archive_channel_cleaned_idem.
  - done.
Qed.

(** C10.  The sweep and the [archive] command compute the same
    archived-state overwrites: for every overwrite map, default role and
    Editors role (present or absent) the two copies of the loop agree. *)
Theorem sweeper_cleaned_eq (default_role : Z) (editors_role : option Z)
    (overwrites : Overwrites) :
  sweeper_cleaned default_role editors_role overwrites
  = archive_channel_cleaned default_role editors_role overwrites.
Proof.
  apply map_eq. intros k.
  etransitivity; [apply sweeper_cleaned_lookup|].
  symmetry. apply archive_channel_cleaned_lookup.
Qed.

(** ** Strings *)

Lemma ascii_eqb_eq (a b : ascii) : ascii_eqb a b = true ↔ a = b.
Proof. unfold ascii_eqb. apply bool_decide_eq_true. Qed.

Lemma ascii_eqb_refl (a : ascii) : ascii_eqb a a = true.
Proof. by apply ascii_eqb_eq. Qed.

Lemma ascii_eqb_ne (a b : ascii) : a ≠ b → ascii_eqb a b = false.
Proof. unfold ascii_eqb. apply bool_decide_eq_false_2. Qed.

Lemma startswith_app (sub s : str) : startswith sub (sub ++ s) = true.
Proof.
  induction sub as [|c sub IH]; simpl; [done|].
  by rewrite ascii_eqb_refl, IH.
Qed.

Lemma startswith_nil_r (sub : str) : sub ≠ [] → startswith sub [] = false.
Proof. by destruct sub. Qed.

(** An occurrence cannot run over a character the pattern does not have. *)
Lemma startswith_cut (sub a r : str) (c : ascii) :
  c ∉ sub → startswith sub (a ++ c :: r) = true → startswith sub a = true.
Proof.
  revert a. induction sub as [|x sub IH]; intros a Hc H; [done|].
  destruct a as [|y a]; simpl in *.
  - apply andb_true_iff in H as [H _]. apply ascii_eqb_eq in H. subst.
    exfalso. apply Hc. left.
  - apply andb_true_iff in H as [H1 H2]. rewrite H1. simpl.
    apply IH; [|done]. intros ?. apply Hc. by right.
Qed.

Lemma find_app_here (sub s : str) : find sub (sub ++ s) = Some 0%nat.
Proof. destruct sub; simpl; [by destruct s|]. by rewrite ascii_eqb_refl, startswith_app. Qed.

Lemma find_cons (sub s : str) (c : ascii) :
  startswith sub (c :: s) = false → find sub (c :: s) = S <$> find sub s.
Proof. intros H. simpl find. simpl in H. by rewrite H. Qed.

Lemma find_cons_ne (x c : ascii) (sub s : str) :
  x ≠ c → find (x :: sub) (c :: s) = S <$> find (x :: sub) s.
Proof.
  intros H. apply find_cons. simpl. by rewrite ascii_eqb_ne.
Qed.

Lemma find_None_inv (sub s : str) (c : ascii) :
  find sub (c :: s) = None → startswith sub (c :: s) = false ∧ find sub s = None.
Proof.
  simpl find. destruct sub as [|x sub]; [done|]. simpl.
  destruct (ascii_eqb x c && startswith sub s); [done|].
  destruct (find (x :: sub) s); [done|]. done.
Qed.

(** With no occurrence in [a] and none able to run over [c], the first
    occurrence in [a ++ c :: r] is the first one in [r]. *)
Lemma find_past (sub a r : str) (c : ascii) :
  c ∉ sub → find sub a = None →
  find sub (a ++ c :: r) = (λ i, length a + 1 + i)%nat <$> find sub r.
Proof.
  intros Hc. induction a as [|y a IH]; intros Hnone.
  - simpl app. destruct sub as [|x sub]; [done|].
    rewrite find_cons_ne.
    + by destruct (find (x :: sub) r).
    + intros ->. apply Hc. left.
  - apply find_None_inv in Hnone as [Hs Hn].
    change ((y :: a) ++ c :: r) with (y :: (a ++ c :: r)).
    rewrite find_cons.
    + rewrite IH by done. by destruct (find sub r).
    + destruct (startswith sub (y :: a ++ c :: r)) eqn:E; [|done].
      apply (startswith_cut sub (y :: a) r c Hc) in E. congruence.
Qed.

Lemma find_single_None (c : ascii) (s : str) :
  c ∉ s → find [c] s = None.
Proof.
  induction s as [|x s IH]; intros H; [done|].
  rewrite find_cons_ne.
  - rewrite IH; [done|]. intros ?. apply H. by right.
  - intros ->. apply H. left.
Qed.

Lemma find_single_first (c : ascii) (a r : str) :
  c ∉ a → find [c] (a ++ c :: r) = Some (length a).
Proof.
  induction a as [|x a IH]; intros H.
  - simpl. by rewrite ascii_eqb_refl.
  - change ((x :: a) ++ c :: r) with (x :: (a ++ c :: r)).
    rewrite find_cons_ne.
    + rewrite IH; [done|]. intros ?. apply H. by right.
    + intros ->. apply H. left.
Qed.

Lemma contains_false (sub s : str) : contains sub s = false ↔ find sub s = None.
Proof. unfold contains. by destruct (find sub s). Qed.

Lemma contains_true (sub s : str) : contains sub s = true ↔ is_Some (find sub s).
Proof. unfold contains. destruct (find sub s); split; try done; by intros []. Qed.

(** ** Digits *)

Lemma digit_char_cases (d : Z) :
  0 ≤ d ≤ 9 →
  d = 0 ∨ d = 1 ∨ d = 2 ∨ d = 3 ∨ d = 4 ∨ d = 5 ∨ d = 6 ∨ d = 7 ∨ d = 8 ∨ d = 9.
Proof. lia. Qed.

Lemma isdecimal_digit_char (d : Z) : 0 ≤ d ≤ 9 → isdecimal (digit_char d) = true.
Proof.
  intros H. destruct (digit_char_cases d H) as [->|[->|[->|[->|[->|[->|[->|[->|[->| ->]]]]]]]]];
    reflexivity.
Qed.

Lemma digit_value_digit_char (d : Z) : 0 ≤ d ≤ 9 → digit_value (digit_char d) = d.
Proof.
  intros H. destruct (digit_char_cases d H) as [->|[->|[->|[->|[->|[->|[->|[->|[->| ->]]]]]]]]];
    reflexivity.
Qed.

Lemma pow10_succ (n : nat) : 10 ^ Z.of_nat (S n) = 10 * 10 ^ Z.of_nat n.
Proof. rewrite Nat2Z.inj_succ, Z.pow_succ_r by lia. done. Qed.

Lemma pow10_pos (n : nat) : 0 < 10 ^ Z.of_nat n.
Proof. apply Z.pow_pos_nonneg; lia. Qed.

Lemma leading_digit (n : nat) (k : Z) :
  0 ≤ k < 10 ^ Z.of_nat (S n) → 0 ≤ k / 10 ^ Z.of_nat n ≤ 9.
Proof.
  intros H. rewrite pow10_succ in H. pose proof (pow10_pos n) as Hp.
  split.
  - apply Z.div_pos; lia.
  - assert (k / 10 ^ Z.of_nat n < 10); [|lia].
    apply Z.div_lt_upper_bound; lia.
Qed.

Lemma length_zfill (n : nat) (k : Z) : length (zfill n k) = n.
Proof. revert k. induction n as [|n IH]; intros k; simpl; [done|]. by rewrite IH. Qed.

Lemma zfill_decimal (n : nat) (k : Z) :
  0 ≤ k < 10 ^ Z.of_nat n → Forall (λ c, isdecimal c = true) (zfill n k).
Proof.
  revert k. induction n as [|n IH]; intros k H; [constructor|].
  pose proof (pow10_pos n) as Hp.
  cbn [zfill]. constructor.
  - apply isdecimal_digit_char. by apply leading_digit.
  - apply IH. apply Z.mod_pos_bound. lia.
Qed.

Lemma read_digits_zfill_acc (n : nat) (k acc : Z) (rest : str) :
  0 ≤ k < 10 ^ Z.of_nat n →
  read_digits n (zfill n k ++ rest) acc = Some (acc * 10 ^ Z.of_nat n + k, rest).
Proof.
  revert k acc. induction n as [|n IH]; intros k acc H.
  - simpl in *. do 2 f_equal. lia.
  - pose proof (pow10_pos n) as Hp.
    pose proof (leading_digit n k H) as Hd.
    cbn [zfill read_digits app].
    rewrite isdecimal_digit_char, digit_value_digit_char by done.
    rewrite IH by (apply Z.mod_pos_bound; lia).
    do 2 f_equal. rewrite pow10_succ.
    pose proof (Z.div_mod k (10 ^ Z.of_nat n)). lia.
Qed.

Lemma read_digits_zfill (n : nat) (k : Z) (rest : str) :
  0 ≤ k < 10 ^ Z.of_nat n →
  read_digits n (zfill n k ++ rest) 0 = Some (k, rest).
Proof. intros H. rewrite read_digits_zfill_acc by done. do 2 f_equal. Qed.

Lemma read_digits_zfill_end (n : nat) (k : Z) :
  0 ≤ k < 10 ^ Z.of_nat n →
  read_digits n (zfill n k) 0 = Some (k, []).
Proof.
  intros H. rewrite <- (app_nil_r (zfill n k)) at 1. by apply read_digits_zfill.
Qed.

Lemma expect_cons (c : ascii) (s : str) : expect c (c :: s) = Some s.
Proof. unfold expect. by rewrite ascii_eqb_refl. Qed.

(** ** [fromisoformat] undoes [isoformat] *)

Lemma days_in_month_le (y m : Z) : 28 ≤ days_in_month y m ≤ 31.
Proof.
  unfold days_in_month.
  repeat match goal with |- context [if ?b then _ else _] => destruct b end; lia.
Qed.

Lemma valid_datetime_inv (dt : datetime) :
  valid_datetime dt = true →
  (1 ≤ year dt ≤ 9999 ∧ 1 ≤ month dt ≤ 12 ∧ 1 ≤ day dt ≤ 31)
  ∧ (0 ≤ hour dt ≤ 23 ∧ 0 ≤ minute dt ≤ 59 ∧ 0 ≤ second dt ≤ 59
     ∧ 0 ≤ microsecond dt ≤ 999999)
  ∧ match tzinfo dt with
    | Some off => - usec_per_day < off < usec_per_day
    | None => True
    end.
Proof.
  unfold valid_datetime, check_date_fields, check_time_fields, check_tzinfo.
  pose proof (days_in_month_le (year dt) (month dt)).
  rewrite !andb_true_iff, !Z.leb_le.
  intros [[[[[[[? ?] ?] ?] ?] ?] [[[[[[[? ?] ?] ?] ?] ?] ?] ?]] Htz].
  repeat split; try lia.
  destruct (tzinfo dt); [|done].
  apply andb_true_iff in Htz as [? ?]. lia.
Qed.

Lemma parse_isoformat_date_zfill (y m d : Z) (rest : str) :
  0 ≤ y < 10000 → 0 ≤ m < 100 → 0 ≤ d < 100 →
  parse_isoformat_date
    (zfill 4 y ++ "-"%char :: zfill 2 m ++ "-"%char :: zfill 2 d ++ rest)
  = Some (y, m, d, rest).
Proof.
  intros Hy Hm Hd. unfold parse_isoformat_date.
  rewrite read_digits_zfill by (simpl; lia). cbn [mbind option_bind].
  rewrite expect_cons. cbn [mbind option_bind].
  rewrite read_digits_zfill by (simpl; lia). cbn [mbind option_bind].
  rewrite expect_cons. cbn [mbind option_bind].
  rewrite read_digits_zfill by (simpl; lia). done.
Qed.


Lemma time_char_not (c : ascii) (s : str) :
  isdecimal c = false → c ≠ ":"%char → c ≠ "."%char →
  Forall time_char s → c ∉ s.
Proof.
  intros Hd Hc Hp Hs Hin. rewrite Forall_forall in Hs.
  destruct (Hs c Hin) as [?|[?|?]]; congruence.
Qed.

Lemma zfill_time_char (n : nat) (k : Z) :
  0 ≤ k < 10 ^ Z.of_nat n → Forall time_char (zfill n k).
Proof.
  intros H. eapply Forall_impl; [by apply zfill_decimal|].
  intros c Hc. by left.
Qed.



Lemma parse_fraction_zfill (us : Z) :
  0 ≤ us < 1000000 → parse_fraction (zfill 6 us) = Some us.
Proof.
  intros H. unfold parse_fraction. rewrite length_zfill.
  rewrite bool_decide_eq_false_2 by done.
  rewrite bool_decide_eq_true_2 by done.
  rewrite read_digits_zfill_end by (simpl; lia). done.
Qed.

Lemma parse_seconds_tail (h mi s us : Z) :
  0 ≤ s < 100 → 0 ≤ us < 1000000 →
  ('(sec, r) ← read_digits 2
       (zfill 2 s ++ (if us =? 0 then [] else "."%char :: zfill 6 us)) 0;
   match r with
   | [] => Some (h, mi, sec, 0)
   | _ => r ← expect "." r; f ← parse_fraction r; Some (h, mi, sec, f)
   end) = Some (h, mi, s, us).
Proof.
  intros Hs Hus.
  rewrite read_digits_zfill by (simpl; lia). cbn [mbind option_bind].
  destruct (us =? 0) eqn:E.
  - apply Z.eqb_eq in E. by subst.
  - rewrite expect_cons. cbn [mbind option_bind].
    rewrite parse_fraction_zfill by done. done.
Qed.

Lemma parse_hhmmss (h mi s us : Z) :
  0 ≤ h < 100 → 0 ≤ mi < 100 → 0 ≤ s < 100 → 0 ≤ us < 1000000 →
  parse_hh_mm_ss_ff (hhmmss h mi s us) = Some (h, mi, s, us).
Proof.
  intros Hh Hmi Hs Hus. unfold parse_hh_mm_ss_ff, hhmmss.
  rewrite read_digits_zfill by (simpl; lia). cbn [mbind option_bind].
  rewrite expect_cons. cbn [mbind option_bind].
  rewrite read_digits_zfill by (simpl; lia). cbn [mbind option_bind].
  rewrite expect_cons. cbn [mbind option_bind].
  by apply parse_seconds_tail.
Qed.

Lemma parse_hhmm_ss (h mi s us : Z) :
  0 ≤ h < 100 → 0 ≤ mi < 100 → 0 ≤ s < 100 → 0 ≤ us < 1000000 →
  parse_hh_mm_ss_ff (hhmm_ss h mi s us) = Some (h, mi, s, us).
Proof.
  intros Hh Hmi Hs Hus. unfold parse_hh_mm_ss_ff, hhmm_ss.
  rewrite read_digits_zfill by (simpl; lia). cbn [mbind option_bind].
  rewrite expect_cons. cbn [mbind option_bind].
  destruct ((s =? 0) && (us =? 0)) eqn:E.
  - apply andb_true_iff in E as [E1 E2].
    apply Z.eqb_eq in E1, E2. subst.
    rewrite read_digits_zfill by (simpl; lia). done.
  - rewrite read_digits_zfill by (simpl; lia). cbn [mbind option_bind].
    rewrite expect_cons. cbn [mbind option_bind].
    by apply parse_seconds_tail.
Qed.

Lemma time_char_sep (c : ascii) : c = ":"%char ∨ c = "."%char → time_char c.
Proof. unfold time_char. tauto. Qed.

Ltac time_chars :=
  repeat first
    [ apply Forall_nil_2
    | apply Forall_app; split
    | apply Forall_cons; split; [apply time_char_sep; by auto|]
    | apply zfill_time_char; simpl; lia ].

Lemma hhmmss_time_char (h mi s us : Z) :
  0 ≤ h < 100 → 0 ≤ mi < 100 → 0 ≤ s < 100 → 0 ≤ us < 1000000 →
  Forall time_char (hhmmss h mi s us).
Proof.
  intros. unfold hhmmss. time_chars.
  destruct (us =? 0); time_chars.
Qed.

Lemma hhmm_ss_time_char (h mi s us : Z) :
  0 ≤ h < 100 → 0 ≤ mi < 100 → 0 ≤ s < 100 → 0 ≤ us < 1000000 →
  Forall time_char (hhmm_ss h mi s us).
Proof.
  intros. unfold hhmm_ss. time_chars.
  destruct ((s =? 0) && (us =? 0)); time_chars.
  destruct (us =? 0); time_chars.
Qed.

Lemma length_hhmm_ss (h mi s us : Z) :
  length (hhmm_ss h mi s us) = 5%nat ∨ length (hhmm_ss h mi s us) = 8%nat
  ∨ length (hhmm_ss h mi s us) = 15%nat.
Proof.
  unfold hhmm_ss.
  destruct ((s =? 0) && (us =? 0)); [|destruct (us =? 0)];
    repeat (rewrite ?length_app, ?length_cons, ?length_zfill; simpl); auto.
Qed.

Lemma parse_tz_hhmm_ss (negative : bool) (h mi s us : Z) :
  0 ≤ h < 100 → 0 ≤ mi < 100 → 0 ≤ s < 100 → 0 ≤ us < 1000000 →
  parse_tz negative (hhmm_ss h mi s us)
  = Some (let td := h * usec_per_hour + mi * usec_per_minute
                    + s * usec_per_second + us in
          if negative then - td else td).
Proof.
  intros. unfold parse_tz.
  rewrite parse_hhmm_ss by done.
  destruct (length_hhmm_ss h mi s us) as [->|[->| ->]]; done.
Qed.

(** The offset's fields give the offset back. *)
Lemma offset_fields (a : Z) :
  0 ≤ a < usec_per_day →
  let hh := a / usec_per_hour in
  let mm := (a mod usec_per_hour) / usec_per_minute in
  let ss := (a mod usec_per_minute) / usec_per_second in
  let us := a mod usec_per_second in
  (0 ≤ hh < 100 ∧ 0 ≤ mm < 100 ∧ 0 ≤ ss < 100 ∧ 0 ≤ us < 1000000)
  ∧ hh * usec_per_hour + mm * usec_per_minute + ss * usec_per_second + us = a.
Proof.
  unfold usec_per_day, usec_per_hour, usec_per_minute, usec_per_second.
  intros H. cbv zeta.
  pose proof (Z.div_mod a 3600000000 ltac:(lia)).
  pose proof (Z.mod_pos_bound a 3600000000 ltac:(lia)).
  pose proof (Z.div_mod (a mod 3600000000) 60000000 ltac:(lia)).
  pose proof (Z.mod_pos_bound (a mod 3600000000) 60000000 ltac:(lia)).
  pose proof (Z.div_mod a 60000000 ltac:(lia)).
  pose proof (Z.mod_pos_bound a 60000000 ltac:(lia)).
  pose proof (Z.div_mod (a mod 60000000) 1000000 ltac:(lia)).
  pose proof (Z.mod_pos_bound (a mod 60000000) 1000000 ltac:(lia)).
  pose proof (Z.div_mod a 1000000 ltac:(lia)).
  pose proof (Z.mod_pos_bound a 1000000 ltac:(lia)).
  assert (a mod 3600000000 mod 60000000 = a mod 60000000) as E1.
  { replace 3600000000 with (60000000 * 60) by lia.
    rewrite Z.rem_mul_r by lia.
    rewrite Z.mul_comm, Z.mod_add by lia. apply Z.mod_mod. lia. }
  assert (a mod 60000000 mod 1000000 = a mod 1000000) as E2.
  { replace 60000000 with (1000000 * 60) by lia.
    rewrite Z.rem_mul_r by lia.
    rewrite Z.mul_comm, Z.mod_add by lia. apply Z.mod_mod. lia. }
  assert (0 ≤ a / 3600000000 < 24).
  { split; [apply Z.div_pos; lia|apply Z.div_lt_upper_bound; lia]. }
  assert (0 ≤ a mod 3600000000 / 60000000 < 60).
  { split; [apply Z.div_pos; lia|apply Z.div_lt_upper_bound; lia]. }
  assert (0 ≤ a mod 60000000 / 1000000 < 60).
  { split; [apply Z.div_pos; lia|apply Z.div_lt_upper_bound; lia]. }
  split; [lia|]. lia.
Qed.

Lemma format_time_hhmmss (dt : datetime) :
  format_time dt = hhmmss (hour dt) (minute dt) (second dt) (microsecond dt).
Proof. done. Qed.

Lemma format_offset_Some (off : Z) :
  format_offset (Some off)
  = (if off <? 0 then "-"%char else "+"%char)
      :: hhmm_ss (Z.abs off / usec_per_hour)
                 ((Z.abs off mod usec_per_hour) / usec_per_minute)
                 ((Z.abs off mod usec_per_minute) / usec_per_second)
                 (Z.abs off mod usec_per_second).
Proof. done. Qed.

Lemma parse_isoformat_time_naive (h mi s us : Z) :
  0 ≤ h < 100 → 0 ≤ mi < 100 → 0 ≤ s < 100 → 0 ≤ us < 1000000 →
  parse_isoformat_time (hhmmss h mi s us) = Some (h, mi, s, us, None).
Proof.
  intros Hh Hmi Hs Hus. unfold parse_isoformat_time.
  pose proof (hhmmss_time_char h mi s us Hh Hmi Hs Hus) as Hc.
  change (py "-") with ["-"%char]. change (py "+") with ["+"%char].
  rewrite !find_single_None by (by apply time_char_not).
  rewrite parse_hhmmss by done. done.
Qed.

Lemma parse_isoformat_time_aware (h mi s us off : Z) :
  0 ≤ h < 100 → 0 ≤ mi < 100 → 0 ≤ s < 100 → 0 ≤ us < 1000000 →
  - usec_per_day < off < usec_per_day →
  parse_isoformat_time (hhmmss h mi s us ++ format_offset (Some off))
  = Some (h, mi, s, us, Some off).
Proof.
  intros Hh Hmi Hs Hus Hoff. unfold parse_isoformat_time.
  pose proof (hhmmss_time_char h mi s us Hh Hmi Hs Hus) as Hc.
  destruct (offset_fields (Z.abs off) ltac:(lia)) as [(Hhh & Hmm & Hss & Huu) Hsum].
  cbv zeta in *.
  pose proof (hhmm_ss_time_char _ _ _ _ Hhh Hmm Hss Huu) as Hz.
  rewrite format_offset_Some.
  change (py "-") with ["-"%char]. change (py "+") with ["+"%char].
  destruct (off <? 0) eqn:E.
  - apply Z.ltb_lt in E.
    rewrite find_single_first by (by apply time_char_not).
    rewrite take_app_length, parse_hhmmss by done. cbn [mbind option_bind].
    replace (drop (S (length (hhmmss h mi s us))) (hhmmss h mi s us ++ "-"%char :: _))
      with (hhmm_ss (Z.abs off / usec_per_hour)
              (Z.abs off mod usec_per_hour / usec_per_minute)
              (Z.abs off mod usec_per_minute / usec_per_second)
              (Z.abs off mod usec_per_second)).
    2:{ rewrite (cons_middle "-"%char), app_assoc.
        rewrite drop_app_length'; [done|]. rewrite length_app. simpl. lia. }
    rewrite parse_tz_hhmm_ss by done. cbn [mbind option_bind].
    cbv zeta. rewrite Hsum. do 3 f_equal. lia.
  - apply Z.ltb_ge in E.
    rewrite find_single_None.
    2:{ intros Hin. apply elem_of_app in Hin as [Hin|Hin].
        - revert Hin. by apply time_char_not.
        - apply elem_of_cons in Hin as [?|Hin]; [done|].
          revert Hin. by apply time_char_not. }
    rewrite find_single_first by (by apply time_char_not).
    rewrite take_app_length, parse_hhmmss by done. cbn [mbind option_bind].
    replace (drop (S (length (hhmmss h mi s us))) (hhmmss h mi s us ++ "+"%char :: _))
      with (hhmm_ss (Z.abs off / usec_per_hour)
              (Z.abs off mod usec_per_hour / usec_per_minute)
              (Z.abs off mod usec_per_minute / usec_per_second)
              (Z.abs off mod usec_per_second)).
    2:{ rewrite (cons_middle "+"%char), app_assoc.
        rewrite drop_app_length'; [done|]. rewrite length_app. simpl. lia. }
    rewrite parse_tz_hhmm_ss by done. cbn [mbind option_bind].
    cbv zeta. rewrite Hsum. do 3 f_equal. lia.
Qed.

(** [datetime.fromisoformat] is the inverse of [datetime.isoformat]. *)
Lemma fromisoformat_isoformat (dt : datetime) :
  valid_datetime dt = true → fromisoformat (isoformat dt) = Ok dt.
Proof.
  intros Hv.
  destruct (valid_datetime_inv dt Hv) as ((Hy & Hm & Hd) & (Hh & Hmi & Hs & Hus) & Htz).
  unfold fromisoformat, isoformat.
  rewrite parse_isoformat_date_zfill by lia.
  rewrite format_time_hhmmss.
  assert (parse_isoformat_time
            (hhmmss (hour dt) (minute dt) (second dt) (microsecond dt)
               ++ format_offset (tzinfo dt))
          = Some (hour dt, minute dt, second dt, microsecond dt, tzinfo dt)) as ->.
  { destruct (tzinfo dt) as [off|].
    - apply parse_isoformat_time_aware; lia.
    - simpl format_offset. rewrite app_nil_r.
      apply parse_isoformat_time_naive; lia. }
  unfold datetime_new.
  destruct dt. simpl in *. by rewrite Hv.
Qed.

(** ** The deadline in the topic *)

(** A character does not occur in a string literal. *)
Ltac not_in_literal :=
  let H := fresh in
  vm_compute; intros H;
  repeat (apply elem_of_cons in H as [H|H]; [discriminate H|]);
  by apply elem_of_nil in H.


Lemma find_skip_prefix (x : ascii) (sub a s : str) :
  x ∉ a → find (x :: sub) (a ++ s) = (λ i, length a + i)%nat <$> find (x :: sub) s.
Proof.
  induction a as [|c a IH]; intros H.
  - simpl app. by destruct (find (x :: sub) s).
  - change ((c :: a) ++ s) with (c :: (a ++ s)).
    rewrite find_cons_ne by (intros ->; apply H; left).
    rewrite IH by (intros ?; apply H; by right).
    by destruct (find (x :: sub) s).
Qed.


Lemma article_topic_split (title : str) (dt : datetime) :
  article_topic title dt
  = topic_head title ++ DEADLINE_TAG ++ isoformat dt ++ py "]".
Proof. unfold article_topic, topic_head. by rewrite <- !app_assoc. Qed.

(** The first tag of the topic is the one [new_article] wrote, when the
    title followed by the blank of the separator holds none. *)
Lemma find_tag_article_topic (title rest : str) :
  contains DEADLINE_TAG (title ++ py " ") = false →
  find DEADLINE_TAG (topic_head title ++ DEADLINE_TAG ++ rest)
  = Some (length (topic_head title)).
Proof.
  intros H. apply contains_false in H.
  unfold topic_head.
  replace ((py "Article: " ++ title ++ py " | ") ++ DEADLINE_TAG ++ rest)
    with (py "Article: " ++ (title ++ py " ") ++ "|"%char
            :: (" "%char :: DEADLINE_TAG ++ rest)).
  2:{ rewrite <- !app_assoc. done. }
  change DEADLINE_TAG with ("["%char :: py "deadline: ") at 1.
  rewrite find_skip_prefix by not_in_literal.
  change ("["%char :: py "deadline: ") with DEADLINE_TAG.
  rewrite find_past; [|not_in_literal|done].
  change DEADLINE_TAG with ("["%char :: py "deadline: ") at 1.
  rewrite find_cons_ne by done.
  change ("["%char :: py "deadline: ") with DEADLINE_TAG.
  rewrite find_app_here. simpl.
  f_equal. rewrite !length_app. simpl. lia.
Qed.

Lemma isoformat_no_bracket (dt : datetime) :
  valid_datetime dt = true → "]"%char ∉ isoformat dt.
Proof.
  intros Hv.
  destruct (valid_datetime_inv dt Hv) as ((Hy & Hm & Hd) & (Hh & Hmi & Hs & Hus) & Htz).
  assert (∀ s, Forall time_char s → "]"%char ∉ s) as Hno
    by (intros s; by apply time_char_not).
  assert (∀ n k, 0 ≤ k < 10 ^ Z.of_nat n → "]"%char ∉ zfill n k) as Hz
    by (intros n k Hk; by apply Hno, zfill_time_char).
  unfold isoformat. rewrite format_time_hhmmss. intros H.
  apply elem_of_app in H as [H|H]; [by apply Hz in H; simpl; lia|].
  apply elem_of_cons in H as [H|H]; [discriminate H|].
  apply elem_of_app in H as [H|H]; [by apply Hz in H; simpl; lia|].
  apply elem_of_cons in H as [H|H]; [discriminate H|].
  apply elem_of_app in H as [H|H]; [by apply Hz in H; simpl; lia|].
  apply elem_of_cons in H as [H|H]; [discriminate H|].
  apply elem_of_app in H as [H|H].
  - revert H. apply Hno, hhmmss_time_char; lia.
  - destruct (tzinfo dt) as [off|]; [|by apply elem_of_nil in H].
    rewrite format_offset_Some in H.
    apply elem_of_cons in H as [H|H].
    + by destruct (off <? 0).
    + destruct (offset_fields (Z.abs off) ltac:(lia)) as [(Hhh & Hmm & Hss & Huu) _].
      revert H. apply Hno. by apply hhmm_ss_time_char.
Qed.

Lemma index_from_0 (sub s : str) (i : nat) :
  find sub s = Some i → index_from sub s 0 = Ok i.
Proof.
  intros H. unfold index_from, find_from.
  rewrite bool_decide_eq_true_2 by lia. by rewrite drop_0, H.
Qed.

Lemma index_from_single (c : ascii) (pre a r : str) :
  c ∉ a →
  index_from [c] (pre ++ a ++ c :: r) (length pre)
  = Ok (length pre + length a)%nat.
Proof.
  intros H. unfold index_from, find_from.
  rewrite bool_decide_eq_true_2 by (rewrite length_app; lia).
  rewrite drop_app_length, find_single_first by done. done.
Qed.

Lemma slice_middle (pre a r : str) :
  slice (pre ++ a ++ r) (length pre) (length pre + length a) = a.
Proof.
  unfold slice. rewrite drop_app_length.
  replace (length pre + length a - length pre)%nat with (length a) by lia.
  apply take_app_length.
Qed.

(** C2 (as amended).  Decoding what was encoded gives the timestamp back:
    for every valid timestamp [dt] and every title in which the opening tag
    ["[deadline: "] does not occur, not even at its very end with the blank
    of the separator [" | "] as the tag's last character, the topic
    ["Article: {title} | [deadline: {dt in ISO-8601}]"] decodes to [dt]. *)
Theorem extract_article_topic (title : str) (dt : datetime) :
  valid_datetime dt = true →
  contains DEADLINE_TAG (title ++ py " ") = false →
  extract_deadline_from_topic (Some (article_topic title dt)) = Ok (Some dt).
Proof.
  intros Hv Htitle.
  pose proof (find_tag_article_topic title (isoformat dt ++ py "]") Htitle) as Hfind.
  rewrite <- article_topic_split in Hfind.
  unfold extract_deadline_from_topic.
  rewrite bool_decide_eq_false_2 by (by unfold article_topic).
  assert (contains DEADLINE_TAG (article_topic title dt) = true) as ->
    by (apply contains_true; rewrite Hfind; eauto).
  rewrite (index_from_0 _ _ _ Hfind).
  cbv beta iota delta [orb negb rbind].
  assert (article_topic title dt
          = (topic_head title ++ DEADLINE_TAG) ++ isoformat dt ++ ["]"%char]) as ->
    by (by rewrite article_topic_split, <- app_assoc).
  change (py "]") with ["]"%char].
  rewrite <- length_app.
  rewrite index_from_single by (by apply isoformat_no_bracket).
  rewrite slice_middle, fromisoformat_isoformat by done.
  done.
Qed.

(** C2, the claim as stated fails: a title that holds the opening tag is
    read instead of the deadline, and the decoder finds no timestamp. *)
Lemma extract_title_with_tag :
  extract_deadline_from_topic
    (Some (article_topic (py "Notes [deadline: soon]")
                         (mkdatetime 2025 9 7 23 0 0 0 None)))
  = Ok None
  ∧ valid_datetime (mkdatetime 2025 9 7 23 0 0 0 None) = true.
Proof. split; vm_compute; reflexivity. Qed.



(** ** [parse_when] *)

Lemma rbind_Ok {A B} (r : result A) (k : A → result B) (b : B) :
  rbind r k = Ok b → ∃ a, r = Ok a ∧ k a = Ok b.
Proof. destruct r; simpl; [eauto|discriminate]. Qed.






Lemma datetime_new_Ok y m d h mi s us tz dt :
  datetime_new y m d h mi s us tz = Ok dt →
  dt = mkdatetime y m d h mi s us tz ∧ valid_datetime dt = true.
Proof.
  unfold datetime_new. destruct (valid_datetime _) eqn:E; [|discriminate].
  intros [= <-]. done.
Qed.







(** The groups of a match are those of the expression. *)
Lemma re_all_groups (re : list re_item) (s : str) g rem :
  (g, rem) ∈ re_all re s → g.*1 = re_directives re.
Proof.
  revert s g rem. induction re as [|item re IH]; intros s g rem H.
  - simpl in H. apply list_elem_of_singleton in H. by inversion H.
  - destruct item as [d alts|c|]; simpl in H.
    + apply list_elem_of_In, in_flat_map in H as (alt & _ & H).
      apply list_elem_of_In in H.
      destruct (match_classes alt s) as [[m rest]|]; [|by apply elem_of_nil in H].
      apply list_elem_of_fmap in H as ([g' rem'] & [= -> ->] & H).
      simpl. f_equal. by eapply IH.
    + destruct s as [|x s]; [by apply elem_of_nil in H|].
      destruct (ci_char c x); [by eapply IH|by apply elem_of_nil in H].
    + apply list_elem_of_In, in_flat_map in H as (k & _ & H).
      apply list_elem_of_In in H. by eapply IH.
Qed.

Lemma group_None (d : directive) (g : list (directive * str)) :
  d ∉ g.*1 → group d g = None.
Proof.
  induction g as [|[d' m] g IH]; intros H; simpl; [done|].
  rewrite bool_decide_eq_false_2.
  - apply IH. intros ?. apply H. by right.
  - intros ->. apply H. left.
Qed.

(** Without a year in the format the value is of 1900. *)
Lemma strptime_no_year (s fmt : str) (re : list re_item) (dt : datetime) :
  pattern fmt false = Some re → dY ∉ re_directives re →
  strptime s fmt = Ok dt → year dt = 1900 ∧ valid_datetime dt = true.
Proof.
  intros Hre HY. unfold strptime. rewrite Hre.
  destruct (re_all re s) as [|[g rem] l] eqn:Hall; [discriminate|].
  assert (group dY g = None) as ->.
  { apply group_None. erewrite re_all_groups; [done|]. rewrite Hall. left. }
  destruct (negb _); [discriminate|].
  intros H.
  do 5 (apply rbind_Ok in H as (? & _ & H)).
  cbn [rbind] in H.
  rewrite bool_decide_eq_true_2 in H by done.
  destruct (negb _); [discriminate|].
  apply datetime_new_Ok in H as [-> Hv]. split; [|done].
  cbn [year]. clear Hv. by destruct (true && (_ =? 2) && (_ =? 29)).
Qed.







(** C9.  The decoder returns absent, and does not raise, for every
    metadata string that is empty, has no opening tag, has the tag but no
    ["]"] after it, or has between tag and bracket a text that the parser
    refuses, whatever [datetime.fromisoformat] reads and refuses in the
    interpreter that runs the bot. *)
Theorem extract_deadline_absent (parse : str → result datetime) (topic : str) :
  undecodable parse topic → extract_deadline_with parse (Some topic) = Ok None.
Proof.
  intros H. unfold extract_deadline_with.
  destruct H as [|topic H|topic i Hi Hj|topic i j e Hi Hj He].
  - done.
  - rewrite H. by rewrite orb_true_r.
  - destruct (bool_decide _ || negb _); [done|].
    rewrite (index_from_0 _ _ _ Hi). cbn [rbind].
    unfold index_from. by rewrite Hj.
  - destruct (bool_decide _ || negb _); [done|].
    rewrite (index_from_0 _ _ _ Hi). cbn [rbind].
    unfold index_from. rewrite Hj. cbn [rbind]. by rewrite He.
Qed.

Lemma extract_deadline_absent_witness :
  undecodable fromisoformat (py "Article: Budget | [deadline: next friday]")
  ∧ extract_deadline_with fromisoformat
      (Some (py "Article: Budget | [deadline: next friday]")) = Ok None.
Proof.
  assert (undecodable fromisoformat
            (py "Article: Budget | [deadline: next friday]")) as H.
  { apply (undecodable_timestamp _ _ 18%nat 40%nat ValueError); reflexivity. }
  split; [exact H|].
  exact (extract_deadline_absent _ _ H).
Defined.

(** With the parser of the model, the function with a parameter is the
    function of the model; and whatever the parser is, it does not
    raise. *)
Lemma extract_deadline_with_fromisoformat (topic : option str) :
  extract_deadline_with fromisoformat topic = extract_deadline_from_topic topic.
Proof. reflexivity. Qed.

Lemma extract_deadline_with_total (parse : str → result datetime)
    (topic : option str) :
  ∃ dl, extract_deadline_with parse topic = Ok dl.
Proof.
  unfold extract_deadline_with. destruct topic as [t|]; [|by eexists].
  destruct (_ || _); [by eexists|].
  destruct (rbind _ _) as [dl|e]; by eexists.
Qed.

(** The decoder on the topics every version decodes alike. *)
Lemma topic_decodes_extract (topic : option str) (r : option datetime) :
  topic_decodes topic r → extract_deadline_from_topic topic = Ok r.
Proof.
  intros H. unfold extract_deadline_from_topic.
  destruct H as [|topic H|topic i Hi Hj|topic i j dt Hi Hj Hv Hs].
  - done.
  - rewrite H. by rewrite orb_true_r.
  - destruct (bool_decide _ || negb _); [done|].
    rewrite (index_from_0 _ _ _ Hi). cbn [rbind].
    unfold index_from. by rewrite Hj.
  - assert (topic ≠ []) as Hne by (intros ->; discriminate Hi).
    rewrite bool_decide_eq_false_2 by done.
    rewrite (proj2 (contains_true _ _)) by (rewrite Hi; eauto).
    rewrite (index_from_0 _ _ _ Hi).
    cbv beta iota delta [orb negb rbind].
    unfold index_from. rewrite Hj. cbv beta iota.
    by rewrite Hs, fromisoformat_isoformat.
Qed.

Lemma plain_topic_naive (c : Channel) : plain_topic c → naive_deadline c.
Proof.
  intros (r & Hr & Hnaive) dl Hdl.
  rewrite (topic_decodes_extract _ _ Hr) in Hdl. injection Hdl as ->.
  by apply Hnaive.
Qed.

Lemma plain_topic_settled (c : Channel) : plain_topic c → settled_topic c.
Proof. intros (r & Hr & _). by exists r. Qed.

(** The topic [new_article] writes is one of them. *)
Lemma article_topic_decodes (title : str) (dt : datetime) :
  valid_datetime dt = true →
  contains DEADLINE_TAG (title ++ py " ") = false →
  topic_decodes (Some (article_topic title dt)) (Some dt).
Proof.
  intros Hv Htitle.
  pose proof (find_tag_article_topic title (isoformat dt ++ py "]") Htitle)
    as Hfind.
  rewrite <- article_topic_split in Hfind.
  pose proof (index_from_single "]"%char (topic_head title ++ DEADLINE_TAG)
                (isoformat dt) [] (isoformat_no_bracket dt Hv)) as Hidx.
  rewrite <- app_assoc in Hidx. change ("]"%char :: []) with (py "]") in Hidx.
  rewrite <- article_topic_split in Hidx. rewrite length_app in Hidx.
  unfold index_from in Hidx.
  destruct (find_from (py "]") (article_topic title dt)
              (length (topic_head title) + length DEADLINE_TAG)) as [j|] eqn:Hj;
    [|discriminate Hidx].
  assert (j = (length (topic_head title) + length DEADLINE_TAG
               + length (isoformat dt))%nat) as Ej by congruence.
  eapply decodes_isoformat; [exact Hfind|exact Hj|exact Hv|].
  rewrite Ej, article_topic_split, app_assoc, <- length_app.
  apply slice_middle.
Qed.

Lemma extract_article_topic_witness :
  valid_datetime (mkdatetime 2025 9 7 23 0 0 0 None) = true
  ∧ contains DEADLINE_TAG (py "Q3 Budget Review" ++ py " ") = false
  ∧ extract_deadline_from_topic
      (Some (article_topic (py "Q3 Budget Review")
                           (mkdatetime 2025 9 7 23 0 0 0 None)))
    = Ok (Some (mkdatetime 2025 9 7 23 0 0 0 None)).
Proof.
  split; [reflexivity|]. split; [reflexivity|].
  apply extract_article_topic; reflexivity.
Defined.

(** C5, a failing input: the separators are stripped before the slug is
    cut to 90 characters, so a title of 91 characters whose 90th is not
    alphanumeric gives a slug that ends in the separator. *)
Theorem slugify_trailing_separator :
  slugify (repeat "a"%char 89 ++ py " b") = repeat "a"%char 89 ++ py "-"
  ∧ length (repeat "a"%char 89 ++ py " b") = 91%nat.
Proof. split; vm_compute; reflexivity. Qed.

(** ** Commands that stop at an input check *)

Section Frame.

Context (api_fails : ApiCall → option exn) (timestamp : datetime → result Z).

Lemma categories_added_refl (g : Guild) : categories_added g g.
Proof. repeat split. exists []. by rewrite app_nil_r. Qed.

Lemma categories_added_trans (g1 g2 g3 : Guild) :
  categories_added g1 g2 → categories_added g2 g3 → categories_added g1 g3.
Proof.
  intros (? & ? & ? & ? & ? & new & ?) (? & ? & ? & ? & ? & new' & ?).
  repeat split; try congruence.
  exists (new ++ new'). rewrite app_assoc. congruence.
Qed.

Lemma api_guild (c : ApiCall) (w : World) : (api api_fails c w).2 = w.
Proof. unfold api. by destruct (api_fails c). Qed.

Lemma followup_send_guild (r : Reply) (w : World) :
  guild (followup_send api_fails r w).2 = guild w.
Proof.
  unfold followup_send, bind, api. by destruct (api_fails Followup).
Qed.

Lemma create_category_added (name : str) (w : World) :
  categories_added (guild w) (guild (create_category api_fails name w).2).
Proof.
  unfold create_category, bind, api, get_guild, modify_guild, ret, raise.
  destruct (api_fails (CreateCategory name)); simpl.
  - apply categories_added_refl.
  - repeat split. by eexists.
Qed.

Lemma ensure_categories_added (config : BotConfig) (w : World) :
  categories_added (guild w) (guild (ensure_categories api_fails config w).2).
Proof.
  unfold ensure_categories, bind, get_guild. simpl.
  destruct (get_by_name _ (active_category_name config)) as [a|].
  - unfold ret at 1. simpl.
    destruct (get_by_name _ (archived_category_name config)) as [b|].
    + apply categories_added_refl.
    + pose proof (create_category_added (archived_category_name config) w) as H.
      destruct (create_category _ _ w) as [[?|?] w']; exact H.
  - pose proof (create_category_added (active_category_name config) w) as H.
    destruct (create_category _ _ w) as [[a|?] w']; simpl in *; [|done].
    destruct (get_by_name _ (archived_category_name config)) as [b|].
    + done.
    + pose proof (create_category_added (archived_category_name config) w') as H'.
      destruct (create_category _ _ w') as [[?|?] w'']; simpl in *;
        by eapply categories_added_trans.
Qed.

Lemma ensure_categories_present (config : BotConfig) (w : World) (a b : Z) :
  get_by_name (categories (guild w)) (active_category_name config) = Some a →
  get_by_name (categories (guild w)) (archived_category_name config) = Some b →
  ensure_categories api_fails config w = (Ok (a, b), w).
Proof.
  intros Ha Hb. unfold ensure_categories, bind, get_guild. simpl.
  by rewrite Ha, Hb.
Qed.

(** A handler's [except] clauses that only report. *)
Lemma catch_report_guild {A} (m : M A) (h : exn → M A) (w : World) (g : Guild) :
  guild (m w).2 = g → (∀ e w', guild (h e w').2 = guild w') →
  guild (catch m h w).2 = g.
Proof.
  intros Hm Hh. unfold catch. destruct (m w) as [[a|e] w']; [done|].
  rewrite Hh. done.
Qed.

Lemma defer_then_guild {A} (m : M A) (w : World) (P : Guild → Prop) :
  P (guild w) → P (guild (m w).2) →
  P (guild ((api api_fails Defer ;; m) w).2).
Proof.
  intros Hw Hm. unfold bind, api.
  destruct (api_fails Defer); simpl; done.
Qed.

End Frame.

Section InputErrors.

Context (api_fails : ApiCall → option exn) (timestamp : datetime → result Z).

Lemma bind_run {A B} (m : M A) (k : A → M B) (w : World) :
  bind m k w = match m w with
               | (Ok a, w') => k a w'
               | (Raise e, w') => (Raise e, w')
               end.
Proof. done. Qed.

Lemma report_guild (r1 : Reply) (r2 : exn → Reply) (e : exn) (w : World) :
  guild (match e with
         | Forbidden => followup_send api_fails r1
         | _ => followup_send api_fails (r2 e)
         end w).2 = guild w.
Proof. destruct e; apply followup_send_guild. Qed.

Lemma input_error_guild (config : BotConfig) :
  (∀ now interaction title deadline writers w,
     in_guild interaction = false ∨ parse_when now deadline = Ok None →
     guild (new_article api_fails timestamp config now interaction title
                        deadline writers w).2 = guild w)
  ∧ (∀ interaction channel w,
       in_guild interaction = false →
       guild (archive_channel api_fails config interaction channel w).2
       = guild w)
  ∧ (∀ interaction channel w,
       (∀ c, get_channel (channels (guild w))
                         (default (in_channel interaction) channel) = Some c →
             ch_type c ≠ TextChannel) →
       let g' := guild (archive_channel api_fails config interaction channel w).2 in
       categories_added (guild w) g'
       ∧ (is_Some (get_by_name (categories (guild w))
                               (active_category_name config)) →
          is_Some (get_by_name (categories (guild w))
                               (archived_category_name config)) →
          g' = guild w)).
Proof.
  split_and!.
  - intros now interaction title deadline writers w H.
    unfold new_article.
    apply (defer_then_guild api_fails _ w (λ g, g = guild w)); [done|].
    apply catch_report_guild; [|intros e w'; apply report_guild].
    destruct (in_guild interaction); simpl.
    + destruct H as [H|H]; [done|].
      unfold bind, lift. rewrite H. apply followup_send_guild.
    + apply followup_send_guild.
  - intros interaction channel w H. unfold archive_channel.
    apply (defer_then_guild api_fails _ w (λ g, g = guild w)); [done|].
    apply catch_report_guild; [|intros e w'; apply report_guild].
    rewrite H. apply followup_send_guild.
  - intros interaction channel w Hch. cbv zeta.
    unfold archive_channel.
    set (body := if negb (in_guild interaction) then _ else _).
    assert (guild (body w).2
            = if in_guild interaction
              then guild (ensure_categories api_fails config w).2
              else guild w) as Hbody.
    { subst body. destruct (in_guild interaction); simpl;
        [|apply followup_send_guild].
      rewrite bind_run.
      pose proof (ensure_categories_added api_fails config w) as Hens.
      destruct (ensure_categories api_fails config w) as [[[a b]|e] w'];
        simpl in *; [|done].
      rewrite bind_run. unfold get_guild at 1. cbv beta iota.
      replace (match channel with Some c => c | None => in_channel interaction end)
        with (default (in_channel interaction) channel) by (by destruct channel).
      replace (channels (guild w')) with (channels (guild w))
        by (by destruct Hens as (_ & _ & -> & _)).
      destruct (get_channel (channels (guild w))
                  (default (in_channel interaction) channel)) as [c|] eqn:Ec.
      - rewrite bool_decide_eq_false_2 by (by apply Hch).
        apply followup_send_guild.
      - apply followup_send_guild. }
    assert (categories_added (guild w) (guild (body w).2)
            ∧ (is_Some (get_by_name (categories (guild w))
                                    (active_category_name config)) →
               is_Some (get_by_name (categories (guild w))
                                    (archived_category_name config)) →
               guild (body w).2 = guild w)) as [Hadd Hsame].
    { rewrite Hbody. destruct (in_guild interaction).
      - split; [apply ensure_categories_added|].
        intros [a Ha] [b Hb].
        by rewrite (ensure_categories_present api_fails config w a b Ha Hb).
      - split; [apply categories_added_refl|done]. }
    clear Hbody.
    clearbody body.
    unfold bind, api. destruct (api_fails Defer); simpl.
    { split; [apply categories_added_refl|done]. }
    unfold catch. destruct (body w) as [[[]|e] w']; simpl in *; [done|].
    rewrite report_guild. done.
Qed.

End InputErrors.

Section Reported.

Context (api_fails : ApiCall → option exn) (timestamp : datetime → result Z).
Hypothesis no_failure_here : ∀ c, api_fails c = None.

Lemma api_ok (c : ApiCall) (w : World) : api api_fails c w = (Ok tt, w).
Proof. unfold api. by rewrite no_failure_here. Qed.

Lemma followup_send_ok (r : Reply) (w : World) :
  followup_send api_fails r w = (Ok tt, mkWorld (guild w) (replies w ++ [r])).
Proof. unfold followup_send. by rewrite bind_run, api_ok. Qed.

Lemma ensure_categories_ok (config : BotConfig) (w : World) :
  ∃ ab w', ensure_categories api_fails config w = (Ok ab, w')
           ∧ replies w' = replies w.
Proof.
  unfold ensure_categories, create_category.
  repeat (rewrite bind_run; unfold get_guild, modify_guild, ret; cbv beta iota;
          rewrite ?api_ok).
  cbn [guild].
  destruct (get_by_name _ (active_category_name config));
    destruct (get_by_name _ (archived_category_name config));
    repeat (rewrite ?bind_run, ?api_ok; unfold get_guild, modify_guild, ret;
            cbv beta iota);
    by eexists _, _.
Qed.

Lemma input_error_reported (config : BotConfig) :
  (∀ now interaction title deadline writers w,
     in_guild interaction = false →
     replies (new_article api_fails timestamp config now interaction title
                          deadline writers w).2 = replies w ++ [MustBeInServer])
  ∧ (∀ now interaction title deadline writers w,
       in_guild interaction = true → parse_when now deadline = Ok None →
       replies (new_article api_fails timestamp config now interaction title
                            deadline writers w).2 = replies w ++ [BadDeadline])
  ∧ (∀ interaction channel w,
       in_guild interaction = false →
       replies (archive_channel api_fails config interaction channel w).2
       = replies w ++ [MustBeInServer])
  ∧ (∀ interaction channel w,
       in_guild interaction = true →
       (∀ c, get_channel (channels (guild w))
                         (default (in_channel interaction) channel) = Some c →
             ch_type c ≠ TextChannel) →
       replies (archive_channel api_fails config interaction channel w).2
       = replies w ++ [ChooseTextChannel]).
Proof.
  split_and!.
  - intros now interaction title deadline writers w H. unfold new_article.
    rewrite bind_run, api_ok. unfold catch. rewrite H. cbn [negb].
    by rewrite followup_send_ok.
  - intros now interaction title deadline writers w H Hd. unfold new_article.
    rewrite bind_run, api_ok. unfold catch. rewrite H. cbn [negb].
    rewrite bind_run. unfold lift. rewrite Hd.
    by rewrite followup_send_ok.
  - intros interaction channel w H. unfold archive_channel.
    rewrite bind_run, api_ok. unfold catch. rewrite H. cbn [negb].
    by rewrite followup_send_ok.
  - intros interaction channel w H Hch. unfold archive_channel.
    rewrite bind_run, api_ok. unfold catch. rewrite H. cbn [negb].
    rewrite bind_run.
    pose proof (ensure_categories_added api_fails config w) as Hadd.
    destruct (ensure_categories_ok config w) as ([a b] & w' & E & Hr).
    rewrite E in *. simpl in Hadd.
    rewrite bind_run. unfold get_guild at 1. cbv beta iota.
    replace (match channel with Some c => c | None => in_channel interaction end)
      with (default (in_channel interaction) channel) by (by destruct channel).
    replace (channels (guild w')) with (channels (guild w))
      by (by destruct Hadd as (_ & _ & -> & _)).
    destruct (get_channel (channels (guild w))
                (default (in_channel interaction) channel)) as [c|] eqn:Ec.
    + rewrite bool_decide_eq_false_2 by (by apply Hch).
      rewrite followup_send_ok. simpl. by rewrite Hr.
    + rewrite followup_send_ok. simpl. by rewrite Hr.
Qed.

End Reported.

(** A command that stops at an input check leaves the
    server as it was, with one exception.  [new_article] used outside a
    server or with a deadline that does not parse, and [archive] used
    outside a server, change nothing in the guild, whichever platform calls
    fail.  [archive] aimed at something that is not a text channel changes
    no channel, role or member; it may have added categories, those
    [ensure_categories] creates before the target is looked at, and it adds
    none when both categories exist.  When no platform call fails the user
    is told which check failed. *)
Theorem input_error_mutations (api_fails : ApiCall → option exn)
    (timestamp : datetime → result Z) (config : BotConfig) :
  (∀ now interaction title deadline writers w,
     in_guild interaction = false ∨ parse_when now deadline = Ok None →
     guild (new_article api_fails timestamp config now interaction title
                        deadline writers w).2 = guild w)
  ∧ (∀ interaction channel w,
       in_guild interaction = false →
       guild (archive_channel api_fails config interaction channel w).2
       = guild w)
  ∧ (∀ interaction channel w,
       (∀ c, get_channel (channels (guild w))
                         (default (in_channel interaction) channel) = Some c →
             ch_type c ≠ TextChannel) →
       let g' := guild (archive_channel api_fails config interaction channel w).2 in
       categories_added (guild w) g'
       ∧ (is_Some (get_by_name (categories (guild w))
                               (active_category_name config)) →
          is_Some (get_by_name (categories (guild w))
                               (archived_category_name config)) →
          g' = guild w))
  ∧ ((∀ c, api_fails c = None) →
     (∀ now interaction title deadline writers w,
        in_guild interaction = false →
        replies (new_article api_fails timestamp config now interaction title
                             deadline writers w).2
        = replies w ++ [MustBeInServer])
     ∧ (∀ now interaction title deadline writers w,
          in_guild interaction = true → parse_when now deadline = Ok None →
          replies (new_article api_fails timestamp config now interaction
                               title deadline writers w).2
          = replies w ++ [BadDeadline])
     ∧ (∀ interaction channel w,
          in_guild interaction = false →
          replies (archive_channel api_fails config interaction channel w).2
          = replies w ++ [MustBeInServer])
     ∧ (∀ interaction channel w,
          in_guild interaction = true →
          (∀ c, get_channel (channels (guild w))
                            (default (in_channel interaction) channel) = Some c →
                ch_type c ≠ TextChannel) →
          replies (archive_channel api_fails config interaction channel w).2
          = replies w ++ [ChooseTextChannel])).
Proof.
  destruct (input_error_guild api_fails timestamp config) as (H1 & H2 & H3).
  split_and!; [exact H1|exact H2|exact H3|].
  intros Hok. apply input_error_reported. exact Hok.
Qed.

(** C7, a failing input: [archive] used in a channel that is not a text
    channel, on a server that has no categories yet, creates both
    categories before it reports ["Choose a text channel to archive."];
    [new_article] makes its checks first, and with a deadline that does not
    parse it leaves the same server without categories. *)
Theorem archive_non_text_creates_categories :
  let w := mkWorld fresh_guild [] in
  let w' := (archive_channel no_failure config0 (mkInteraction true 50) None w).2 in
  let w'' := (new_article no_failure (λ _, Ok 0) config0 now0
                (mkInteraction true 50) (py "Budget") (py "next friday")
                None w).2 in
  replies w' = [ChooseTextChannel]
  ∧ categories (guild w) = []
  ∧ categories (guild w')
    = [(100, py "Active Articles"); (101, py "Archived Articles")]
  ∧ replies w'' = [BadDeadline]
  ∧ guild w'' = guild w.
Proof. cbv zeta. split_and!; vm_compute; reflexivity. Qed.

(** ** The sweep *)

Lemma extract_deadline_total (topic : option str) :
  ∃ dl, extract_deadline_from_topic topic = Ok dl.
Proof.
  unfold extract_deadline_from_topic. destruct topic as [t|]; [|by eexists].
  destruct (_ || _); [by eexists|].
  destruct (rbind _ _) as [dl|e]; by eexists.
Qed.

Lemma get_channel_Some (chs : list Channel) (i : Z) (c : Channel) :
  get_channel chs i = Some c → c ∈ chs ∧ ch_id c = i.
Proof.
  induction chs as [|x chs IH]; simpl; [done|].
  destruct (ch_id x =? i) eqn:E.
  - intros [= ->]. split; [left|by apply Z.eqb_eq].
  - intros [? ?]%IH. split; [by right|done].
Qed.

Lemma get_channel_None (chs : list Channel) (i : Z) (c : Channel) :
  get_channel chs i = None → c ∈ chs → ch_id c ≠ i.
Proof.
  induction chs as [|x chs IH]; simpl; [by intros _ ?%elem_of_nil|].
  destruct (ch_id x =? i) eqn:E; [done|].
  intros H [->|?]%elem_of_cons; [by apply Z.eqb_neq|by apply IH].
Qed.

Lemma get_channel_unique (chs : list Channel) (i : Z) (c c' : Channel) :
  NoDup (ch_id <$> chs) → get_channel chs i = Some c →
  c' ∈ chs → ch_id c' = i → c' = c.
Proof.
  induction chs as [|x chs IH]; simpl; [done|].
  intros [Hx Hnd]%NoDup_cons. destruct (ch_id x =? i) eqn:E.
  - apply Z.eqb_eq in E. intros [= <-] [->|Hin]%elem_of_cons Hid; [done|].
    exfalso. apply Hx. rewrite E, <- Hid. by apply list_elem_of_fmap_2.
  - apply Z.eqb_neq in E. intros Hget [->|Hin]%elem_of_cons Hid; [done|].
    by apply IH.
Qed.

Lemma update_channel_ext (f h : Channel → Channel) (i : Z) (chs : list Channel) :
  (∀ c, c ∈ chs → ch_id c = i → f c = h c) →
  update_channel f i chs = update_channel h i chs.
Proof.
  intros H. unfold update_channel. apply map_ext_in. intros c Hc.
  destruct (ch_id c =? i) eqn:E; [|done].
  apply H; [by apply list_elem_of_In|by apply Z.eqb_eq].
Qed.

Lemma update_channel_id (i : Z) (chs : list Channel) :
  update_channel (λ c, c) i chs = chs.
Proof.
  unfold update_channel. rewrite <- (map_id chs) at 2. apply map_ext.
  intros c. by destruct (ch_id c =? i).
Qed.

Lemma update_channel_compose (f h : Channel → Channel) (i : Z)
    (chs : list Channel) :
  (∀ c, ch_id (f c) = ch_id c) →
  update_channel h i (update_channel f i chs)
  = update_channel (λ c, h (f c)) i chs.
Proof.
  intros Hid. unfold update_channel. rewrite map_map. apply map_ext.
  intros c. destruct (ch_id c =? i) eqn:E; [|by rewrite E].
  by rewrite Hid, E.
Qed.

Lemma get_channel_update (f : Channel → Channel) (i : Z) (chs : list Channel) :
  (∀ c, ch_id (f c) = ch_id c) →
  get_channel (update_channel f i chs) i = f <$> get_channel chs i.
Proof.
  intros Hid. induction chs as [|x chs IH]; simpl; [done|].
  destruct (ch_id x =? i) eqn:E.
  - by rewrite Hid, E.
  - by rewrite E.
Qed.

Lemma update_channel_ids (f : Channel → Channel) (i : Z) (chs : list Channel) :
  (∀ c, ch_id (f c) = ch_id c) →
  ch_id <$> update_channel f i chs = ch_id <$> chs.
Proof.
  intros Hid. unfold update_channel.
  rewrite <- list_fmap_compose. apply list_fmap_ext.
  intros _ c _. simpl. by destruct (ch_id c =? i).
Qed.

Lemma swept_id api_fails b d e (c : Channel) :
  ch_id (swept api_fails b d e c) = ch_id c.
Proof. unfold swept. by repeat case_match. Qed.

Lemma swept_topic api_fails b d e (c : Channel) :
  ch_topic (swept api_fails b d e c) = ch_topic c.
Proof. unfold swept. by repeat case_match. Qed.

Section Sweep.

Context (api_fails : ApiCall → option exn).
Context (archived_cat : Z) (editors_role : option Z) (now : datetime).
Hypothesis now_naive : tzinfo now = None.

Local Abbreviation sweep1 :=
  (sweep_of api_fails archived_cat editors_role now).

Lemma world_eta (w : World) (chs : list Channel) :
  chs = channels (guild w) →
  w = mkWorld (with_channels (guild w) chs) (replies w).
Proof. intros ->. by destruct w as [[] ?]. Qed.

Lemma on_channel_run (f : Channel → Channel) (i : Z) (w : World) :
  on_channel f i w
  = (Ok tt, mkWorld (with_channels (guild w)
                       (update_channel f i (channels (guild w)))) (replies w)).
Proof. done. Qed.

Lemma api_run (c : ApiCall) (w : World) :
  api api_fails c w = match api_fails c with
                      | Some e => (Raise e, w)
                      | None => (Ok tt, w)
                      end.
Proof. unfold api. by destruct (api_fails c). Qed.

Lemma sweep_channel_run (i : Z) (w : World) :
  NoDup (ch_id <$> channels (guild w)) →
  (∀ c, c ∈ channels (guild w) → naive_deadline c) →
  sweep_channel api_fails archived_cat editors_role now i w
  = (Ok tt,
     mkWorld (with_channels (guild w)
                (update_channel (sweep1 (guild w)) i (channels (guild w))))
             (replies w)).
Proof.
  intros Hnd Hnaive. unfold sweep_channel.
  rewrite bind_run. unfold get_guild at 1. cbv beta iota.
  set (g := guild w). set (chs := channels g).
  assert (∀ h, (∀ c, get_channel chs i = Some c → h c = sweep1 g c) →
               update_channel h i chs = update_channel (sweep1 g) i chs)
    as Hupd.
  { intros h Hh. apply update_channel_ext. intros c' Hin Hid.
    destruct (get_channel chs i) as [c|] eqn:Ec.
    - rewrite (get_channel_unique chs i c c' Hnd Ec Hin Hid). by apply Hh.
    - by destruct (get_channel_None chs i c' Ec Hin). }
  destruct (get_channel chs i) as [c|] eqn:Ec.
  2:{ (* no such channel: nothing to read, nothing to do *)
      change (extract_deadline_from_topic None) with (Ok (@None datetime)).
      unfold lift. rewrite bind_run. cbv beta iota. rewrite bind_run.
      unfold ret. cbv beta iota. f_equal. apply world_eta.
      rewrite <- (Hupd (λ c, c)) by done. by rewrite update_channel_id. }
  destruct (get_channel_Some _ _ _ Ec) as [Hin Hid].
  specialize (Hnaive c Hin). unfold naive_deadline in Hnaive.
  assert (sweep1 g c = if due now c
                         then swept api_fails archived_cat (default_role g)
                                    editors_role c
                         else c) as Hsw by done.
  unfold due in Hsw.
  destruct (extract_deadline_total (ch_topic c)) as [dl Hdl].
  rewrite Hdl in *. unfold lift. rewrite bind_run. cbv beta iota.
  destruct dl as [dl|].
  2:{ rewrite bind_run. unfold ret. cbv beta iota. f_equal. apply world_eta.
      rewrite <- (Hupd (λ c, c)) by (intros ? [= <-]; by rewrite Hsw).
      by rewrite update_channel_id. }
  specialize (Hnaive dl eq_refl).
  unfold datetime_lt in *. rewrite Hnaive, now_naive in *.
  rewrite bind_run. cbv beta iota.
  destruct (lex_ltb (fields dl) (fields now)).
  2:{ unfold ret. f_equal. apply world_eta.
      rewrite <- (Hupd (λ c, c)) by (intros ? [= <-]; by rewrite Hsw).
      by rewrite update_channel_id. }
  (* the channel is due *)
  unfold swept in Hsw. rewrite Hid in Hsw.
  unfold catch, send, edit_category, edit_overwrites.
  rewrite !bind_run. unfold api at 1.
  destruct (api_fails (SendMessage i)).
  { unfold raise, ret. cbv beta iota. f_equal. apply world_eta.
    rewrite <- (Hupd (λ c, c)) by (intros ? [= <-]; by rewrite Hsw).
    by rewrite update_channel_id. }
  unfold ret. cbv beta iota.
  rewrite on_channel_run, !bind_run. cbn [guild replies]. unfold api at 1.
  destruct (api_fails (EditCategory i)).
  { unfold raise, ret. cbv beta iota. do 3 f_equal.
    apply Hupd. intros ? [= <-]. by rewrite Hsw. }
  unfold ret. cbv beta iota.
  rewrite on_channel_run, !bind_run. cbn [guild replies].
  unfold get_guild at 1. cbv beta iota. cbn [guild replies].
  unfold api at 1.
  destruct (api_fails (EditOverwrites i)).
  { unfold raise, ret. cbv beta iota. do 3 f_equal.
    cbn [with_channels channels].
    rewrite update_channel_compose by done.
    apply Hupd. intros ? [= <-]. by rewrite Hsw. }
  unfold ret. cbv beta iota. rewrite bind_run. cbv beta iota.
  rewrite on_channel_run. cbn [guild replies with_channels channels].
  do 3 f_equal.
  rewrite !update_channel_compose by done.
  rewrite get_channel_update by done.
  fold g. fold chs. rewrite Ec. cbn [fmap option_fmap option_map].
  apply Hupd. intros ? [= <-]. rewrite Hsw. done.
Qed.

Lemma sweep_of_id (g : Guild) (c : Channel) : ch_id (sweep1 g c) = ch_id c.
Proof. unfold sweep_of. destruct (due now c); [apply swept_id|done]. Qed.

Lemma sweep_of_topic (g : Guild) (c : Channel) :
  ch_topic (sweep1 g c) = ch_topic c.
Proof. unfold sweep_of. destruct (due now c); [apply swept_topic|done]. Qed.

Lemma sweeper_loop_run (ids : list Z) (w : World) :
  NoDup ids →
  NoDup (ch_id <$> channels (guild w)) →
  (∀ c, c ∈ channels (guild w) → naive_deadline c) →
  sweeper_loop api_fails archived_cat editors_role now ids w
  = (Ok tt,
     mkWorld (with_channels (guild w)
                (map (λ c, if bool_decide (ch_id c ∈ ids)
                           then sweep1 (guild w) c else c)
                     (channels (guild w))))
             (replies w)).
Proof.
  revert w. induction ids as [|i ids IH]; intros w Hids Hnd Hnaive.
  - cbn [sweeper_loop]. unfold ret. f_equal. apply world_eta.
    rewrite <- (map_id (channels (guild w))) at 2. apply map_ext.
    intros c. rewrite bool_decide_eq_false_2; [done|]. apply not_elem_of_nil.
  - apply NoDup_cons in Hids as [Hi Hids].
    cbn [sweeper_loop]. rewrite bind_run.
    rewrite sweep_channel_run by done.
    rewrite IH; cbn [guild replies with_channels channels]; [|done| |].
    + do 3 f_equal. unfold update_channel. rewrite map_map. apply map_ext.
      intros c. destruct (ch_id c =? i) eqn:E.
      * apply Z.eqb_eq in E.
        rewrite sweep_of_id, E.
        rewrite bool_decide_eq_false_2 by done.
        rewrite bool_decide_eq_true_2 by left. done.
      * apply Z.eqb_neq in E.
        destruct (decide (ch_id c ∈ ids)) as [Hin|Hin].
        -- rewrite !bool_decide_eq_true_2; [done|by right|done].
        -- rewrite !bool_decide_eq_false_2; [done| |done].
           by intros [?|?]%elem_of_cons.
    + rewrite update_channel_ids; [done|]. apply sweep_of_id.
    + intros c Hc. unfold update_channel in Hc.
      apply list_elem_of_In, in_map_iff in Hc as (c0 & <- & Hc0).
      apply list_elem_of_In, Hnaive in Hc0.
      destruct (ch_id c0 =? i); [|done].
      unfold naive_deadline. by rewrite sweep_of_topic.
Qed.

End Sweep.

Lemma text_channels_elem (g : Guild) (cat : Z) (c : Channel) :
  NoDup (ch_id <$> channels g) → c ∈ channels g →
  ch_id c ∈ text_channels g cat
  ↔ ch_type c = TextChannel ∧ ch_category c = Some cat.
Proof.
  intros Hnd Hc. unfold text_channels. split.
  - intros H. apply list_elem_of_In, in_map_iff in H as (c' & Hid & H).
    apply list_elem_of_In, list_elem_of_filter in H as [H Hc'].
    assert (c' = c) as ->; [|done].
    clear H. revert Hnd Hc Hc' Hid.
    generalize (channels g). intros chs.
    induction chs as [|x chs IH]; [by intros _ ?%elem_of_nil|].
    simpl. intros [Hx Hnd]%NoDup_cons [->|Hc]%elem_of_cons [->|Hc']%elem_of_cons Hid;
      try done.
    + exfalso. apply Hx. rewrite <- Hid. by apply list_elem_of_fmap_2.
    + exfalso. apply Hx. rewrite Hid. by apply list_elem_of_fmap_2.
    + by apply IH.
  - intros H. apply list_elem_of_In, in_map_iff. exists c. split; [done|].
    apply list_elem_of_In, list_elem_of_filter. done.
Qed.

Lemma text_channels_NoDup (g : Guild) (cat : Z) :
  NoDup (ch_id <$> channels g) → NoDup (text_channels g cat).
Proof.
  unfold text_channels. generalize (channels g). intros chs.
  induction chs as [|x chs IH]; simpl; [intros _; apply NoDup_nil_2|].
  intros [Hx Hnd]%NoDup_cons. rewrite filter_cons.
  destruct (decide _); [|by apply IH].
  simpl. apply NoDup_cons. split; [|by apply IH].
  intros H. apply Hx.
  apply list_elem_of_In, in_map_iff in H as (c' & Hid & H).
  apply list_elem_of_In, list_elem_of_filter in H as [_ H].
  rewrite <- Hid. by apply list_elem_of_fmap_2.
Qed.

(** A tick of the sweep on a server that has both categories, when no
    topic holds a deadline with a UTC offset: every text channel of the
    Active category whose deadline decodes and is earlier than [now] gets
    the notice, the move and the archived-state overwrites, up to the first
    of these calls the platform refuses; every other channel stays as it
    is, and so does the rest of the server. *)
Lemma sweeper_run (api_fails : ApiCall → option exn) (config : BotConfig)
    (now : datetime) (w : World) (a b : Z) :
  tzinfo now = None →
  cfg_guild_id config = Some (guild_id (guild w)) →
  get_by_name (categories (guild w)) (active_category_name config) = Some a →
  get_by_name (categories (guild w)) (archived_category_name config) = Some b →
  NoDup (ch_id <$> channels (guild w)) →
  (∀ c, c ∈ channels (guild w) → naive_deadline c) →
  sweeper api_fails config now w
  = (Ok tt,
     mkWorld
       (with_channels (guild w)
          (map (λ c, if bool_decide (ch_type c = TextChannel
                                     ∧ ch_category c = Some a)
                        && due now c
                     then swept api_fails b (default_role (guild w))
                            (get_by_name (roles (guild w))
                                         (editors_role_name config)) c
                     else c)
               (channels (guild w))))
       (replies w)).
Proof.
  intros Hnow Hgid Ha Hb Hnd Hnaive. unfold sweeper. rewrite Hgid.
  rewrite bind_run. unfold get_guild at 1. cbv beta iota.
  rewrite Z.eqb_refl. cbn [negb].
  rewrite bind_run, (ensure_categories_present api_fails config w a b Ha Hb).
  cbv beta iota. rewrite bind_run. unfold get_guild at 1. cbv beta iota.
  rewrite sweeper_loop_run; [|done|by apply text_channels_NoDup|done|done].
  do 3 f_equal. apply map_ext_in. intros c Hc%list_elem_of_In.
  unfold sweep_of.
  destruct (decide (ch_type c = TextChannel ∧ ch_category c = Some a)) as [H|H].
  - rewrite !bool_decide_eq_true_2; [done|done|].
    by apply text_channels_elem.
  - rewrite !bool_decide_eq_false_2; [done|done|].
    by rewrite text_channels_elem.
Qed.

(** ** Writer mentions *)

(** The tokens the loop of [new_article] passes over: those not of the
    shape ["<@...>"], and those with something else than digits between
    the brackets. *)
Lemma parse_mention_discards (mention : str) :
  startswith (py "<@") mention && endswith (py ">") mention = false
  ∨ str_isdigit (strip_chars (py "<@!>") mention) = false →
  parse_mention mention = Ok [].
Proof.
  unfold parse_mention. intros [->| ->]; [done|].
  by destruct (_ && _).
Qed.

Example parse_mention_examples :
  parse_mention (py "<@7>") = Ok [7]
  ∧ parse_mention (py "<@!7>") = Ok [7]
  ∧ parse_mention (py "@alice") = Ok []
  ∧ parse_mention (py "<@alice>") = Ok []
  ∧ parse_mention (py "<@" ++ [chr 178] ++ py ">") = Raise ValueError.
Proof. split_and!; vm_compute; reflexivity. Qed.

(** C8, failing inputs: a well-formed mention of an id that is not a
    member of the server makes [fetch_member] raise [NotFound], and a token
    whose digits are not decimal (["<@²>"], superscript two) makes [int]
    raise [ValueError]; either way the command reports an error and creates
    no channel, though the other writer is a member. *)
Theorem new_article_unknown_member_fails (timestamp : datetime → result Z) :
  let w := mkWorld (home_guild []) [] in
  let run writers :=
    new_article no_failure timestamp config0 now0 (mkInteraction true 50)
      (py "Budget") (py "2027-01-01 09:00") (Some writers) w in
  run (py "<@7> <@8>") = (Ok tt, mkWorld (home_guild []) [ErrorWhileCreating NotFound])
  ∧ run (py "<@7> <@" ++ [chr 178] ++ py ">")
    = (Ok tt, mkWorld (home_guild []) [ErrorWhileCreating ValueError]).
Proof. cbv zeta. split; vm_compute; reflexivity. Qed.

(** C3, a failing input: the comparison [dl < now] stands outside the
    loop's [try], so a topic whose deadline carries a UTC offset ends the
    tick with [TypeError]; the channel after it, whose deadline decodes and
    is earlier than [now], is left as it was, though alone in the category
    it is archived. *)
Theorem sweeper_stops_at_aware_deadline :
  let w := mkWorld (home_guild [article_utc; article_due]) [] in
  sweeper no_failure config0 now0 w = (Raise TypeError, w)
  ∧ extract_deadline_from_topic (ch_topic article_due)
    = Ok (Some (mkdatetime 2020 1 1 0 0 0 0 None))
  ∧ datetime_lt (mkdatetime 2020 1 1 0 0 0 0 None) now0 = Ok true
  ∧ (sweeper no_failure config0 now0 (mkWorld (home_guild [article_due]) [])).2
    = mkWorld (home_guild [archived 11 1 (Some 2) (add_message DeadlinePassed article_due)]) [].
Proof. cbv zeta. split_and!; vm_compute; reflexivity. Qed.

(** ** More on [parse_when] *)

Lemma strptime_Ok (s fmt : str) (dt : datetime) :
  strptime s fmt = Ok dt →
  valid_datetime dt = true ∧ tzinfo dt = None
  ∧ second dt = 0 ∧ microsecond dt = 0.
Proof.
  unfold strptime.
  destruct (pattern fmt false) as [re|]; [|discriminate].
  destruct (re_all re s) as [|[g rem] ?]; [discriminate|].
  destruct (negb _); [discriminate|].
  intros H.
  do 6 (apply rbind_Ok in H as (? & _ & H)).
  destruct (negb _); [discriminate|].
  apply datetime_new_Ok in H as [-> Hv]. done.
Qed.

Lemma parse_when_loop_Some now s fmts dt :
  parse_when_loop now s fmts = Ok (Some dt) →
  ∃ fmts1 fmt fmts2, fmts = fmts1 ++ fmt :: fmts2
    ∧ (∀ f, f ∈ fmts1 → is_Ok (parse_when_try now s f) = false)
    ∧ parse_when_try now s fmt = Ok dt.
Proof.
  induction fmts as [|f fmts IH]; simpl; [discriminate|].
  destruct (parse_when_try now s f) as [dt'|e] eqn:E.
  - intros [= ->]. exists [], f, fmts. split_and!; [done| |done].
    by intros ? ?%elem_of_nil.
  - destruct e; try discriminate. intros H.
    destruct (IH H) as (fmts1 & fmt & fmts2 & -> & Hfail & Hok).
    exists (f :: fmts1), fmt, fmts2. split_and!; [done| |done].
    intros f' [->|?]%elem_of_cons; [by rewrite E|by apply Hfail].
Qed.

Lemma parse_when_try_inv now s fmt dt :
  parse_when_try now s fmt = Ok dt →
  ∃ dt0, strptime s fmt = Ok dt0
    ∧ valid_datetime dt = true
    ∧ month dt = month dt0 ∧ day dt = day dt0
    ∧ hour dt = hour dt0 ∧ minute dt = minute dt0
    ∧ second dt = second dt0 ∧ microsecond dt = microsecond dt0
    ∧ tzinfo dt = tzinfo dt0
    ∧ year dt = (if contains (py "%Y") fmt then year dt0 else year now).
Proof.
  unfold parse_when_try. intros H.
  apply rbind_Ok in H as (dt0 & Hs & H). exists dt0. split; [done|].
  destruct (contains (py "%Y") fmt); cbn [negb] in H.
  - injection H as <-. apply strptime_Ok in Hs as (? & _). done.
  - apply datetime_new_Ok in H as [-> Hv]. done.
Qed.

(** X2.  What [parse_when] returns is a date that exists, without a UTC offset
    and on the full minute: seconds and microseconds are 0. *)
Theorem parse_when_naive (now : datetime) (s : str) (dt : datetime) :
  parse_when now s = Ok (Some dt) →
  valid_datetime dt = true ∧ tzinfo dt = None
  ∧ second dt = 0 ∧ microsecond dt = 0.
Proof.
  intros H. apply parse_when_loop_Some in H as (_ & fmt & _ & _ & _ & H).
  apply parse_when_try_inv in H
    as (dt0 & Hs & Hv & _ & _ & _ & _ & Hsec & Hus & Htz & _).
  apply strptime_Ok in Hs as (_ & ? & ? & ?).
  split_and!; congruence.
Qed.

Lemma parse_when_naive_witness :
  parse_when now0 (py "2026-12-24 18:30")
  = Ok (Some (mkdatetime 2026 12 24 18 30 0 0 None))
  ∧ tzinfo (mkdatetime 2026 12 24 18 30 0 0 None) = None.
Proof.
  assert (parse_when now0 (py "2026-12-24 18:30")
          = Ok (Some (mkdatetime 2026 12 24 18 30 0 0 None))) as H
    by (vm_compute; reflexivity).
  split; [exact H|].
  exact (proj1 (proj2 (parse_when_naive _ _ _ H))).
Defined.

Lemma year_format (fmt : str) :
  fmt ∈ _DATE_FORMATS → contains (py "%Y") fmt = false →
  fmt = py "%b %d %H:%M".
Proof.
  unfold _DATE_FORMATS. intros Hin.
  repeat (apply elem_of_cons in Hin as [->|Hin]);
    [discriminate|discriminate|discriminate|done|by apply elem_of_nil in Hin].
Qed.

(** X3.  A deadline on 29 February is only ever read by a format with the
    year: the format without one reads the day in the year 1900, which has no
    such day, before the current year is put in; so the short form of 29
    February is refused in a leap year as well. *)
Theorem parse_when_leap_day (now : datetime) (s : str) (dt : datetime) :
  parse_when now s = Ok (Some dt) →
  month dt = 2 → day dt = 29 →
  ∃ fmt, fmt ∈ _DATE_FORMATS ∧ contains (py "%Y") fmt = true
         ∧ strptime (strip s) fmt = Ok dt.
Proof.
  intros H Hm Hd. unfold parse_when in H.
  apply parse_when_loop_Some in H as (fmts1 & fmt & fmts2 & Hsplit & _ & H).
  assert (fmt ∈ _DATE_FORMATS) as Hin.
  { rewrite Hsplit. apply elem_of_app. right. left. }
  destruct (contains (py "%Y") fmt) eqn:HY.
  - exists fmt. split_and!; [done|done|].
    unfold parse_when_try in H. rewrite HY in H.
    by destruct (strptime (strip s) fmt).
  - exfalso.
    apply parse_when_try_inv in H as (dt0 & Hs & _ & Hm0 & Hd0 & _).
    apply year_format in HY as ->; [|done].
    assert (re_directives <$> pattern (py "%b %d %H:%M") false
            = Some [db; dd; dH; dM]) as Hdir by (vm_compute; reflexivity).
    destruct (pattern (py "%b %d %H:%M") false) as [re|] eqn:Hre;
      [|discriminate Hdir].
    injection Hdir as Hdir.
    apply (strptime_no_year _ _ _ _ Hre) in Hs as [H1900 Hv0].
    + revert Hv0. unfold valid_datetime, check_date_fields.
      rewrite H1900, <- Hm0, <- Hd0, Hm, Hd.
      change (29 <=? days_in_month 1900 2) with false.
      by rewrite !andb_false_r.
    + rewrite Hdir. intros H.
      repeat (apply elem_of_cons in H as [H|H]; [discriminate H|]).
      by apply elem_of_nil in H.
Qed.

Lemma parse_when_leap_day_witness :
  parse_when now0 (py "Feb 29 2028 09:00")
  = Ok (Some (mkdatetime 2028 2 29 9 0 0 0 None))
  ∧ (∃ fmt, fmt ∈ _DATE_FORMATS ∧ contains (py "%Y") fmt = true
            ∧ strptime (strip (py "Feb 29 2028 09:00")) fmt
              = Ok (mkdatetime 2028 2 29 9 0 0 0 None))
  ∧ parse_when (mkdatetime 2028 1 10 8 0 0 0 None) (py "Feb 29 09:00") = Ok None.
Proof.
  assert (parse_when now0 (py "Feb 29 2028 09:00")
          = Ok (Some (mkdatetime 2028 2 29 9 0 0 0 None))) as H
    by (vm_compute; reflexivity).
  split_and!; [exact H| |vm_compute; reflexivity].
  exact (parse_when_leap_day _ _ _ H eq_refl eq_refl).
Defined.

(** ** Running a handler step by step *)

Section Run.

Context (api_fails : ApiCall → option exn).

Lemma catch_run {A} (m : M A) (h : exn → M A) (w : World) :
  catch m h w = match m w with
                | (Ok a, w') => (Ok a, w')
                | (Raise e, w') => h e w'
                end.
Proof. done. Qed.

Lemma followup_send_run (r : Reply) (w : World) :
  followup_send api_fails r w
  = match api_fails Followup with
    | Some e => (Raise e, w)
    | None => (Ok tt, mkWorld (guild w) (replies w ++ [r]))
    end.
Proof. unfold followup_send, bind, api. by destruct (api_fails Followup). Qed.

Lemma edit_category_run (ch cat : Z) (w : World) :
  edit_category api_fails ch cat w
  = match api_fails (EditCategory ch) with
    | Some e => (Raise e, w)
    | None => (Ok tt, mkWorld (with_channels (guild w)
                 (update_channel (set_category cat) ch (channels (guild w))))
                 (replies w))
    end.
Proof. unfold edit_category, bind, api. by destruct (api_fails _). Qed.

Lemma edit_overwrites_run (ch : Z) (ow : Overwrites) (w : World) :
  edit_overwrites api_fails ch ow w
  = match api_fails (EditOverwrites ch) with
    | Some e => (Raise e, w)
    | None => (Ok tt, mkWorld (with_channels (guild w)
                 (update_channel (set_overwrites ow) ch (channels (guild w))))
                 (replies w))
    end.
Proof. unfold edit_overwrites, bind, api. by destruct (api_fails _). Qed.

Lemma send_run (ch : Z) (m : Message) (w : World) :
  send api_fails ch m w
  = match api_fails (SendMessage ch) with
    | Some e => (Raise e, w)
    | None => (Ok tt, mkWorld (with_channels (guild w)
                 (update_channel (add_message m) ch (channels (guild w))))
                 (replies w))
    end.
Proof. unfold send, bind, api. by destruct (api_fails _). Qed.

Lemma pin_run (ch : Z) (w : World) :
  pin api_fails ch w
  = match api_fails (PinMessage ch) with
    | Some e => (Raise e, w)
    | None => (Ok tt, mkWorld (with_channels (guild w)
                 (update_channel pin_last ch (channels (guild w))))
                 (replies w))
    end.
Proof. unfold pin, bind, api. by destruct (api_fails _). Qed.

End Run.

(** ** [archive]: where it gets to *)

Section Archive.

Context (api_fails : ApiCall → option exn) (config : BotConfig).

Lemma create_category_replies (name : str) (w : World) :
  replies (create_category api_fails name w).2 = replies w.
Proof.
  unfold create_category, bind, api, get_guild, modify_guild, ret, raise.
  by destruct (api_fails (CreateCategory name)).
Qed.

Lemma ensure_categories_replies (w : World) :
  replies (ensure_categories api_fails config w).2 = replies w.
Proof.
  unfold ensure_categories, create_category, bind, api, get_guild,
    modify_guild, ret, raise.
  destruct (get_by_name _ (active_category_name config));
    destruct (get_by_name _ (archived_category_name config));
    repeat (destruct (api_fails _)); done.
Qed.

Lemma archive_error_run (e : exn) (w : World) :
  match e with
  | Forbidden => followup_send api_fails MissingPermissions
  | _ => followup_send api_fails (ErrorWhileArchiving e)
  end w = followup_send api_fails (archive_error e) w.
Proof. by destruct e. Qed.

Lemma get_channel_set_category (chs : list Channel) (ch cat : Z) :
  get_channel (update_channel (set_category cat) ch chs) ch
  = set_category cat <$> get_channel chs ch.
Proof. by apply get_channel_update. Qed.

(** The body of [archive] once the categories are there. *)
Lemma archive_channel_body (interaction : Interaction) (channel : option Z)
    (w w1 : World) (a b : Z) :
  let ch := default (in_channel interaction) channel in
  let g := guild w in
  in_guild interaction = true →
  api_fails Defer = None →
  ensure_categories api_fails config w = (Ok (a, b), w1) →
  archive_channel api_fails config interaction channel w
  = match get_channel (channels g) ch with
    | Some c =>
        if bool_decide (ch_type c = TextChannel) then
          match api_fails (EditCategory ch) with
          | Some e => followup_send api_fails (archive_error e) w1
          | None =>
              let moved := update_channel (set_category b) ch (channels g) in
              let w2 := mkWorld (with_channels (guild w1) moved) (replies w) in
              match api_fails (EditOverwrites ch) with
              | Some e => followup_send api_fails (archive_error e) w2
              | None =>
                  let cleaned :=
                    archive_channel_cleaned (default_role g)
                      (get_by_name (roles g) (editors_role_name config))
                      (ch_overwrites c) in
                  match api_fails Followup with
                  | Some e =>
                      followup_send api_fails (archive_error e)
                        (mkWorld (with_channels (guild w1)
                                    (update_channel (set_overwrites cleaned) ch moved))
                                 (replies w))
                  | None =>
                      (Ok tt,
                       mkWorld (with_channels (guild w1)
                                  (update_channel (set_overwrites cleaned) ch moved))
                               (replies w ++ [Archived ch]))
                  end
              end
          end
        else followup_send api_fails ChooseTextChannel w1
    | None => followup_send api_fails ChooseTextChannel w1
    end.
Proof.
  intros ch g Hin Hdefer Hens. unfold archive_channel.
  rewrite bind_run, api_run, Hdefer, catch_run, Hin. cbn [negb].
  rewrite bind_run, Hens.
  pose proof (ensure_categories_added api_fails config w) as Hadd.
  pose proof (ensure_categories_replies w) as Hrep.
  rewrite Hens in Hadd, Hrep. cbn [snd] in Hadd, Hrep.
  destruct Hadd as (Hgid & Hroles & Hchs & _).
  rewrite bind_run. unfold get_guild at 1. cbv beta iota.
  replace (match channel with Some c => c | None => in_channel interaction end)
    with ch by (by destruct channel).
  rewrite Hchs. fold g.
  assert (∀ r, followup_send api_fails r w1
               = match api_fails Followup with
                 | Some e => (Raise e, w1)
                 | None => (Ok tt, mkWorld (guild w1) (replies w1 ++ [r]))
                 end) as Hf by (intros; apply followup_send_run).
  destruct (get_channel (channels g) ch) as [c|] eqn:Ec.
  2:{ rewrite Hf. destruct (api_fails Followup) as [e|]; [|done].
      by rewrite archive_error_run. }
  case_bool_decide as Ht.
  2:{ rewrite Hf. destruct (api_fails Followup) as [e|]; [|done].
      by rewrite archive_error_run. }
  rewrite bind_run, edit_category_run.
  destruct (api_fails (EditCategory ch)) as [e|]; [by rewrite archive_error_run|].
  rewrite bind_run. unfold get_guild at 1. cbv beta iota.
  cbn [guild with_channels channels roles].
  rewrite Hchs. fold g.
  rewrite get_channel_set_category, Ec. cbn [fmap option_fmap option_map].
  cbn [set_category ch_overwrites].
  rewrite bind_run, edit_overwrites_run. cbn [guild replies].
  rewrite Hrep.
  destruct (api_fails (EditOverwrites ch)) as [e|];
    [by rewrite archive_error_run|].
  rewrite followup_send_run.
  unfold default_role, with_channels.
  cbn [guild replies channels guild_id categories roles member_cache members
       next_id].
  rewrite Hgid, Hroles.
  destruct (api_fails Followup) as [e|] eqn:Ef; [|done].
  rewrite archive_error_run. done.
Qed.

End Archive.

(** ** What a handler leaves alone *)

#[global] Instance same_server_preorder : PreOrder same_server.
Proof.
  split.
  - intros g. repeat split. exists []. by rewrite app_nil_r.
  - intros g1 g2 g3 (? & ? & ? & ? & new & ?) (? & ? & ? & ? & new' & ?).
    repeat split; try congruence.
    exists (new ++ new'). rewrite app_assoc. congruence.
Qed.

#[global] Instance channels_related_preorder (K : relation Channel) :
  PreOrder K → PreOrder (channels_related K).
Proof.
  intros HK. split.
  - intros g. split; reflexivity.
  - intros g1 g2 g3 [? H12] [? H23]. split; by etrans.
Qed.

#[global] Instance on_guild_preorder (R : relation Guild) :
  PreOrder R → PreOrder (on_guild R).
Proof.
  intros HR. split.
  - intros w. unfold on_guild. reflexivity.
  - intros w1 w2 w3. unfold on_guild. intros. by etrans.
Qed.

#[global] Instance silent_preorder : PreOrder silent.
Proof. split; unfold silent; [by intros w|]. intros w1 w2 w3. congruence. Qed.

#[global] Instance channel_kept_preorder : PreOrder channel_kept.
Proof.
  split.
  - by intros c.
  - intros c1 c2 c3 (? & ? & ? & ? & ?) (? & ? & ? & ? & ?).
    unfold channel_kept. split_and!; congruence.
Qed.

#[global] Instance archive_edit_preorder (ch : Z) : PreOrder (archive_edit ch).
Proof.
  split.
  - intros c. split; [reflexivity|done].
  - intros c1 c2 c3 [H12 E12] [H23 E23]. split; [by etrans|].
    intros Hne. rewrite E23; [by apply E12|].
    destruct H12 as (-> & _). done.
Qed.

Section Keeps.

Context (api_fails : ApiCall → option exn).

Context (R : relation World) `{!PreOrder R}.

Lemma keeps_ret {A} (a : A) : keeps R (ret a).
Proof. intros w. reflexivity. Qed.

Lemma keeps_raise {A} (e : exn) : keeps R (raise (A:=A) e).
Proof. intros w. reflexivity. Qed.

Lemma keeps_lift {A} (r : result A) : keeps R (lift r).
Proof. intros w. reflexivity. Qed.

Lemma keeps_get_guild : keeps R get_guild.
Proof. intros w. reflexivity. Qed.

Lemma keeps_bind {A B} (m : M A) (k : A → M B) :
  keeps R m → (∀ a, keeps R (k a)) → keeps R (bind m k).
Proof.
  intros Hm Hk w. rewrite bind_run. specialize (Hm w).
  destruct (m w) as [[a|e] w']; [|done].
  etrans; [exact Hm|apply Hk].
Qed.

Lemma keeps_catch {A} (m : M A) (h : exn → M A) :
  keeps R m → (∀ e, keeps R (h e)) → keeps R (catch m h).
Proof.
  intros Hm Hh w. rewrite catch_run. specialize (Hm w).
  destruct (m w) as [[a|e] w']; [done|].
  etrans; [exact Hm|apply Hh].
Qed.

Lemma keeps_api (c : ApiCall) : keeps R (api api_fails c).
Proof. intros w. rewrite api_guild. reflexivity. Qed.

Lemma keeps_followup_send (r : Reply) :
  (∀ w, R w (mkWorld (guild w) (replies w ++ [r]))) →
  keeps R (followup_send api_fails r).
Proof.
  intros HR w. rewrite followup_send_run.
  destruct (api_fails Followup); [reflexivity|apply HR].
Qed.

Lemma keeps_modify_guild (ok : Guild → Guild → Prop) (f : Guild → Guild) :
  guild_changes R ok → (∀ g, ok g (f g)) → keeps R (modify_guild f).
Proof. intros HR Hf w. apply HR, Hf. Qed.

Lemma keeps_create_category (ok : Guild → Guild → Prop) (name : str) :
  guild_changes R ok →
  (∀ g, ok g (with_new_category g name)) →
  keeps R (create_category api_fails name).
Proof.
  intros HR Hok. unfold create_category.
  apply keeps_bind; [apply keeps_api|]. intros _.
  apply keeps_bind; [apply keeps_get_guild|]. intros g.
  apply keeps_bind; [|intros _; apply keeps_ret].
  eapply keeps_modify_guild; [done|]. intros g'. apply Hok.
Qed.

Lemma keeps_ensure_categories (ok : Guild → Guild → Prop) (config : BotConfig) :
  guild_changes R ok →
  (∀ g name, ok g (with_new_category g name)) →
  keeps R (ensure_categories api_fails config).
Proof.
  intros HR Hok. unfold ensure_categories.
  apply keeps_bind; [apply keeps_get_guild|]. intros g.
  apply keeps_bind.
  { destruct (get_by_name _ _);
      [apply keeps_ret|by eapply keeps_create_category]. }
  intros a. apply keeps_bind; [|intros b; apply keeps_ret].
  destruct (get_by_name _ _); [apply keeps_ret|by eapply keeps_create_category].
Qed.

Lemma keeps_on_channel (ok : Guild → Guild → Prop) (f : Channel → Channel)
    (ch : Z) :
  guild_changes R ok →
  (∀ g, ok g (with_channels g (update_channel f ch (channels g)))) →
  keeps R (on_channel f ch).
Proof. intros HR Hok. by eapply keeps_modify_guild. Qed.

Lemma keeps_fetch_member (uid : Z) : keeps R (fetch_member api_fails uid).
Proof.
  unfold fetch_member.
  apply keeps_bind; [apply keeps_api|]. intros _.
  apply keeps_bind; [apply keeps_get_guild|]. intros g.
  destruct (decide _); [apply keeps_ret|apply keeps_raise].
Qed.

Lemma keeps_resolve_members (uids allowed : list Z) (ow : Overwrites) :
  keeps R (resolve_members api_fails uids allowed ow).
Proof.
  revert allowed ow. induction uids as [|uid uids IH]; intros allowed ow.
  - apply keeps_ret.
  - cbn [resolve_members].
    apply keeps_bind; [apply keeps_get_guild|]. intros g.
    apply keeps_bind.
    { destruct (get_member g uid); [apply keeps_ret|].
      apply keeps_bind; [apply keeps_fetch_member|]. intros m. apply keeps_ret. }
    intros [m|]; apply IH.
Qed.

End Keeps.

Lemma silent_guild_changes : guild_changes silent (λ _ _, True).
Proof. by intros w g _. Qed.

Lemma on_guild_changes (R : relation Guild) : guild_changes (on_guild R) R.
Proof. intros w g H. exact H. Qed.

Lemma channels_related_categories (K : relation Channel) `{!PreOrder K}
    (g : Guild) (name : str) :
  channels_related K g (with_new_category g name).
Proof.
  split; [repeat split; by eexists|]. simpl. reflexivity.
Qed.

Lemma channels_related_update (K : relation Channel) `{!PreOrder K}
    (f : Channel → Channel) (ch : Z) (g : Guild) :
  (∀ c, ch_id c = ch → K c (f c)) →
  channels_related K g (with_channels g (update_channel f ch (channels g))).
Proof.
  intros Hf. split; [repeat split; exists []; by rewrite app_nil_r|]. simpl.
  unfold update_channel. apply Forall2_fmap_r, Forall_Forall2_diag, Forall_forall.
  intros c _. unfold compose. destruct (ch_id c =? ch) eqn:E; [|reflexivity].
  apply Hf. by apply Z.eqb_eq.
Qed.

(** X4.  Whatever the platform refuses, [archive] changes nothing of the
    server but the category and the overwrites of the channel it is aimed at
    (and the categories [ensure_categories] adds). *)
Theorem archive_channel_frame (api_fails : ApiCall → option exn)
    (config : BotConfig) (interaction : Interaction) (channel : option Z)
    (w : World) :
  channels_related (archive_edit (default (in_channel interaction) channel))
    (guild w)
    (guild (archive_channel api_fails config interaction channel w).2).
Proof.
  set (ch := default (in_channel interaction) channel).
  set (Rg := channels_related (archive_edit ch)).
  pose proof (on_guild_changes Rg) as HR.
  assert (∀ g name, Rg g (with_new_category g name)) as Hcat
    by (intros; apply channels_related_categories; apply _).
  assert (∀ f, (∀ c, channel_kept c (f c)) →
               keeps (on_guild Rg) (on_channel f ch)) as Hon.
  { intros f Hf. eapply keeps_on_channel; [done|]. intros g.
    apply channels_related_update; [apply _|].
    intros c Hc. split; [apply Hf|]. by intros []. }
  assert (∀ r, keeps (on_guild Rg) (followup_send api_fails r)) as Hsend.
  { intros r. apply keeps_followup_send; [apply _|]. intros w'.
    unfold on_guild. reflexivity. }
  revert w.
  change (keeps (on_guild Rg)
            (archive_channel api_fails config interaction channel)).
  unfold archive_channel.
  apply keeps_bind; [apply _|apply keeps_api; apply _|]. intros _.
  apply keeps_catch; [apply _| |].
  2:{ intros e. destruct e; apply Hsend. }
  destruct (negb _); [apply Hsend|].
  apply keeps_bind; [apply _|by eapply keeps_ensure_categories; [apply _|..]|].
  intros [a b].
  replace (match channel with Some c => c | None => in_channel interaction end)
    with ch by (by destruct channel).
  apply keeps_bind; [apply _|apply keeps_get_guild; apply _|]. intros g.
  destruct (get_channel _ _) as [c|]; [|apply Hsend].
  case_bool_decide; [|apply Hsend].
  apply keeps_bind; [apply _| |].
  { unfold edit_category.
    apply keeps_bind; [apply _|apply keeps_api; apply _|]. intros _.
    apply Hon. by intros []. }
  intros _. apply keeps_bind; [apply _|apply keeps_get_guild; apply _|]. intros g'.
  apply keeps_bind; [apply _| |intros _; apply Hsend].
  unfold edit_overwrites.
  apply keeps_bind; [apply _|apply keeps_api; apply _|]. intros _.
  apply Hon. by intros [].
Qed.

(** ** One reply for every command *)

Section Answers.

Context (api_fails : ApiCall → option exn) (timestamp : datetime → result Z).

Hypothesis followup_ok : api_fails Followup = None.

Lemma answers_followup_send (r : Reply) : answers (followup_send api_fails r).
Proof.
  intros w. rewrite followup_send_run, followup_ok. simpl. by eexists.
Qed.

Lemma answers_bind {A B} (m : M A) (k : A → M B) :
  keeps silent m → (∀ a, answers (k a)) → answers (bind m k).
Proof.
  intros Hm Hk w. rewrite bind_run. specialize (Hm w). unfold silent in Hm.
  destruct (m w) as [[a|e] w']; simpl in *; [|done].
  specialize (Hk a w'). rewrite Hm in Hk. done.
Qed.

Lemma answers_catch (m : M unit) (h : exn → Reply) (w : World) :
  answers m →
  ∃ r w', catch m (λ e, followup_send api_fails (h e)) w = (Ok tt, w')
          ∧ replies w' = replies w ++ [r].
Proof.
  intros Hm. rewrite catch_run. specialize (Hm w).
  destruct (m w) as [[[]|e] w']; simpl in *.
  - destruct Hm as [r Hr]. by exists r, w'.
  - rewrite followup_send_run, followup_ok. eexists _, _. split; [done|].
    simpl. by rewrite Hm.
Qed.

Lemma catch_ext {A} (m : M A) (h h' : exn → M A) (w : World) :
  (∀ e w', h e w' = h' e w') → catch m h w = catch m h' w.
Proof. intros H. rewrite !catch_run. by destruct (m w) as [[?|?] ?]. Qed.

Lemma silent_ensure_categories (config : BotConfig) :
  keeps silent (ensure_categories api_fails config).
Proof.
  eapply keeps_ensure_categories; [apply _|apply silent_guild_changes|done].
Qed.

Lemma silent_on_channel (f : Channel → Channel) (ch : Z) :
  keeps silent (on_channel f ch).
Proof.
  eapply keeps_on_channel; [apply silent_guild_changes|done].
Qed.

Lemma silent_call (c : ApiCall) (f : Channel → Channel) (ch : Z) :
  keeps silent (api api_fails c ;; on_channel f ch).
Proof.
  apply keeps_bind; [apply _|apply keeps_api; apply _|].
  intros _. apply silent_on_channel.
Qed.

Lemma silent_create_text_channel name cat ow topic :
  keeps silent (create_text_channel api_fails name cat ow topic).
Proof.
  unfold create_text_channel.
  apply keeps_bind; [apply _|apply keeps_api; apply _|]. intros _.
  apply keeps_bind; [apply _|apply keeps_get_guild; apply _|]. intros g.
  apply keeps_bind; [apply _| |intros _; apply keeps_ret; apply _].
  eapply keeps_modify_guild; [apply silent_guild_changes|done].
Qed.

Lemma answers_archive_channel_body (config : BotConfig)
    (interaction : Interaction) (channel : option Z) :
  answers
    (if negb (in_guild interaction)
     then followup_send api_fails MustBeInServer
     else
       let! (_, archived_cat) := ensure_categories api_fails config in
       let ch := match channel with
                 | Some c => c
                 | None => in_channel interaction
                 end in
       let! g := get_guild in
       match get_channel (channels g) ch with
       | Some c =>
           if bool_decide (ch_type c = TextChannel) then
             edit_category api_fails ch archived_cat ;;
             let! g := get_guild in
             let editors_role :=
               get_by_name (roles g) (editors_role_name config) in
             let overwrites :=
               match get_channel (channels g) ch with
               | Some c => ch_overwrites c
               | None => ∅
               end in
             let cleaned :=
               archive_channel_cleaned (default_role g) editors_role
                                       overwrites in
             edit_overwrites api_fails ch cleaned ;;
             followup_send api_fails (Archived ch)
           else followup_send api_fails ChooseTextChannel
       | None => followup_send api_fails ChooseTextChannel
       end).
Proof.
  destruct (negb _); [apply answers_followup_send|].
  apply answers_bind; [apply silent_ensure_categories|]. intros [a b].
  apply answers_bind; [apply keeps_get_guild; apply _|]. intros g.
  destruct (get_channel _ _); [|apply answers_followup_send].
  case_bool_decide; [|apply answers_followup_send].
  apply answers_bind; [apply silent_call|]. intros _.
  apply answers_bind; [apply keeps_get_guild; apply _|]. intros g'.
  apply answers_bind; [apply silent_call|]. intros _.
  apply answers_followup_send.
Qed.

Lemma answers_new_article_body (config : BotConfig) (now : datetime)
    (interaction : Interaction) (title deadline : str) (writers : option str) :
  answers
    (if negb (in_guild interaction) then followup_send api_fails MustBeInServer
     else
       let! dt := lift (parse_when now deadline) in
       match dt with
       | None => followup_send api_fails BadDeadline
       | Some dt =>
           let! (active_cat, _) := ensure_categories api_fails config in
           let! g := get_guild in
           let editors_role :=
             get_by_name (roles g) (editors_role_name config) in
           let channel_name := slugify title in
           let overwrites : Overwrites :=
             {[ Role (default_role g) :=
                  mkPermissionOverwrite (Some false) None None None ]} in
           let overwrites :=
             match editors_role with
             | Some e =>
                 <[Role e := mkPermissionOverwrite (Some true) (Some true)
                                                   (Some true) (Some true)]>
                   overwrites
             | None => overwrites
             end in
           let! user_ids := lift (writer_ids writers) in
           let! (allowed_users, overwrites) :=
             resolve_members api_fails (remove_dups user_ids) [] overwrites in
           let topic := article_topic title dt in
           let! channel :=
             create_text_channel api_fails channel_name active_cat overwrites
                                 topic in
           let! ts := lift (timestamp dt) in
           send api_fails channel
             (Checklist title
                (match writers with
                 | Some w => if bool_decide (w = []) then None
                             else Some (join (py " ") (split w))
                 | None => None
                 end) ts) ;;
           catch (pin api_fails channel)
                 (λ e, match e with Forbidden => ret tt | _ => raise e end) ;;
           followup_send api_fails (Created channel allowed_users)
       end).
Proof.
  destruct (negb _); [apply answers_followup_send|].
  apply answers_bind; [apply keeps_lift; apply _|]. intros [dt|];
    [|apply answers_followup_send].
  apply answers_bind; [apply silent_ensure_categories|]. intros [a b].
  apply answers_bind; [apply keeps_get_guild; apply _|]. intros g.
  cbv zeta.
  apply answers_bind; [apply keeps_lift; apply _|]. intros ids.
  apply answers_bind; [apply keeps_resolve_members; apply _|]. intros [al ow].
  apply answers_bind; [apply silent_create_text_channel|]. intros ch.
  apply answers_bind; [apply keeps_lift; apply _|]. intros ts.
  apply answers_bind; [apply silent_call|]. intros _.
  apply answers_bind; [|intros _; apply answers_followup_send].
  apply keeps_catch; [apply _|apply silent_call|].
  intros e. destruct e; first [apply keeps_ret|apply keeps_raise]; apply _.
Qed.

End Answers.

(** X5.  Once the interaction is acknowledged and as long as the follow-up
    message goes through, [new_article] and [archive] return, and have told
    the user exactly one thing, whatever else the platform refuses. *)
Theorem commands_reply_once (api_fails : ApiCall → option exn)
    (timestamp : datetime → result Z) (config : BotConfig) :
  api_fails Defer = None → api_fails Followup = None →
  (∀ now interaction title deadline writers w,
     ∃ r w', new_article api_fails timestamp config now interaction title
                         deadline writers w = (Ok tt, w')
             ∧ replies w' = replies w ++ [r])
  ∧ (∀ interaction channel w,
       ∃ r w', archive_channel api_fails config interaction channel w
               = (Ok tt, w')
               ∧ replies w' = replies w ++ [r]).
Proof.
  intros Hdefer Hfollow. split.
  - intros now interaction title deadline writers w. unfold new_article.
    rewrite bind_run, api_run, Hdefer.
    pose proof (answers_catch api_fails Hfollow _
      (λ e, match e with Forbidden => MissingPermissions
                       | _ => ErrorWhileCreating e end) w
      (answers_new_article_body api_fails timestamp Hfollow config now
         interaction title deadline writers)) as (r & w' & E & Hr).
    exists r, w'. split; [|done]. rewrite <- E.
    apply catch_ext. by intros [].
  - intros interaction channel w. unfold archive_channel.
    rewrite bind_run, api_run, Hdefer.
    pose proof (answers_catch api_fails Hfollow _ archive_error w
      (answers_archive_channel_body api_fails Hfollow config interaction
         channel)) as (r & w' & E & Hr).
    exists r, w'. split; [|done]. rewrite <- E.
    apply catch_ext. by intros [].
Qed.

(** ** [archive]: the outcome *)

Lemma update_channel_unique (f h : Channel → Channel) (i : Z)
    (chs : list Channel) (c : Channel) :
  NoDup (ch_id <$> chs) → get_channel chs i = Some c → f c = h c →
  update_channel f i chs = update_channel h i chs.
Proof.
  intros Hnd Hc Hfh. apply update_channel_ext. intros c' Hin Hid.
  by rewrite (get_channel_unique chs i c c' Hnd Hc Hin Hid).
Qed.

(** The scenario's overwrites are those of a cached member and of the
    default role. *)
Lemma cached_targets_writer_overwrites (chs : list Channel) :
  cached_targets (cached_guild chs) writer_overwrites.
Proof.
  intros t [p Ht]. unfold writer_overwrites in Ht.
  apply lookup_insert_Some in Ht as [[<- _]|[_ Ht]]; [by left|].
  apply lookup_singleton_Some in Ht as [<- _].
  exact (proj2 (elem_of_singleton (C:=gset Z) 7 7) eq_refl).
Qed.

(** X6.  [archive] on a text channel whose overwrites are those of cached
    members and of roles of the guild, when the platform refuses nothing: the
    channel is moved to the Archived category and gets the archived-state
    overwrites, every other channel stays as it is, and the user is told. *)
Theorem archive_channel_archives (api_fails : ApiCall → option exn)
    (config : BotConfig) (interaction : Interaction) (channel : option Z)
    (w w1 : World) (a b : Z) (c : Channel) :
  let ch := default (in_channel interaction) channel in
  in_guild interaction = true →
  api_fails Defer = None →
  api_fails (EditCategory ch) = None →
  api_fails (EditOverwrites ch) = None →
  api_fails Followup = None →
  ensure_categories api_fails config w = (Ok (a, b), w1) →
  NoDup (ch_id <$> channels (guild w)) →
  get_channel (channels (guild w)) ch = Some c →
  ch_type c = TextChannel →
  cached_targets (guild w) (ch_overwrites c) →
  archive_channel api_fails config interaction channel w
  = (Ok tt,
     mkWorld
       (with_channels (guild w1)
          (update_channel
             (archived b (default_role (guild w))
                (get_by_name (roles (guild w)) (editors_role_name config)))
             ch (channels (guild w))))
       (replies w ++ [Archived ch])).
Proof.
  intros ch Hin Hdefer Hcat How Hfollow Hens Hnd Hc Ht _.
  rewrite (archive_channel_body api_fails config interaction channel w w1 a b
             Hin Hdefer Hens).
  cbv zeta. fold ch. rewrite Hc, bool_decide_eq_true_2 by done.
  rewrite Hcat, How, Hfollow. do 3 f_equal.
  rewrite update_channel_compose by done.
  by apply (update_channel_unique _ _ _ _ c).
Qed.

Lemma archive_channel_archives_witness :
  archive_channel no_failure config0 (mkInteraction true 21) None
    (mkWorld (cached_guild [article_utc; article_due]) [])
  = (Ok tt,
     mkWorld (cached_guild [article_utc; archived 11 1 (Some 2) article_due])
             [Archived 21]).
Proof.
  apply (archive_channel_archives no_failure config0 (mkInteraction true 21) None
           (mkWorld (cached_guild [article_utc; article_due]) [])
           (mkWorld (cached_guild [article_utc; article_due]) [])
           10 11 article_due); try reflexivity.
  - apply (bool_decide_unpack _). vm_compute. exact I.
  - apply cached_targets_writer_overwrites.
Defined.

(** X7.  [archive] is two edits and not one: when the platform takes the move
    and refuses the overwrites, the channel stays in the Archived category
    with the overwrites it had, and the user is told of an error; when it
    refuses the move, no channel has changed. *)
Theorem archive_channel_refused (api_fails : ApiCall → option exn)
    (config : BotConfig) (interaction : Interaction) (channel : option Z)
    (w w1 : World) (a b : Z) (c : Channel) (e : exn) :
  let ch := default (in_channel interaction) channel in
  in_guild interaction = true →
  api_fails Defer = None →
  api_fails Followup = None →
  ensure_categories api_fails config w = (Ok (a, b), w1) →
  get_channel (channels (guild w)) ch = Some c →
  ch_type c = TextChannel →
  (api_fails (EditCategory ch) = Some e →
   archive_channel api_fails config interaction channel w
   = (Ok tt, mkWorld (guild w1) (replies w ++ [archive_error e])))
  ∧ (api_fails (EditCategory ch) = None →
     api_fails (EditOverwrites ch) = Some e →
     archive_channel api_fails config interaction channel w
     = (Ok tt,
        mkWorld (with_channels (guild w1)
                   (update_channel (set_category b) ch (channels (guild w))))
                (replies w ++ [archive_error e]))).
Proof.
  intros ch Hin Hdefer Hfollow Hens Hc Ht.
  rewrite (archive_channel_body api_fails config interaction channel w w1 a b
             Hin Hdefer Hens).
  cbv zeta. fold ch. rewrite Hc, bool_decide_eq_true_2 by done.
  pose proof (ensure_categories_replies api_fails config w) as Hrep.
  rewrite Hens in Hrep. cbn [snd] in Hrep.
  split.
  - intros ->. by rewrite followup_send_run, Hfollow, Hrep.
  - intros -> ->. by rewrite followup_send_run, Hfollow.
Qed.

Lemma archive_channel_refused_witness :
  archive_channel overwrites_refused config0 (mkInteraction true 21) None
    (mkWorld (home_guild [article_due]) [])
  = (Ok tt,
     mkWorld (home_guild [set_category 11 article_due]) [MissingPermissions]).
Proof.
  apply (archive_channel_refused overwrites_refused config0
           (mkInteraction true 21) None
           (mkWorld (home_guild [article_due]) [])
           (mkWorld (home_guild [article_due]) [])
           10 11 article_due Forbidden); reflexivity.
Defined.

Lemma commands_reply_once_witness :
  ∃ r w', archive_channel overwrites_refused config0 (mkInteraction true 21) None
            (mkWorld (home_guild [article_due]) []) = (Ok tt, w')
          ∧ replies w' = [] ++ [r].
Proof.
  exact (proj2 (commands_reply_once overwrites_refused (λ _, Ok 0) config0
                  eq_refl eq_refl)
           (mkInteraction true 21) None (mkWorld (home_guild [article_due]) [])).
Defined.

(** ** [new_article]: the overwrites and the members *)

Section NewArticle.

Context (api_fails : ApiCall → option exn) (timestamp : datetime → result Z).

Context (config : BotConfig).

Lemma create_text_channel_run name cat ow topic (w : World) :
  create_text_channel api_fails name cat ow topic w
  = match api_fails (CreateTextChannel name) with
    | Some e => (Raise e, w)
    | None =>
        (Ok (next_id (guild w)),
         mkWorld (with_new_channel (guild w)
                    (mkChannel (next_id (guild w)) TextChannel name (Some topic)
                               (Some cat) ow []))
                 (replies w))
    end.
Proof.
  unfold create_text_channel, bind, api, get_guild, modify_guild, ret, raise.
  by destruct (api_fails _).
Qed.

Lemma resolve_members_world uids allowed ow (w : World) :
  (resolve_members api_fails uids allowed ow w).2 = w.
Proof.
  symmetry. apply (keeps_resolve_members api_fails eq). 
Qed.

Lemma resolve_members_Ok uids allowed ow (w : World) al ow' w' :
  resolve_members api_fails uids allowed ow w = (Ok (al, ow'), w') →
  al = allowed ++ uids
  ∧ ow' = foldl (λ ow u, <[Member u := writer_overwrite]> ow) ow uids
  ∧ (∀ u, u ∈ uids → u ∈ member_cache (guild w) ∨ u ∈ members (guild w)).
Proof.
  revert allowed ow. induction uids as [|uid uids IH]; intros allowed ow.
  - cbn. intros [= <- <- <-]. rewrite app_nil_r. split_and!; [done..|].
    by intros ? ?%elem_of_nil.
  - cbn [resolve_members]. rewrite bind_run. unfold get_guild at 1.
    cbv beta iota. rewrite bind_run. unfold get_member.
    destruct (decide (uid ∈ member_cache (guild w))) as [Hc|Hc].
    + unfold ret at 1. cbv beta iota. intros H.
      apply IH in H as (-> & -> & Hm). rewrite <- app_assoc.
      split_and!; [done..|].
      intros u [->|?]%elem_of_cons; [by left|by apply Hm].
    + rewrite bind_run. unfold fetch_member. rewrite bind_run, api_run.
      destruct (api_fails (FetchMember uid)); [discriminate|].
      rewrite bind_run. unfold get_guild at 1. cbv beta iota.
      destruct (decide (uid ∈ members (guild w))) as [Hm|Hm];
        [|discriminate].
      unfold ret at 1 2. cbv beta iota. intros H.
      apply IH in H as (-> & -> & Hm'). rewrite <- app_assoc.
      split_and!; [done..|].
      intros u [->|?]%elem_of_cons; [by right|by apply Hm'].
Qed.




End NewArticle.

(** ** [new_article]: from the creation of the channel on *)

Lemma update_channel_fresh (f : Channel → Channel) (chs : list Channel)
    (c : Channel) :
  (∀ c', c' ∈ chs → ch_id c' ≠ ch_id c) →
  update_channel f (ch_id c) (chs ++ [c]) = chs ++ [f c].
Proof.
  intros Hfresh. unfold update_channel. rewrite map_app. simpl.
  rewrite Z.eqb_refl. f_equal.
  rewrite <- (map_id chs) at 2. apply map_ext_in.
  intros c' Hc'%list_elem_of_In.
  destruct (ch_id c' =? ch_id c) eqn:E; [|done].
  apply Z.eqb_eq in E. by destruct (Hfresh c' Hc').
Qed.

Section NewArticleRun.

Context (api_fails : ApiCall → option exn) (timestamp : datetime → result Z).

Context (config : BotConfig).

Lemma new_article_error_run (e : exn) (w : World) :
  match e with
  | Forbidden => followup_send api_fails MissingPermissions
  | _ => followup_send api_fails (ErrorWhileCreating e)
  end w = followup_send api_fails (new_article_error e) w.
Proof. by destruct e. Qed.

(** [new_article] from the point where the channel is created. *)
Lemma new_article_created (now : datetime) (interaction : Interaction)
    (title deadline : str) (writers : option str) (w w1 : World) (a b : Z)
    (dt : datetime) (ids al : list Z) (ow : Overwrites) :
  let g1 := guild w1 in
  let ch := next_id g1 in
  let c0 := mkChannel ch TextChannel (slugify title)
              (Some (article_topic title dt)) (Some a) ow [] in
  let world ms rs :=
    mkWorld (with_new_channel g1 (set_messages ms c0)) rs in
  let finish ms :=
    match api_fails Followup with
    | Some e => followup_send api_fails (new_article_error e)
                  (world ms (replies w))
    | None => (Ok tt, world ms (replies w ++ [Created ch al]))
    end in
  in_guild interaction = true →
  api_fails Defer = None →
  parse_when now deadline = Ok (Some dt) →
  ensure_categories api_fails config w = (Ok (a, b), w1) →
  writer_ids writers = Ok ids →
  resolve_members api_fails (remove_dups ids) []
    (article_overwrites (default_role g1)
       (get_by_name (roles g1) (editors_role_name config))) w1
  = (Ok (al, ow), w1) →
  api_fails (CreateTextChannel (slugify title)) = None →
  (∀ c, c ∈ channels g1 → ch_id c ≠ ch) →
  new_article api_fails timestamp config now interaction title deadline
              writers w
  = match timestamp dt with
    | Raise e =>
        followup_send api_fails (new_article_error e) (world [] (replies w))
    | Ok ts =>
        let m := Checklist title (checklist_writers writers) ts in
        match api_fails (SendMessage ch) with
        | Some e =>
            followup_send api_fails (new_article_error e)
              (world [] (replies w))
        | None =>
            match api_fails (PinMessage ch) with
            | None => finish [(m, true)]
            | Some Forbidden => finish [(m, false)]
            | Some e =>
                followup_send api_fails (new_article_error e)
                  (world [(m, false)] (replies w))
            end
        end
    end.
Proof.
  intros g1 ch c0 world finish Hin Hdefer Hparse Hens Hids Hres Hcreate Hfresh.
  pose proof (ensure_categories_replies api_fails config w) as Hrep.
  rewrite Hens in Hrep. cbn [snd] in Hrep.
  unfold new_article.
  rewrite bind_run, api_run, Hdefer, catch_run, Hin. cbn [negb].
  rewrite bind_run. unfold lift at 1. rewrite Hparse. cbv beta iota.
  rewrite bind_run, Hens. cbv beta iota.
  rewrite bind_run. unfold get_guild at 1. cbv beta iota zeta.
  rewrite bind_run. unfold lift at 1. rewrite Hids. cbv beta iota.
  rewrite bind_run. fold g1.
  fold (article_overwrites (default_role g1)
          (get_by_name (roles g1) (editors_role_name config))).
  rewrite Hres. cbv beta iota.
  rewrite bind_run, create_text_channel_run, Hcreate. fold g1 ch c0.
  rewrite Hrep.
  rewrite bind_run. unfold lift at 1. cbv beta iota.
  assert (world [] (replies w)
          = mkWorld (with_new_channel g1 c0) (replies w)) as <- by done.
  destruct (timestamp dt) as [ts|e]; [|apply new_article_error_run].
  fold (checklist_writers writers).
  rewrite bind_run, send_run.
  destruct (api_fails (SendMessage ch)) as [e|];
    [apply new_article_error_run|].
  assert (∀ f ms, (∀ c, f c = set_messages (ch_messages (f c)) c) →
            update_channel f ch (channels g1 ++ [set_messages ms c0])
            = channels g1 ++ [set_messages (ch_messages (f (set_messages ms c0)))
                                           c0]) as Hupd.
  { intros f ms Hf.
    change ch with (ch_id (set_messages ms c0)).
    rewrite (update_channel_fresh f (channels g1) (set_messages ms c0))
      by done.
    by rewrite Hf. }
  unfold world at 1 2 3. cbn [guild replies with_new_channel channels].
  rewrite Hupd by done.
  rewrite bind_run, catch_run, pin_run.
  cbn [guild replies with_channels channels guild_id categories roles
       member_cache members next_id].
  destruct (api_fails (PinMessage ch)) as [e|].
  - destruct e; unfold ret, raise; cbv beta iota; try reflexivity.
    rewrite followup_send_run. subst finish. cbv beta.
    destruct (api_fails Followup) as [e|]; [|reflexivity].
    rewrite new_article_error_run. reflexivity.
  - rewrite Hupd by done.
    rewrite followup_send_run. subst finish. cbv beta.
    destruct (api_fails Followup) as [e|]; [|reflexivity].
    rewrite new_article_error_run. reflexivity.
Qed.

End NewArticleRun.

(** ** [new_article]: the outcome *)

#[global] Instance next_id_le_preorder : PreOrder next_id_le.
Proof. split; unfold next_id_le; [by intros g|]. intros g1 g2 g3. lia. Qed.

Lemma fresh_ids_home (chs : list Channel) :
  Forall (λ c, ch_id c < 100) chs → fresh_ids (home_guild chs).
Proof. intros H c Hc. by apply (proj1 (Forall_forall _ _) H). Qed.

Section NewArticleSpec.

Context (api_fails : ApiCall → option exn) (timestamp : datetime → result Z).

Context (config : BotConfig).

Lemma ensure_categories_next_id (w : World) :
  next_id (guild w) ≤ next_id (guild (ensure_categories api_fails config w).2).
Proof.
  apply (keeps_ensure_categories api_fails (on_guild next_id_le) next_id_le).
  - apply on_guild_changes.
  - intros g name. unfold next_id_le. simpl. lia.
Qed.

Lemma ensure_categories_fresh (w w1 : World) (ab : Z * Z) :
  fresh_ids (guild w) →
  ensure_categories api_fails config w = (Ok ab, w1) →
  ∀ c, c ∈ channels (guild w1) → ch_id c ≠ next_id (guild w1).
Proof.
  intros Hfresh Hens c Hc.
  pose proof (ensure_categories_next_id w) as Hle.
  pose proof (ensure_categories_added api_fails config w) as Hadd.
  rewrite Hens in Hle, Hadd. cbn [snd] in Hle, Hadd.
  destruct Hadd as (_ & _ & Hchs & _). rewrite Hchs in Hc.
  apply Hfresh in Hc. lia.
Qed.




End NewArticleSpec.



Section NewArticleFrame.

Context (api_fails : ApiCall → option exn) (timestamp : datetime → result Z).

Context (config : BotConfig).

(** Where [new_article] leaves the guild: as it was, with the categories
    [ensure_categories] added, or with the new channel as well. *)
Lemma new_article_guild (now : datetime) (interaction : Interaction)
    (title deadline : str) (writers : option str) (w : World) :
  fresh_ids (guild w) →
  let g' := guild (new_article api_fails timestamp config now interaction
                               title deadline writers w).2 in
  let w1 := (ensure_categories api_fails config w).2 in
  g' = guild w ∨ g' = guild w1
  ∨ ∃ a b dt ow ms,
      (ensure_categories api_fails config w).1 = Ok (a, b)
      ∧ parse_when now deadline = Ok (Some dt)
      ∧ g' = with_new_channel (guild w1)
               (article_channel (next_id (guild w1)) title dt a ow ms).
Proof.
  intros Hfresh g' w1.
  destruct (api_fails Defer) as [e|] eqn:Hdefer.
  { left. subst g'. unfold new_article. by rewrite bind_run, api_run, Hdefer. }
  destruct (in_guild interaction) eqn:Hin.
  2:{ left. apply input_error_guild. by left. }
  destruct (parse_when now deadline) as [[dt|]|e] eqn:Hparse.
  2:{ left. apply input_error_guild. by right. }
  2:{ left. subst g'. unfold new_article.
      rewrite bind_run, api_run, Hdefer.
      erewrite catch_report_guild; [|reflexivity|intros; apply report_guild].
      rewrite Hin. cbn [negb]. rewrite bind_run. unfold lift. by rewrite Hparse. }
  assert (∀ m : M unit,
            guild ((api api_fails Defer ;;
                    catch m (λ e, match e with
                                  | Forbidden =>
                                      followup_send api_fails MissingPermissions
                                  | _ => followup_send api_fails
                                           (ErrorWhileCreating e)
                                  end)) w).2
            = guild (m w).2) as Hcatch.
  { intros m. rewrite bind_run, api_run, Hdefer.
    erewrite catch_report_guild; [|reflexivity|intros; apply report_guild].
    done. }
  destruct (ensure_categories api_fails config w) as [[[a b]|e] w1'] eqn:Hens;
    cbn [fst snd] in w1; subst w1.
  2:{ right. left. subst g'. unfold new_article. rewrite Hcatch, Hin.
      cbn [negb]. rewrite bind_run. unfold lift at 1. rewrite Hparse.
      cbv beta iota. by rewrite bind_run, Hens. }
  rename w1' into w1.
  destruct (writer_ids writers) as [ids|e] eqn:Hids.
  2:{ right. left. subst g'. unfold new_article. rewrite Hcatch, Hin.
      cbn [negb]. rewrite bind_run. unfold lift at 1. rewrite Hparse.
      cbv beta iota. rewrite bind_run, Hens. cbv beta iota.
      rewrite bind_run. unfold get_guild at 1. cbv beta iota zeta.
      rewrite bind_run. unfold lift at 1. by rewrite Hids. }
  pose proof (resolve_members_world api_fails (remove_dups ids) []
                (article_overwrites (default_role (guild w1))
                   (get_by_name (roles (guild w1)) (editors_role_name config)))
                w1) as Hw.
  destruct (resolve_members api_fails (remove_dups ids) []
              (article_overwrites (default_role (guild w1))
                 (get_by_name (roles (guild w1)) (editors_role_name config)))
              w1) as [[[al ow]|e] w2] eqn:Hres; cbn [snd] in Hw; subst w2.
  2:{ right. left. subst g'. unfold new_article. rewrite Hcatch, Hin.
      cbn [negb]. rewrite bind_run. unfold lift at 1. rewrite Hparse.
      cbv beta iota. rewrite bind_run, Hens. cbv beta iota.
      rewrite bind_run. unfold get_guild at 1. cbv beta iota zeta.
      rewrite bind_run. unfold lift at 1. rewrite Hids. cbv beta iota.
      rewrite bind_run.
      fold (article_overwrites (default_role (guild w1))
              (get_by_name (roles (guild w1)) (editors_role_name config))).
      by rewrite Hres. }
  destruct (api_fails (CreateTextChannel (slugify title))) as [e|] eqn:Hcreate.
  { right. left. subst g'. unfold new_article. rewrite Hcatch, Hin.
    cbn [negb]. rewrite bind_run. unfold lift at 1. rewrite Hparse.
    cbv beta iota. rewrite bind_run, Hens. cbv beta iota.
    rewrite bind_run. unfold get_guild at 1. cbv beta iota zeta.
    rewrite bind_run. unfold lift at 1. rewrite Hids. cbv beta iota.
    rewrite bind_run.
    fold (article_overwrites (default_role (guild w1))
            (get_by_name (roles (guild w1)) (editors_role_name config))).
    rewrite Hres. cbv beta iota.
    by rewrite bind_run, create_text_channel_run, Hcreate. }
  right. right. exists a, b, dt, ow. subst g'.
  rewrite (new_article_created api_fails timestamp config now interaction
             title deadline writers w w1 a b dt ids al ow
             Hin Hdefer Hparse Hens Hids Hres Hcreate
             (ensure_categories_fresh api_fails config w w1 _ Hfresh Hens)).
  cbv zeta.
  destruct (timestamp dt) as [ts|e];
    [|rewrite followup_send_guild; by eexists].
  destruct (api_fails (SendMessage _)) as [e|];
    [rewrite followup_send_guild; by eexists|].
  destruct (api_fails (PinMessage _)) as [[]|];
    rewrite ?followup_send_guild;
    destruct (api_fails Followup); rewrite ?followup_send_guild;
    by eexists.
Qed.

End NewArticleFrame.

(** X10.  Whatever the platform refuses, [new_article] changes no channel
    there is, no role and no member: it adds at most the two categories and,
    at the end of the list, one text channel, named by the slug of the title
    and with the parsed deadline in its topic. *)
Theorem new_article_frame (api_fails : ApiCall → option exn)
    (timestamp : datetime → result Z) (config : BotConfig) (now : datetime)
    (interaction : Interaction) (title deadline : str) (writers : option str)
    (w : World) :
  fresh_ids (guild w) →
  let g' := guild (new_article api_fails timestamp config now interaction
                               title deadline writers w).2 in
  same_server (guild w) g'
  ∧ (channels g' = channels (guild w)
     ∨ ∃ c dt, channels g' = channels (guild w) ++ [c]
               ∧ ch_type c = TextChannel
               ∧ ch_name c = slugify title
               ∧ parse_when now deadline = Ok (Some dt)
               ∧ ch_topic c = Some (article_topic title dt)).
Proof.
  intros Hfresh g'.
  pose proof (ensure_categories_added api_fails config w)
    as (Hgid & Hroles & Hchs & Hcache & Hmembers & Hcats).
  destruct (new_article_guild api_fails timestamp config now interaction title
              deadline writers w Hfresh)
    as [H|[H|(a & b & dt & ow & ms & _ & Hparse & H)]];
    fold g' in H; rewrite H.
  - split; [reflexivity|by left].
  - split; [done|by left].
  - split; [done|]. right. exists (article_channel
      (next_id (guild (ensure_categories api_fails config w).2)) title dt a ow ms), dt.
    simpl. by rewrite Hchs.
Qed.

Lemma new_article_frame_witness :
  let g' := guild (new_article send_refused no_clock config0 now0
                     (mkInteraction true 0) (py "Budget")
                     (py "2027-01-01 09:00") (Some (py "<@7> <@8>"))
                     (mkWorld (home_guild [article_due]) [])).2 in
  same_server (home_guild [article_due]) g'
  ∧ (channels g' = [article_due]
     ∨ ∃ c dt, channels g' = [article_due] ++ [c]
               ∧ ch_type c = TextChannel
               ∧ ch_name c = slugify (py "Budget")
               ∧ parse_when now0 (py "2027-01-01 09:00") = Ok (Some dt)
               ∧ ch_topic c = Some (article_topic (py "Budget") dt)).
Proof.
  apply (new_article_frame send_refused no_clock config0 now0
           (mkInteraction true 0) (py "Budget") (py "2027-01-01 09:00")
           (Some (py "<@7> <@8>")) (mkWorld (home_guild [article_due]) [])).
  apply fresh_ids_home. repeat constructor.
Defined.

(** ** The sweep, channel by channel *)

(** The scenario's article holds the topic [new_article] writes. *)
Lemma plain_topic_article_due : plain_topic article_due.
Proof.
  exists (Some (mkdatetime 2020 1 1 0 0 0 0 None)). split.
  - apply (article_topic_decodes (py "Budget")); reflexivity.
  - by intros dl [= <-].
Qed.

Lemma swept_no_failure (api_fails : ApiCall → option exn) (b d : Z)
    (e : option Z) (c : Channel) :
  (∀ call, api_fails call = None) →
  swept api_fails b d e c = archived b d e (add_message DeadlinePassed c).
Proof. intros Hok. unfold swept. by rewrite !Hok. Qed.

Lemma due_topic (now : datetime) (c c' : Channel) :
  ch_topic c' = ch_topic c → due now c' = due now c.
Proof. unfold due. by intros ->. Qed.

Lemma sweeper_run_filter (api_fails : ApiCall → option exn)
    (config : BotConfig) (now : datetime) (w : World) (a b : Z) :
  tzinfo now = None →
  cfg_guild_id config = Some (guild_id (guild w)) →
  get_by_name (categories (guild w)) (active_category_name config) = Some a →
  get_by_name (categories (guild w)) (archived_category_name config) = Some b →
  NoDup (ch_id <$> channels (guild w)) →
  (∀ c, c ∈ channels (guild w) → naive_deadline c) →
  sweeper api_fails config now w
  = (Ok tt,
     mkWorld
       (with_channels (guild w)
          (map (λ c, if decide (to_sweep a now c)
                     then swept api_fails b (default_role (guild w))
                            (get_by_name (roles (guild w))
                                         (editors_role_name config)) c
                     else c)
               (channels (guild w))))
       (replies w)).
Proof.
  intros. rewrite (sweeper_run api_fails config now w a b) by done.
  do 3 f_equal. apply map_ext. intros c.
  destruct (decide (to_sweep a now c)) as [(Ht & Hc & Hd)|Hno].
  - by rewrite Hd, bool_decide_eq_true_2.
  - case_bool_decide as Hin; [|done].
    destruct (due now c) eqn:Hd; [|done].
    destruct Hno. by destruct Hin.
Qed.

(** X11.  A tick of the sweep on a server that has both categories, when every
    topic is one that all versions of the interpreter decode alike, to no
    deadline or to one without a UTC offset, and the overwrites are those of
    cached members and of roles of the guild.  The tick returns, says nothing,
    and changes channels only: a text channel of the Active category whose
    deadline decodes and is earlier than [now] gets the notice, the move to
    the Archived category and the archived-state overwrites, in this order and
    up to the first of the three the platform refuses, which ends the work on
    this channel and not the tick; every other channel is left as it is. *)
Theorem sweeper_tick (api_fails : ApiCall → option exn) (config : BotConfig)
    (now : datetime) (w : World) (a b : Z) :
  let g := guild w in
  let editors_role := get_by_name (roles g) (editors_role_name config) in
  tzinfo now = None →
  cfg_guild_id config = Some (guild_id g) →
  get_by_name (categories g) (active_category_name config) = Some a →
  get_by_name (categories g) (archived_category_name config) = Some b →
  NoDup (ch_id <$> channels g) →
  (∀ c, c ∈ channels g → plain_topic c) →
  (∀ c, c ∈ channels g → cached_targets g (ch_overwrites c)) →
  ∃ chs',
    sweeper api_fails config now w
    = (Ok tt, mkWorld (with_channels g chs') (replies w))
    ∧ Forall2
        (λ c c',
           if decide (to_sweep a now c)
           then c' = swept api_fails b (default_role g) editors_role c
                ∧ ((∀ call, api_fails call = None) →
                   c' = archived b (default_role g) editors_role
                          (add_message DeadlinePassed c))
           else c' = c)
        (channels g) chs'.
Proof.
  intros g editors_role Hnow Hgid Ha Hb Hnd Hplain _.
  assert (∀ c, c ∈ channels g → naive_deadline c) as Hnaive
    by (intros c Hc; by apply plain_topic_naive, Hplain).
  eexists. split; [by apply (sweeper_run_filter api_fails config now w a b)|].
  apply Forall2_fmap_r, Forall_Forall2_diag, Forall_forall.
  intros c _. unfold compose. destruct (decide (to_sweep a now c)); [|done].
  split; [done|]. apply swept_no_failure.
Qed.

Lemma sweeper_tick_witness :
  ∃ chs',
    sweeper overwrites_refused config0 now0
      (mkWorld (cached_guild [article_due]) [])
    = (Ok tt, mkWorld (with_channels (cached_guild [article_due]) chs') [])
    ∧ Forall2
        (λ c c',
           if decide (to_sweep 10 now0 c)
           then c' = swept overwrites_refused 11 1 (Some 2) c
                ∧ ((∀ call, overwrites_refused call = None) →
                   c' = archived 11 1 (Some 2) (add_message DeadlinePassed c))
           else c' = c)
        [article_due] chs'.
Proof.
  apply (sweeper_tick overwrites_refused config0 now0
           (mkWorld (cached_guild [article_due]) []) 10 11).
  - reflexivity.
  - reflexivity.
  - reflexivity.
  - reflexivity.
  - apply NoDup_singleton.
  - intros c Hc. apply list_elem_of_singleton in Hc. subst c.
    apply plain_topic_article_due.
  - intros c Hc. apply list_elem_of_singleton in Hc. subst c.
    apply cached_targets_writer_overwrites.
Defined.

(** X12.  A second tick right after the first finds nothing to do, when the
    platform refuses nothing and the two categories are different ones (on a
    server whose topics all versions of the interpreter decode alike, to no
    deadline or to one without a UTC offset, and whose overwrites are those of
    cached members and of roles of the guild). *)
Theorem sweeper_twice (api_fails : ApiCall → option exn) (config : BotConfig)
    (now : datetime) (w : World) (a b : Z) :
  let g := guild w in
  let w' := (sweeper api_fails config now w).2 in
  (∀ call, api_fails call = None) →
  tzinfo now = None →
  cfg_guild_id config = Some (guild_id g) →
  get_by_name (categories g) (active_category_name config) = Some a →
  get_by_name (categories g) (archived_category_name config) = Some b →
  a ≠ b →
  NoDup (ch_id <$> channels g) →
  (∀ c, c ∈ channels g → plain_topic c) →
  (∀ c, c ∈ channels g → cached_targets g (ch_overwrites c)) →
  sweeper api_fails config now w' = (Ok tt, w').
Proof.
  intros g w' Hok Hnow Hgid Ha Hb Hab Hnd Hplain _. subst w'.
  assert (∀ c, c ∈ channels g → naive_deadline c) as Hnaive
    by (intros c Hc; by apply plain_topic_naive, Hplain).
  rewrite (sweeper_run_filter api_fails config now w a b) by done.
  cbn [snd]. fold g.
  set (F := λ c, if decide (to_sweep a now c)
                 then swept api_fails b (default_role g)
                        (get_by_name (roles g) (editors_role_name config)) c
                 else c).
  assert (∀ c, ch_id (F c) = ch_id c) as Hid.
  { intros c. unfold F. destruct (decide _); [apply swept_id|done]. }
  assert (∀ c, ch_topic (F c) = ch_topic c) as Htopic.
  { intros c. unfold F. destruct (decide _); [apply swept_topic|done]. }
  rewrite (sweeper_run_filter api_fails config now _ a b); try done.
  - cbn [guild replies with_channels channels roles default_role guild_id].
    unfold with_channels.
    cbn [guild_id categories roles member_cache members next_id channels].
    do 3 f_equal. rewrite map_map. apply map_ext. intros c.
    fold g. fold (F (F c)). 
    assert (¬ to_sweep a now (F c)) as Hno.
    { unfold F at 1. destruct (decide (to_sweep a now c)) as [Hs|Hs]; [|done].
      rewrite swept_no_failure by done. intros (_ & Hcat & _).
      simpl in Hcat. congruence. }
    unfold F at 1. by rewrite decide_False.
  - cbn. rewrite <- list_fmap_compose.
    erewrite list_fmap_ext; [exact Hnd|]. intros _ c _. apply Hid.
  - cbn. intros c' Hc'. apply list_elem_of_In, in_map_iff in Hc' as (c & <- & Hc).
    apply list_elem_of_In, Hnaive in Hc. unfold naive_deadline.
    by rewrite Htopic.
Qed.

Lemma sweeper_twice_witness :
  sweeper no_failure config0 now0
    (sweeper no_failure config0 now0
       (mkWorld (cached_guild [article_due]) [])).2
  = (Ok tt,
     (sweeper no_failure config0 now0
        (mkWorld (cached_guild [article_due]) [])).2).
Proof.
  apply (sweeper_twice no_failure config0 now0
           (mkWorld (cached_guild [article_due]) []) 10 11).
  - reflexivity.
  - reflexivity.
  - reflexivity.
  - reflexivity.
  - reflexivity.
  - discriminate.
  - apply NoDup_singleton.
  - intros c Hc. apply list_elem_of_singleton in Hc. subst c.
    apply plain_topic_article_due.
  - intros c Hc. apply list_elem_of_singleton in Hc. subst c.
    apply cached_targets_writer_overwrites.
Defined.

(** ** From [new_article] to the sweep *)




Lemma get_channel_map (f : Channel → Channel) (chs : list Channel) (i : Z) :
  (∀ c, ch_id (f c) = ch_id c) →
  get_channel (map f chs) i = f <$> get_channel chs i.
Proof.
  intros Hid. induction chs as [|x chs IH]; simpl; [done|].
  rewrite Hid. by destruct (ch_id x =? i).
Qed.



(** ** [ensure_categories] *)

Lemma get_by_name_app (items new : list (Z * str)) (name : str) :
  get_by_name (items ++ new) name
  = match get_by_name items name with
    | Some i => Some i
    | None => get_by_name new name
    end.
Proof.
  induction items as [|[i n] items IH]; simpl; [done|].
  by case_bool_decide.
Qed.

Lemma create_category_run (api_fails : ApiCall → option exn) (name : str)
    (w : World) :
  create_category api_fails name w
  = match api_fails (CreateCategory name) with
    | Some e => (Raise e, w)
    | None => (Ok (next_id (guild w)),
               mkWorld (with_new_category (guild w) name) (replies w))
    end.
Proof.
  unfold create_category, bind, api, get_guild, modify_guild, ret, raise.
  by destruct (api_fails _).
Qed.

Lemma ensure_categories_run (api_fails : ApiCall → option exn)
    (config : BotConfig) (w : World) :
  let g := guild w in
  let active := active_category_name config in
  let archived := archived_category_name config in
  ensure_categories api_fails config w
  = match get_by_name (categories g) active,
          get_by_name (categories g) archived with
    | Some a, Some b => (Ok (a, b), w)
    | Some a, None =>
        match api_fails (CreateCategory archived) with
        | Some e => (Raise e, w)
        | None => (Ok (a, next_id g),
                   mkWorld (with_new_category g archived) (replies w))
        end
    | None, Some b =>
        match api_fails (CreateCategory active) with
        | Some e => (Raise e, w)
        | None => (Ok (next_id g, b),
                   mkWorld (with_new_category g active) (replies w))
        end
    | None, None =>
        match api_fails (CreateCategory active) with
        | Some e => (Raise e, w)
        | None =>
            match api_fails (CreateCategory archived) with
            | Some e =>
                (Raise e, mkWorld (with_new_category g active) (replies w))
            | None =>
                (Ok (next_id g, next_id g + 1),
                 mkWorld (with_new_category (with_new_category g active)
                                            archived)
                         (replies w))
            end
        end
    end.
Proof.
  cbv zeta. unfold ensure_categories.
  rewrite bind_run. unfold get_guild at 1. cbv beta iota.
  destruct (get_by_name _ (active_category_name config));
    destruct (get_by_name _ (archived_category_name config)).
  - done.
  - rewrite bind_run. unfold ret at 1. cbv beta iota.
    rewrite bind_run, create_category_run. by destruct (api_fails _).
  - rewrite bind_run, create_category_run.
    by destruct (api_fails _).
  - rewrite bind_run, create_category_run.
    destruct (api_fails (CreateCategory (active_category_name config)));
      [done|].
    rewrite bind_run, create_category_run.
    by destruct (api_fails _).
Qed.

(** With two different names, and the platform willing, both categories
    are there afterwards. *)
Lemma ensure_categories_found (api_fails : ApiCall → option exn)
    (config : BotConfig) (w : World) :
  active_category_name config ≠ archived_category_name config →
  api_fails (CreateCategory (active_category_name config)) = None →
  api_fails (CreateCategory (archived_category_name config)) = None →
  ∃ a b w',
    ensure_categories api_fails config w = (Ok (a, b), w')
    ∧ get_by_name (categories (guild w')) (active_category_name config) = Some a
    ∧ get_by_name (categories (guild w')) (archived_category_name config)
      = Some b.
Proof.
  intros Hne Hca Hcb.
  rewrite ensure_categories_run. cbv zeta. rewrite Hca, Hcb.
  destruct (get_by_name _ (active_category_name config)) as [a|] eqn:Ea;
    destruct (get_by_name _ (archived_category_name config)) as [b|] eqn:Eb;
    eexists _, _, _; (split; [reflexivity|]);
    cbn; rewrite ?get_by_name_app, ?Ea, ?Eb; cbn;
    rewrite ?bool_decide_eq_true_2 by done; try done.
  rewrite bool_decide_eq_false_2 by done.
  by rewrite bool_decide_eq_true_2.
Qed.

(** X14.  [ensure_categories] is get-or-create, by name.  When the two names
    differ and the platform lets categories be created, it returns, the two
    categories it returns are afterwards the ones found under the two names,
    nothing else of the server has changed, and a second call returns the same
    two and asks the platform for nothing. *)
Theorem ensure_categories_spec (api_fails : ApiCall → option exn)
    (config : BotConfig) (w : World) :
  active_category_name config ≠ archived_category_name config →
  api_fails (CreateCategory (active_category_name config)) = None →
  api_fails (CreateCategory (archived_category_name config)) = None →
  ∃ a b w',
    ensure_categories api_fails config w = (Ok (a, b), w')
    ∧ get_by_name (categories (guild w')) (active_category_name config) = Some a
    ∧ get_by_name (categories (guild w')) (archived_category_name config) = Some b
    ∧ categories_added (guild w) (guild w')
    ∧ replies w' = replies w
    ∧ (∀ api_fails', ensure_categories api_fails' config w' = (Ok (a, b), w')).
Proof.
  intros Hne Hca Hcb.
  pose proof (ensure_categories_added api_fails config w) as Hadd.
  pose proof (ensure_categories_replies api_fails config w) as Hrep.
  destruct (ensure_categories_found api_fails config w Hne Hca Hcb)
    as (a & b & w' & Hens & Ha & Hb).
  rewrite Hens in Hadd, Hrep.
  exists a, b, w'. split_and!; [done..|].
  intros api_fails'. by apply ensure_categories_present.
Qed.

Lemma ensure_categories_spec_witness :
  ∃ a b w',
    ensure_categories no_failure config0 (mkWorld fresh_guild []) = (Ok (a, b), w')
    ∧ get_by_name (categories (guild w')) (active_category_name config0) = Some a
    ∧ get_by_name (categories (guild w')) (archived_category_name config0)
      = Some b
    ∧ categories_added fresh_guild (guild w')
    ∧ replies w' = []
    ∧ (∀ api_fails', ensure_categories api_fails' config0 w' = (Ok (a, b), w')).
Proof.
  apply (ensure_categories_spec no_failure config0 (mkWorld fresh_guild [])).
  - intros H. vm_compute in H. discriminate H.
  - reflexivity.
  - reflexivity.
Defined.

(** ** Writer mentions, read back *)

Lemma split_ws_token (t s cur : str) :
  Forall (λ c, isspace c = false) t →
  split_ws (t ++ s) cur = split_ws s (rev t ++ cur).
Proof.
  revert cur. induction t as [|c t IH]; intros cur Ht; [done|].
  apply Forall_cons in Ht as [Hc Ht]. cbn [app split_ws]. rewrite Hc.
  rewrite IH by done. cbn [rev]. by rewrite <- app_assoc.
Qed.

Lemma split_join (tokens : list str) :
  Forall (λ t, t ≠ [] ∧ Forall (λ c, isspace c = false) t) tokens →
  split (join (py " ") tokens) = tokens.
Proof.
  unfold split. induction tokens as [|t tokens IH]; intros H; [done|].
  apply Forall_cons in H as [[Hne Ht] H].
  assert (rev t ≠ []) as Hrev.
  { intros Hr. apply Hne. rewrite <- (rev_involutive t), Hr. done. }
  destruct tokens as [|t' tokens].
  - cbn [join]. rewrite <- (app_nil_r t), split_ws_token by done.
    cbn [split_ws]. rewrite app_nil_r, bool_decide_eq_false_2 by done.
    by rewrite rev_involutive, app_nil_r.
  - change (join (py " ") (t :: t' :: tokens))
      with (t ++ " "%char :: join (py " ") (t' :: tokens)).
    rewrite split_ws_token by done. cbn [split_ws].
    change (isspace " ") with true. cbv iota.
    rewrite app_nil_r, bool_decide_eq_false_2 by done.
    rewrite rev_involutive, IH by done. done.
Qed.

Lemma int_digits_zfill (n : nat) (k acc : Z) :
  0 ≤ k < 10 ^ Z.of_nat (S n) →
  int_digits (zfill (S n) k) acc false = Some (acc * 10 ^ Z.of_nat (S n) + k).
Proof.
  assert (∀ n k acc, 0 ≤ k < 10 ^ Z.of_nat n →
            int_digits (zfill n k) acc true = Some (acc * 10 ^ Z.of_nat n + k))
    as Htrue.
  { clear. intros n. induction n as [|n IH]; intros k acc H.
    - simpl in *. f_equal. lia.
    - pose proof (pow10_pos n) as Hp.
      pose proof (leading_digit n k H) as Hd.
      cbn [zfill int_digits].
      rewrite isdecimal_digit_char, digit_value_digit_char by done.
      rewrite IH by (apply Z.mod_pos_bound; lia).
      f_equal. rewrite pow10_succ.
      pose proof (Z.div_mod k (10 ^ Z.of_nat n)). lia. }
  intros H. pose proof (pow10_pos n) as Hp.
  pose proof (leading_digit n k H) as Hd.
  cbn [zfill int_digits].
  rewrite isdecimal_digit_char, digit_value_digit_char by done.
  rewrite Htrue by (apply Z.mod_pos_bound; lia).
  f_equal. rewrite pow10_succ.
  pose proof (Z.div_mod k (10 ^ Z.of_nat n)). lia.
Qed.

Lemma isdecimal_cases (c : ascii) :
  isdecimal c = true →
  isspace c = false ∧ isdigit c = true
  ∧ existsb (ascii_eqb c) (py "<@!>") = false
  ∧ ascii_eqb c "-" = false ∧ ascii_eqb c "+" = false.
Proof.
  destruct c as [[] [] [] [] [] [] [] []]; vm_compute; intros [=]; done.
Qed.

Lemma lstrip_by_false (p : ascii → bool) (c : ascii) (s : str) :
  p c = false → lstrip_by p (c :: s) = c :: s.
Proof. intros H. simpl. by rewrite H. Qed.

Lemma strip_by_digits (p : ascii → bool) (s : str) :
  s ≠ [] → Forall (λ c, p c = false) s → strip_by p s = s.
Proof.
  intros Hne Hs. unfold strip_by.
  destruct s as [|c s]; [done|].
  rewrite lstrip_by_false by (by apply Forall_cons in Hs as [? _]).
  assert (Forall (λ c, p c = false) (rev (c :: s))) as Hr.
  { apply Forall_forall. intros x Hx. rewrite elem_of_rev in Hx.
    by apply (proj1 (Forall_forall _ _) Hs). }
  destruct (rev (c :: s)) as [|c' s'] eqn:E.
  { apply (f_equal (@length _)) in E. rewrite length_rev in E. done. }
  rewrite lstrip_by_false by (by apply Forall_cons in Hr as [? _]).
  by rewrite <- E, rev_involutive.
Qed.

Lemma parse_mention_mention (nick : bool) (n : nat) (uid : Z) :
  (0 < n)%nat → 0 ≤ uid < 10 ^ Z.of_nat n →
  parse_mention (mention nick n uid) = Ok [uid].
Proof.
  intros Hn Huid. destruct n as [|n]; [lia|].
  pose proof (zfill_decimal (S n) uid Huid) as Hdec.
  remember (zfill (S n) uid) as digits eqn:Hdig.
  assert (digits ≠ []) as Hne by (by rewrite Hdig).
  assert (∀ P : ascii → Prop,
            (∀ c, isdecimal c = true → P c) → Forall P digits) as Hall.
  { intros P HP. eapply Forall_impl; [exact Hdec|]. done. }
  unfold parse_mention.
  assert (startswith (py "<@") (mention nick (S n) uid) = true) as ->
    by done.
  assert (endswith (py ">") (mention nick (S n) uid) = true) as ->.
  { unfold endswith, mention. rewrite <- Hdig.
    rewrite !rev_app_distr. by destruct nick. }
  cbn [andb].
  assert (strip_chars (py "<@!>") (mention nick (S n) uid) = digits) as ->.
  { unfold strip_chars, strip_by, mention. rewrite <- Hdig.
    set (p := λ c, existsb (ascii_eqb c) (py "<@!>")).
    assert (Forall (λ c, p c = false) digits) as Hp
      by (apply Hall; intros c Hc; by apply isdecimal_cases in Hc as (_&_&?&_)).
    assert (lstrip_by p (py "<@" ++ (if nick then py "!" else []) ++ digits
                         ++ py ">") = digits ++ py ">") as ->.
    { destruct digits as [|d ds]; [done|].
      apply Forall_cons in Hp as [Hd _].
      destruct nick; simpl; by rewrite Hd. }
    rewrite rev_app_distr. simpl.
    assert (Forall (λ c, p c = false) (rev digits)) as Hr.
    { apply Forall_forall. intros x Hx. rewrite elem_of_rev in Hx.
      by apply (proj1 (Forall_forall _ _) Hp). }
    destruct (rev digits) as [|c' s'] eqn:E.
    { apply (f_equal (@length _)) in E. rewrite length_rev in E.
      by destruct digits. }
    change (p ">"%char) with true. cbv iota.
    rewrite lstrip_by_false by (by apply Forall_cons in Hr as [? _]).
    by rewrite <- E, rev_involutive. }
  assert (str_isdigit digits = true) as ->.
  { unfold str_isdigit. rewrite bool_decide_eq_false_2 by done. simpl.
    apply forallb_forall. intros c Hc%list_elem_of_In.
    assert (isdecimal c = true) as Hd
      by (by apply (proj1 (Forall_forall _ _) Hdec)).
    by apply isdecimal_cases in Hd as (_&?&_). }
  unfold int_of_str, strip.
  rewrite strip_by_digits; [|done|].
  2:{ apply Hall. intros c Hc. by apply isdecimal_cases in Hc as (?&_). }
  assert (∃ d ds, digits = d :: ds ∧ isdecimal d = true) as (d & ds & E & Hd).
  { destruct digits as [|d ds]; [done|]. exists d, ds. split; [done|].
    by apply Forall_cons in Hdec as [? _]. }
  rewrite E. apply isdecimal_cases in Hd as (_&_&_& -> & ->).
  rewrite <- E, Hdig. rewrite int_digits_zfill by done.
  cbn [rbind]. do 2 f_equal. lia.
Qed.

Lemma parse_mentions_app (ms : list str) (ids acc : list Z) :
  Forall2 (λ m uid, parse_mention m = Ok [uid]) ms ids →
  parse_mentions ms acc = Ok (acc ++ ids).
Proof.
  intros H. revert acc. induction H as [|m uid ms ids Hm _ IH]; intros acc.
  - by rewrite app_nil_r.
  - cbn [parse_mentions]. rewrite Hm. cbn [rbind].
    rewrite IH, <- app_assoc. done.
Qed.

Lemma mention_token (nick : bool) (n : nat) (uid : Z) :
  0 ≤ uid < 10 ^ Z.of_nat n →
  mention nick n uid ≠ [] ∧ Forall (λ c, isspace c = false) (mention nick n uid).
Proof.
  intros H. split; [done|]. unfold mention.
  rewrite !Forall_app. split_and!.
  - by repeat constructor.
  - destruct nick; by repeat constructor.
  - eapply Forall_impl; [by apply zfill_decimal|].
    intros c Hc. by apply isdecimal_cases in Hc as (?&_).
  - by repeat constructor.
Qed.

(** X15.  The writers line is read mention by mention: user mentions
    (["<@id>"] or ["<@!id>"], the id in decimal digits, at most 4300 of them,
    the most [int] converts) separated by blanks give their ids, in order and
    with repetitions. *)
Theorem writer_ids_mentions (ms : list (bool * nat * Z)) :
  ms ≠ [] →
  Forall (λ '(nick, n, uid),
            (0 < n ≤ 4300)%nat ∧ 0 ≤ uid < 10 ^ Z.of_nat n) ms →
  writer_ids (Some (join (py " ")
                      (map (λ '(nick, n, uid), mention nick n uid) ms)))
  = Ok (map snd ms).
Proof.
  intros Hne Hms. unfold writer_ids.
  set (tokens := map (λ '(nick, n, uid), mention nick n uid) ms).
  assert (Forall (λ t, t ≠ [] ∧ Forall (λ c, isspace c = false) t) tokens)
    as Htok.
  { subst tokens. apply Forall_fmap. eapply Forall_impl; [exact Hms|].
    intros [[nick n] uid] [_ H]. simpl. by apply mention_token. }
  rewrite bool_decide_eq_false_2.
  2:{ destruct ms as [|[[nick n] uid] ms]; [done|]. subst tokens.
      cbn [map]. destruct (map _ ms); [done|]. cbn [join]. done. }
  rewrite split_join by done.
  rewrite (parse_mentions_app tokens (map snd ms)); [done|].
  subst tokens. apply Forall2_fmap, Forall_Forall2_diag.
  eapply Forall_impl; [exact Hms|].
  intros [[nick n] uid] [[? ?] ?]. simpl. by apply parse_mention_mention.
Qed.

Lemma writer_ids_mentions_witness :
  writer_ids (Some (py "<@7> <@!8>")) = Ok [7; 8].
Proof.
  apply (writer_ids_mentions [(false, 1%nat, 7); (true, 1%nat, 8)]); [done|].
  repeat constructor; lia.
Defined.

(** ** [save], then [load] *)

Lemma num_digits_spec (fuel : nat) (k : Z) :
  0 ≤ k < 2 ^ (Z.of_nat fuel + 1) →
  k < 10 ^ Z.of_nat (num_digits fuel k)
  ∧ (10 ≤ k → 10 ^ (Z.of_nat (num_digits fuel k) - 1) ≤ k).
Proof.
  revert k. induction fuel as [|fuel IH]; intros k Hk.
  - simpl in *. lia.
  - cbn [num_digits]. destruct (k <? 10) eqn:E.
    + apply Z.ltb_lt in E. simpl. lia.
    + apply Z.ltb_ge in E.
      assert (0 ≤ k / 10 < 2 ^ (Z.of_nat fuel + 1)) as Hdiv.
      { split; [apply Z.div_pos; lia|].
        apply Z.div_lt_upper_bound; [lia|].
        replace (Z.of_nat (S fuel) + 1) with (Z.succ (Z.of_nat fuel + 1)) in Hk
          by lia.
        rewrite Z.pow_succ_r in Hk by lia. lia. }
      destruct (IH _ Hdiv) as [Hlt Hge].
      rewrite pow10_succ.
      replace (Z.of_nat (S (num_digits fuel (k / 10))) - 1)
        with (Z.of_nat (num_digits fuel (k / 10))) by lia.
      pose proof (Z.div_mod k 10 ltac:(lia)) as Hk10.
      pose proof (Z.mod_pos_bound k 10 ltac:(lia)).
      split; [lia|]. intros _.
      destruct (num_digits fuel (k / 10)) as [|n] eqn:En.
      * simpl. lia.
      * destruct (Z_lt_le_dec (k / 10) 10) as [Hsmall|Hbig].
        -- (* one digit left *)
           destruct fuel as [|fuel']; [simpl in En; lia|].
           cbn [num_digits] in En.
           rewrite (proj2 (Z.ltb_lt _ _) Hsmall) in En.
           injection En as <-. simpl. lia.
        -- specialize (Hge Hbig).
           replace (Z.of_nat (S n) - 1) with (Z.of_nat n) in Hge by lia.
           rewrite pow10_succ. lia.
Qed.

Lemma num_digits_pos (fuel : nat) (k : Z) : (0 < num_digits fuel k)%nat.
Proof. destruct fuel; simpl; [lia|]. destruct (k <? 10); lia. Qed.

(** The digits of [repr_int]: as many as the number has. *)
Lemma repr_digits (k : Z) :
  0 ≤ k →
  let n := num_digits (Z.to_nat (Z.log2 k)) k in
  (0 < n)%nat ∧ k < 10 ^ Z.of_nat n ∧ (10 ≤ k → 10 ^ (Z.of_nat n - 1) ≤ k).
Proof.
  intros Hk n. split; [apply num_digits_pos|].
  apply num_digits_spec. split; [done|].
  destruct (Z.eq_dec k 0) as [->|Hne]; [simpl; lia|].
  rewrite Z2Nat.id by apply Z.log2_nonneg.
  replace (Z.log2 k + 1) with (Z.succ (Z.log2 k)) by lia.
  apply Z.log2_spec. lia.
Qed.

Lemma scanstring_escape_char (c x : ascii) (tail : str) (fuel : nat)
    (acc : list N) :
  scanstring (S fuel) (escape_char c ++ x :: tail) acc
  = scanstring fuel (x :: tail) (acc ++ [ord c]).
Proof.
  destruct c as [[] [] [] [] [] [] [] []]; reflexivity.
Qed.

Lemma escape_char_length (c : ascii) : (0 < length (escape_char c))%nat.
Proof. destruct c as [[] [] [] [] [] [] [] []]; vm_compute; lia. Qed.

Lemma scanstring_encoded (s rest : str) (acc : list N) (fuel : nat) :
  (length (flat_map escape_char s) < fuel)%nat →
  scanstring fuel (flat_map escape_char s ++ dquote :: rest) acc
  = Ok (acc ++ codes s, rest).
Proof.
  revert fuel acc. induction s as [|c s IH]; intros fuel acc Hfuel.
  - destruct fuel as [|fuel]; [simpl in Hfuel; lia|].
    simpl. by rewrite app_nil_r.
  - cbn [flat_map] in Hfuel |- *. rewrite length_app in Hfuel.
    pose proof (escape_char_length c).
    destruct fuel as [|fuel]; [lia|].
    rewrite <- app_assoc.
    destruct (flat_map escape_char s ++ dquote :: rest) as [|x tail] eqn:E.
    { by destruct (flat_map escape_char s). }
    rewrite scanstring_escape_char, IH by lia.
    cbn [codes map]. by rewrite <- app_assoc.
Qed.

(** A string value, as [encode_basestring_ascii] wrote it. *)
Lemma scan_once_encoded (s rest : str) (fuel : nat) :
  scan_once (S fuel) (encode_basestring_ascii s ++ rest)
  = Ok (JStr (codes s), rest).
Proof.
  unfold encode_basestring_ascii.
  change ([dquote] ++ flat_map escape_char s ++ [dquote])
    with (dquote :: (flat_map escape_char s ++ [dquote])).
  cbn [app scan_once].
  change (ascii_eqb dquote dquote) with true. cbv iota.
  rewrite <- app_assoc. cbn [app].
  rewrite scanstring_encoded; [done|].
  cbn [length]. rewrite length_app. lia.
Qed.

Lemma str_of_codes_codes (s : str) : str_of_codes (codes s) = Some s.
Proof.
  unfold str_of_codes, codes.
  assert (forallb (λ n : N, (n <? 256)%N) (map ord s) = true) as ->.
  { apply forallb_forall. intros n (c & <- & _)%in_map_iff.
    apply N.ltb_lt. unfold ord. apply N_ascii_bounded. }
  f_equal. rewrite map_map. rewrite <- (map_id s) at 2. apply map_ext.
  intros c. unfold chr, ord. apply ascii_N_embedding.
Qed.

Lemma typed_to_raw (c : BotConfig) : typed (to_raw c) = Some c.
Proof.
  destruct c as [gid a b e]. unfold typed, to_raw. cbn.
  rewrite !str_of_codes_codes. by destruct gid.
Qed.

Lemma span_digits_app (ds : str) (x : ascii) (tail : str) :
  Forall (λ c, isdecimal c = true) ds → isdecimal x = false →
  span_digits (ds ++ x :: tail) = (ds, x :: tail).
Proof.
  intros Hds Hx. induction Hds as [|d ds Hd _ IH]; simpl.
  - by rewrite Hx.
  - by rewrite Hd, IH.
Qed.

Lemma digit_char_leading (d : Z) :
  0 ≤ d ≤ 9 →
  (in_range 49 57 (digit_char d) || ascii_eqb (digit_char d) "0") = true
  ∧ ascii_eqb (digit_char d) "-" = false
  ∧ ascii_eqb (digit_char d) "0" = bool_decide (d = 0).
Proof.
  intros H.
  destruct (digit_char_cases d H)
    as [->|[->|[->|[->|[->|[->|[->|[->|[->| ->]]]]]]]]]; done.
Qed.

Lemma int_of_str_digits (sign : bool) (n : nat) (k : Z) :
  0 ≤ k < 10 ^ Z.of_nat (S n) →
  int_of_str ((if sign then py "-" else []) ++ zfill (S n) k)
  = Ok (if sign then - k else k).
Proof.
  intros Hk. unfold int_of_str, strip.
  pose proof (zfill_decimal (S n) k Hk) as Hdec.
  rewrite strip_by_digits.
  - pose proof (leading_digit n k Hk) as Hd.
    destruct (digit_char_leading _ Hd) as (_ & Hminus & _).
    destruct sign.
    + change (py "-" ++ zfill (S n) k) with ("-"%char :: zfill (S n) k).
      cbv iota beta. change (ascii_eqb "-" "-") with true. cbv iota beta.
      rewrite int_digits_zfill by done. f_equal; lia.
    + cbn [app zfill]. rewrite Hminus.
      assert (ascii_eqb (digit_char (k / 10 ^ Z.of_nat n)) "+" = false) as ->.
      { destruct (digit_char_cases _ Hd)
          as [->|[->|[->|[->|[->|[->|[->|[->|[->| ->]]]]]]]]]; done. }
      change (digit_char (k / 10 ^ Z.of_nat n)
              :: zfill n (k mod 10 ^ Z.of_nat n)) with (zfill (S n) k).
      rewrite int_digits_zfill by done. f_equal; lia.
  - by destruct sign.
  - apply Forall_app. split; [destruct sign; by repeat constructor|].
    eapply Forall_impl; [exact Hdec|].
    intros c Hc. by apply isdecimal_cases in Hc as (?&_).
Qed.

Lemma num_digits_small (fuel : nat) (k : Z) :
  k < 10 → num_digits fuel k = 1%nat.
Proof.
  intros H. destruct fuel; [done|]. simpl.
  by rewrite (proj2 (Z.ltb_lt _ _) H).
Qed.

(** An [int] as [int.__repr__] wrote it, in front of something that is
    not part of a number. *)
Lemma match_number_repr (z : Z) (x : ascii) (tail : str) :
  isdecimal x = false → ascii_eqb x "." = false →
  ascii_eqb x "e" = false → ascii_eqb x "E" = false →
  match_number (repr_int z ++ x :: tail) = Ok (JInt z, x :: tail).
Proof.
  intros Hx Hdot He HE. unfold repr_int.
  set (k := Z.abs z).
  destruct (repr_digits k ltac:(lia)) as (Hpos & Hlt & Hge).
  cbv zeta in Hpos, Hlt, Hge.
  pose proof (num_digits_small (Z.to_nat (Z.log2 k)) k) as Hsmall.
  destruct (num_digits (Z.to_nat (Z.log2 k)) k) as [|n]; [lia|].
  pose proof (leading_digit n k ltac:(lia)) as Hd.
  destruct (digit_char_leading _ Hd) as (Hlead & Hminus & Hzero).
  pose proof (zfill_decimal (S n) k ltac:(lia)) as Hdec.
  pose proof (int_of_str_digits (z <? 0) n k ltac:(lia)) as Hint.
  assert ((if z <? 0 then - k else k) = z) as Hz
    by (subst k; destruct (z <? 0) eqn:E; lia).
  rewrite Hz in Hint.
  set (d0 := digit_char (k / 10 ^ Z.of_nat n)) in *.
  set (ds := zfill n (k mod 10 ^ Z.of_nat n)).
  assert (zfill (S n) k = d0 :: ds) as Hdigits by done.
  rewrite Hdigits in Hdec, Hint. apply Forall_cons in Hdec as [_ Hds].
  assert ((if ascii_eqb d0 "0" then ([d0], ds ++ x :: tail)
           else let '(ds', rest) := span_digits (ds ++ x :: tail) in
                (d0 :: ds', rest))
          = (d0 :: ds, x :: tail)) as Hspan.
  { rewrite Hzero. case_bool_decide as H0.
    - assert (k < 10) as Hk.
      { destruct (Z_lt_le_dec k 10) as [?|Hbig]; [done|].
        specialize (Hge Hbig).
        replace (Z.of_nat (S n) - 1) with (Z.of_nat n) in Hge by lia.
        pose proof (pow10_pos n).
        assert (k / 10 ^ Z.of_nat n = 0) as Hdiv by done.
        apply Z.div_small_iff in Hdiv; lia. }
      specialize (Hsmall Hk). injection Hsmall as ->. done.
    - by rewrite span_digits_app. }
  rewrite <- app_assoc, Hdigits. unfold match_number.
  destruct (z <? 0).
  - change (py "-" ++ (d0 :: ds) ++ x :: tail)
      with ("-"%char :: d0 :: (ds ++ x :: tail)).
    cbv iota beta. change (ascii_eqb "-" "-") with true. cbv iota beta.
    rewrite Hlead, Hspan, Hdot, He, HE. cbn [orb].
    rewrite !bool_decide_eq_true_2 by done. cbn [andb].
    by rewrite Hint.
  - change ([] ++ (d0 :: ds) ++ x :: tail) with (d0 :: (ds ++ x :: tail)).
    cbv iota beta. rewrite Hminus. cbv iota beta.
    rewrite Hlead, Hspan, Hdot, He, HE. cbn [orb].
    rewrite !bool_decide_eq_true_2 by done. cbn [andb].
    by rewrite Hint.
Qed.

Lemma skip_ws_encoded (s rest : str) :
  skip_ws (encode_basestring_ascii s ++ rest) = encode_basestring_ascii s ++ rest.
Proof. done. Qed.

(** A member of the object that is not the last: the key, the value, and
    the comma with the line break and the indentation after it. *)
Lemma object_loop_member (key vtext rest : str) (value : json)
    (items : list (list N * json)) (fuel : nat) :
  let sep := py "," ++ [newline] ++ py "  " in
  skip_ws (vtext ++ sep ++ rest) = vtext ++ sep ++ rest →
  scan_once fuel (vtext ++ sep ++ rest) = Ok (value, sep ++ rest) →
  object_loop (S fuel)
    (encode_basestring_ascii key ++ py ": " ++ vtext ++ sep ++ rest) items
  = object_loop fuel (skip_ws rest) (dict_set items (codes key) value).
Proof.
  intros sep Hws Hval. unfold encode_basestring_ascii.
  change (([dquote] ++ flat_map escape_char key ++ [dquote]) ++
          py ": " ++ vtext ++ sep ++ rest)
    with (dquote :: ((flat_map escape_char key ++ [dquote]) ++
                     py ": " ++ vtext ++ sep ++ rest)).
  cbn [object_loop]. change (ascii_eqb dquote dquote) with true. cbv iota.
  rewrite <- app_assoc. cbn [app].
  rewrite scanstring_encoded by (cbn [length]; rewrite length_app; lia).
  cbn [rbind]. cbv beta iota.
  assert (skip_ws (py ": " ++ vtext ++ sep ++ rest)
          = ":"%char :: " "%char :: (vtext ++ sep ++ rest)) as -> by done.
  cbv iota. change (ascii_eqb ":" ":") with true. cbv iota.
  assert (skip_ws (" "%char :: (vtext ++ sep ++ rest))
          = skip_ws (vtext ++ sep ++ rest)) as -> by done.
  rewrite Hws, Hval. cbn [rbind]. cbv beta iota.
  done.
Qed.

(** The last member, and the line break and the brace after it. *)
Lemma object_loop_last (key vtext rest : str) (value : json)
    (items : list (list N * json)) (fuel : nat) :
  let close := [newline] ++ py "}" in
  skip_ws (vtext ++ close ++ rest) = vtext ++ close ++ rest →
  scan_once fuel (vtext ++ close ++ rest) = Ok (value, close ++ rest) →
  object_loop (S fuel)
    (encode_basestring_ascii key ++ py ": " ++ vtext ++ close ++ rest) items
  = Ok (JDict (dict_set items (codes key) value), rest).
Proof.
  intros close Hws Hval. unfold encode_basestring_ascii.
  change (([dquote] ++ flat_map escape_char key ++ [dquote]) ++
          py ": " ++ vtext ++ close ++ rest)
    with (dquote :: ((flat_map escape_char key ++ [dquote]) ++
                     py ": " ++ vtext ++ close ++ rest)).
  cbn [object_loop]. change (ascii_eqb dquote dquote) with true. cbv iota.
  rewrite <- app_assoc. cbn [app].
  rewrite scanstring_encoded by (cbn [length]; rewrite length_app; lia).
  cbn [rbind]. cbv beta iota.
  assert (skip_ws (py ": " ++ vtext ++ close ++ rest)
          = ":"%char :: " "%char :: (vtext ++ close ++ rest)) as -> by done.
  cbv iota. change (ascii_eqb ":" ":") with true. cbv iota.
  assert (skip_ws (" "%char :: (vtext ++ close ++ rest))
          = skip_ws (vtext ++ close ++ rest)) as -> by done.
  rewrite Hws, Hval. cbn [rbind]. cbv beta iota.
  done.
Qed.

Lemma repr_int_head (z : Z) (rest : str) :
  ∃ c tail, repr_int z ++ rest = c :: tail ∧ is_ws c = false
            ∧ ascii_eqb c dquote = false ∧ ascii_eqb c "{" = false
            ∧ ascii_eqb c "[" = false
            ∧ (ascii_eqb c "-" = true ∨ isdecimal c = true).
Proof.
  unfold repr_int. destruct (z <? 0).
  - eexists _, _. split; [reflexivity|]. split_and!; try done. by left.
  - set (k := Z.abs z).
    destruct (repr_digits k ltac:(lia)) as (Hpos & Hlt & _).
    cbv zeta in Hpos, Hlt.
    destruct (num_digits (Z.to_nat (Z.log2 k)) k) as [|n]; [lia|].
    pose proof (leading_digit n k ltac:(lia)) as Hd.
    eexists _, _. split; [reflexivity|].
    destruct (digit_char_cases _ Hd)
      as [->|[->|[->|[->|[->|[->|[->|[->|[->| ->]]]]]]]]];
      split_and!; try done; by right.
Qed.

(** The value of [guild_id], as [dumps_guild_id] wrote it. *)
Lemma scan_once_guild_id (guild_id : option Z) (x : ascii) (tail : str)
    (fuel : nat) :
  isdecimal x = false → ascii_eqb x "." = false →
  ascii_eqb x "e" = false → ascii_eqb x "E" = false →
  skip_ws (dumps_guild_id guild_id ++ x :: tail)
  = dumps_guild_id guild_id ++ x :: tail
  ∧ scan_once (S fuel) (dumps_guild_id guild_id ++ x :: tail)
    = Ok (match guild_id with None => JNull | Some z => JInt z end, x :: tail).
Proof.
  intros Hx Hdot He HE. destruct guild_id as [z|]; [|done].
  cbn [dumps_guild_id].
  pose proof (match_number_repr z x tail Hx Hdot He HE) as Hnum.
  destruct (repr_int_head z (x :: tail))
    as (c & s' & E & Hws & Hq & Hbrace & Hbracket & Hc).
  rewrite E in Hnum |- *. split.
  - unfold skip_ws. cbn [lstrip_by]. by rewrite Hws.
  - cbn [scan_once]. rewrite Hq, Hbrace, Hbracket.
    assert (∀ lit : str,
              match lit with l :: _ => isalpha l = true | [] => False end →
              startswith lit (c :: s') = false) as Hlit.
    { intros [|l lit] Hl; [done|]. cbn [startswith].
      assert (ascii_eqb l c = false) as ->; [|done].
      unfold ascii_eqb. apply bool_decide_eq_false_2. intros ->.
      destruct Hc as [Hc|Hc].
      - apply bool_decide_eq_true_1 in Hc. by subst c.
      - revert Hl Hc. clear.
        destruct c as [[] [] [] [] [] [] [] []]; by vm_compute. }
    rewrite !Hlit by done.
    assert (startswith (py "-Infinity") (c :: s') = false) as ->; [|done].
    cbn [startswith py list_ascii_of_string].
    destruct (ascii_eqb "-" c) eqn:Ec; [|done]. cbn [andb].
    apply bool_decide_eq_true_1 in Ec. subst c.
    (* after the sign comes a digit *)
    revert E. unfold repr_int. destruct (z <? 0).
    + set (k := Z.abs z).
      destruct (repr_digits k ltac:(lia)) as (Hpos & Hlt & _).
      cbv zeta in Hpos, Hlt.
      destruct (num_digits (Z.to_nat (Z.log2 k)) k) as [|n]; [lia|].
      pose proof (leading_digit n k ltac:(lia)) as Hd.
      cbn [app zfill py list_ascii_of_string]. intros [= <-].
      cbn [startswith].
      destruct (digit_char_cases _ Hd)
        as [->|[->|[->|[->|[->|[->|[->|[->|[->| ->]]]]]]]]]; done.
    + set (k := Z.abs z).
      destruct (repr_digits k ltac:(lia)) as (Hpos & Hlt & _).
      cbv zeta in Hpos, Hlt.
      destruct (num_digits (Z.to_nat (Z.log2 k)) k) as [|n]; [lia|].
      pose proof (leading_digit n k ltac:(lia)) as Hd.
      cbn [app zfill]. intros [= Hminus _]. exfalso.
      destruct (digit_char_cases _ Hd)
        as [H|[H|[H|[H|[H|[H|[H|[H|[H|H]]]]]]]]];
        rewrite H in Hminus; discriminate Hminus.
Qed.

Lemma json_loads_dumps_config (c : BotConfig) :
  json_loads (dumps_config c)
  = Ok (JDict
          [(codes (py "guild_id"), raw_guild_id (to_raw c));
           (codes (py "active_category_name"),
            raw_active_category_name (to_raw c));
           (codes (py "archived_category_name"),
            raw_archived_category_name (to_raw c));
           (codes (py "editors_role_name"), raw_editors_role_name (to_raw c))]).
Proof.
  destruct c as [gid a b e].
  cbn [to_raw cfg_guild_id active_category_name archived_category_name
       editors_role_name raw_guild_id raw_active_category_name
       raw_archived_category_name raw_editors_role_name].
  set (sep := py "," ++ [newline] ++ py "  ").
  set (close := [newline] ++ py "}").
  set (body :=
         encode_basestring_ascii (py "guild_id") ++ py ": "
         ++ dumps_guild_id gid ++ sep
         ++ encode_basestring_ascii (py "active_category_name") ++ py ": "
         ++ encode_basestring_ascii a ++ sep
         ++ encode_basestring_ascii (py "archived_category_name") ++ py ": "
         ++ encode_basestring_ascii b ++ sep
         ++ encode_basestring_ascii (py "editors_role_name") ++ py ": "
         ++ encode_basestring_ascii e ++ close ++ []).
  assert (dumps_config (mkBotConfig gid a b e)
          = "{"%char :: newline :: " "%char :: " "%char :: body) as ->.
  { subst body sep close. unfold dumps_config, dumps_member.
    cbn [cfg_guild_id active_category_name archived_category_name
         editors_role_name].
    rewrite <- !app_assoc. reflexivity. }
  unfold json_loads.
  assert (skip_ws ("{"%char :: newline :: " "%char :: " "%char :: body)
          = "{"%char :: newline :: " "%char :: " "%char :: body) as -> by done.
  cbn [scan_once length]. change (ascii_eqb "{" dquote) with false.
  change (ascii_eqb "{" "{") with true. cbv iota.
  assert (skip_ws (newline :: " "%char :: " "%char :: body) = body) as -> by done.
  assert (startswith (py "}") body = false) as -> by done.
  assert (∀ fuel, object_loop (S (S (S (S (S fuel))))) body []
                  = Ok (JDict
                          [(codes (py "guild_id"),
                            match gid with None => JNull | Some z => JInt z end);
                           (codes (py "active_category_name"), JStr (codes a));
                           (codes (py "archived_category_name"), JStr (codes b));
                           (codes (py "editors_role_name"), JStr (codes e))],
                        [])) as Hloop.
  { intros fuel. subst body.
    destruct (scan_once_guild_id gid ","%char
                ([newline] ++ py "  "
                 ++ encode_basestring_ascii (py "active_category_name")
                 ++ py ": " ++ encode_basestring_ascii a ++ sep
                 ++ encode_basestring_ascii (py "archived_category_name")
                 ++ py ": " ++ encode_basestring_ascii b ++ sep
                 ++ encode_basestring_ascii (py "editors_role_name")
                 ++ py ": " ++ encode_basestring_ascii e ++ close ++ [])
                (S (S (S fuel)))) as [Hws Hval]; try done.
    rewrite (object_loop_member (py "guild_id") (dumps_guild_id gid) _ _ _ _
               Hws Hval).
    rewrite skip_ws_encoded.
    rewrite (object_loop_member (py "active_category_name")
               (encode_basestring_ascii a) _ (JStr (codes a)));
      [|done|apply scan_once_encoded].
    rewrite skip_ws_encoded.
    rewrite (object_loop_member (py "archived_category_name")
               (encode_basestring_ascii b) _ (JStr (codes b)));
      [|done|apply scan_once_encoded].
    rewrite skip_ws_encoded.
    rewrite (object_loop_last (py "editors_role_name")
               (encode_basestring_ascii e) _ (JStr (codes e)));
      [|done|apply scan_once_encoded].
    done. }
  assert (∃ fuel, length body = S (S (S (S (S fuel))))) as [fuel ->].
  { subst body. unfold encode_basestring_ascii.
    rewrite <- !app_assoc. cbn [app py list_ascii_of_string flat_map length].
    by eexists. }
  rewrite (Hloop (S (S (S (S fuel))))). cbn [rbind]. by destruct gid.
Qed.

Lemma load_dumps_config (c : BotConfig) :
  load (Text (dumps_config c)) = to_raw c.
Proof.
  unfold load. rewrite json_loads_dumps_config. cbn [rbind BotConfig_new].
  by destruct c as [gid a b e].
Qed.

(** X16.  A restart after [save] finds the configuration that was saved: the
    text [save] writes decodes, field by field, to the values it was written
    from (the guild id within the limit of digits, as every id of the platform
    is). *)
Theorem load_save (c : BotConfig) :
  (∀ z, cfg_guild_id c = Some z → str_digits_limit z) →
  load (Text (dumps_config c)) = to_raw c
  ∧ typed (load (Text (dumps_config c))) = Some c.
Proof.
  intros _. split; [apply load_dumps_config|].
  rewrite load_dumps_config. apply typed_to_raw.
Qed.

Lemma load_save_witness :
  load (Text (dumps_config config0)) = to_raw config0
  ∧ typed (load (Text (dumps_config config0))) = Some config0.
Proof.
  apply (load_save config0). intros z Hz. injection Hz as <-.
  vm_compute. reflexivity.
Defined.

(** ** [setup] and [list_articles] *)

Section BotRun.

Context (api_fails : ApiCall → option exn).

Context (create_role_fails : str → option exn).

Context (write_fails : bool).

Context (timestamp : datetime → result Z).

Lemma bbind_run {A C} (m : B A) (k : A → B C) (s : Bot) :
  bbind m k s = match m s with
                | (Done a, s') => k a s'
                | (Failed e, s') => (Failed e, s')
                end.
Proof. done. Qed.

Lemma on_world_run {A} (m : M A) (s : Bot) :
  on_world m s
  = match m (bot_world s) with
    | (Ok a, w) => (Done a, mkBot w (bot_config s) (bot_file s) (bot_said s))
    | (Raise e, w) =>
        (Failed (Platform e),
         mkBot w (bot_config s) (bot_file s) (bot_said s))
    end.
Proof. done. Qed.

Lemma bot_eta (s : Bot) :
  mkBot (bot_world s) (bot_config s) (bot_file s) (bot_said s) = s.
Proof. by destruct s. Qed.

Lemma on_world_api (c : ApiCall) (s : Bot) :
  on_world (api api_fails c) s
  = match api_fails c with
    | Some e => (Failed (Platform e), s)
    | None => (Done tt, s)
    end.
Proof.
  rewrite on_world_run, api_run. destruct (api_fails c); by rewrite bot_eta.
Qed.

Lemma on_world_get_guild (s : Bot) :
  on_world get_guild s = (Done (bot_guild s), s).
Proof. rewrite on_world_run. unfold get_guild. by rewrite bot_eta. Qed.

Lemma answer_run (a : Answer) (s : Bot) :
  answer api_fails a s
  = match api_fails Followup with
    | Some e => (Failed (Platform e), s)
    | None => (Done tt, mkBot (bot_world s) (bot_config s) (bot_file s)
                              (bot_said s ++ [a]))
    end.
Proof.
  unfold answer. rewrite bbind_run, on_world_api.
  by destruct (api_fails Followup).
Qed.

Lemma get_or_create_role_run (name : str) (s : Bot) :
  get_or_create_role create_role_fails name s
  = match get_by_name (roles (bot_guild s)) name with
    | Some role => (Done role, s)
    | None =>
        match create_role_fails name with
        | Some e => (Failed (Platform e), s)
        | None =>
            (Done (next_id (bot_guild s)),
             mkBot (mkWorld (with_new_role (bot_guild s) name)
                            (replies (bot_world s)))
                   (bot_config s) (bot_file s) (bot_said s))
        end
    end.
Proof.
  unfold get_or_create_role. rewrite bbind_run, on_world_get_guild.
  destruct (get_by_name _ _); [done|]. unfold create_role.
  destruct (create_role_fails name); [done|].
  rewrite bbind_run, on_world_get_guild. by rewrite bbind_run.
Qed.

End BotRun.

Section Setup.

Context (api_fails : ApiCall → option exn).

Context (create_role_fails : str → option exn).

Context (write_fails : bool).

(** [setup] up to the point where the guild is assigned. *)
Lemma setup_assigns (interaction : Interaction) (s : Bot) :
  api_fails Defer = None →
  let config' :=
    with_guild_id (bot_config s)
      (if in_guild interaction then Some (guild_id (bot_guild s)) else None) in
  let s0 := mkBot (bot_world s) config' (bot_file s) (bot_said s) in
  setup api_fails create_role_fails write_fails interaction s
  = if negb (in_guild interaction) then (Failed AttributeError, s0)
    else
      match ensure_categories api_fails config' (bot_world s) with
      | (Raise e, w1) =>
          (Failed (Platform e), mkBot w1 config' (bot_file s) (bot_said s))
      | (Ok (a, b), w1) =>
          let s1 := mkBot w1 config' (bot_file s) (bot_said s) in
          match get_or_create_role create_role_fails
                  (editors_role_name config') s1 with
          | (Failed e, s2) => (Failed e, s2)
          | (Done editors, s2) =>
              if write_fails then (Failed OSError, s2)
              else answer api_fails (SetupComplete a b editors)
                     (mkBot (bot_world s2) (bot_config s2)
                            (Text (dumps_config (bot_config s2)))
                            (bot_said s2))
          end
      end.
Proof.
  intros Hdefer config' s0. unfold setup.
  rewrite bbind_run, on_world_api, Hdefer.
  rewrite bbind_run, on_world_get_guild.
  rewrite bbind_run. unfold get_config at 1. cbv beta iota.
  rewrite bbind_run. unfold set_config at 1. cbv beta iota.
  fold (with_guild_id (bot_config s)
          (if in_guild interaction then Some (guild_id (bot_guild s)) else None)).
  fold config'. fold s0.
  destruct (negb (in_guild interaction)); [done|].
  rewrite bbind_run. unfold get_config at 1. cbv beta iota.
  rewrite bbind_run, on_world_run. cbn [bot_world bot_config bot_file bot_said s0].
  destruct (ensure_categories api_fails config' (bot_world s))
    as [[[a b]|e] w1]; [|done].
  cbv beta iota zeta. rewrite bbind_run.
  destruct (get_or_create_role _ _ _) as [[editors|e] s2]; [|done].
  rewrite bbind_run. unfold save at 1. by destruct write_fails.
Qed.

End Setup.

#[global] Instance server_grown_preorder : PreOrder server_grown.
Proof.
  split.
  - intros g. unfold server_grown. split_and!; try done;
      exists []; by rewrite app_nil_r.
  - intros g1 g2 g3 (? & ? & ? & ? & [c1 ?] & [r1 ?])
      (? & ? & ? & ? & [c2 ?] & [r2 ?]).
    unfold server_grown. split_and!; try congruence.
    + exists (c1 ++ c2). rewrite app_assoc. congruence.
    + exists (r1 ++ r2). rewrite app_assoc. congruence.
Qed.

Lemma categories_added_grown (g g' : Guild) :
  categories_added g g' → server_grown g g'.
Proof.
  intros (? & Hr & ? & ? & ? & ?). unfold server_grown.
  split_and!; try done. exists []. by rewrite app_nil_r.
Qed.

Lemma with_new_role_grown (g : Guild) (name : str) :
  server_grown g (with_new_role g name).
Proof.
  unfold server_grown. split_and!; try done.
  - exists []. by rewrite app_nil_r.
  - by eexists.
Qed.

(** X17.  [get_or_create_role] is get-or-create, by name.  As long as the
    platform lets the role be created when there is none of the name, the call
    returns a role that is afterwards the one found under the name; a role
    that was there is returned with nothing changed, a new one is added at the
    end of the roles and nothing else of the server changes; and a second call
    returns the same role and asks the platform for nothing. *)
Theorem get_or_create_role_spec (create_role_fails : str → option exn)
    (name : str) (s : Bot) :
  (get_by_name (roles (bot_guild s)) name = None →
   create_role_fails name = None) →
  ∃ r s',
    get_or_create_role create_role_fails name s = (Done r, s')
    ∧ get_by_name (roles (bot_guild s')) name = Some r
    ∧ server_grown (bot_guild s) (bot_guild s')
    ∧ categories (bot_guild s') = categories (bot_guild s)
    ∧ bot_config s' = bot_config s
    ∧ bot_file s' = bot_file s
    ∧ bot_said s' = bot_said s
    ∧ (is_Some (get_by_name (roles (bot_guild s)) name) → s' = s)
    ∧ (∀ create_role_fails',
         get_or_create_role create_role_fails' name s' = (Done r, s')).
Proof.
  intros Hcreate. rewrite get_or_create_role_run.
  destruct (get_by_name (roles (bot_guild s)) name) as [r|] eqn:Er.
  - exists r, s. split_and!; try done.
    intros fails'. by rewrite get_or_create_role_run, Er.
  - rewrite Hcreate by done. eexists _, _. split; [reflexivity|].
    assert (get_by_name (roles (with_new_role (bot_guild s) name)) name
            = Some (next_id (bot_guild s))) as Hfound.
    { cbn. rewrite get_by_name_app, Er. cbn. by rewrite bool_decide_eq_true_2. }
    split; [exact Hfound|]. split; [apply with_new_role_grown|].
    split_and!; try done.
    intros fails'. rewrite get_or_create_role_run.
    unfold bot_guild at 1. cbn [bot_world guild]. by rewrite Hfound.
Qed.

Lemma get_or_create_role_spec_witness :
  ∃ r s',
    get_or_create_role roles_granted (py "Writers") fresh_bot = (Done r, s')
    ∧ get_by_name (roles (bot_guild s')) (py "Writers") = Some r
    ∧ server_grown fresh_guild (bot_guild s').
Proof.
  destruct (get_or_create_role_spec roles_granted (py "Writers") fresh_bot)
    as (r & s' & H1 & H2 & H3 & _).
  - reflexivity.
  - by exists r, s'.
Defined.

Section SetupSpec.

Context (api_fails : ApiCall → option exn).

Context (create_role_fails : str → option exn).

Context (write_fails : bool).

(** X18.  [setup] in a server (its id within the limit of digits), when
    nothing is refused and the two category names differ.  The guild becomes
    the configured one, in memory and in the file, so that a restart loads the
    same configuration; the two categories and the Editors role are there
    afterwards, created only if they were missing; nothing else of the server
    is touched; the user is told; and a second [setup] changes nothing and
    tells the same. *)
Theorem setup_spec (interaction : Interaction) (s : Bot) :
  let config := bot_config s in
  let config' := with_guild_id config (Some (guild_id (bot_guild s))) in
  in_guild interaction = true →
  str_digits_limit (guild_id (bot_guild s)) →
  (∀ call, api_fails call = None) →
  create_role_fails (editors_role_name config) = None →
  write_fails = false →
  active_category_name config ≠ archived_category_name config →
  ∃ a b e s',
    setup api_fails create_role_fails write_fails interaction s = (Done tt, s')
    ∧ bot_config s' = config'
    ∧ bot_file s' = Text (dumps_config config')
    ∧ typed (load (bot_file s')) = Some config'
    ∧ bot_said s' = bot_said s ++ [SetupComplete a b e]
    ∧ replies (bot_world s') = replies (bot_world s)
    ∧ server_grown (bot_guild s) (bot_guild s')
    ∧ get_by_name (categories (bot_guild s')) (active_category_name config)
      = Some a
    ∧ get_by_name (categories (bot_guild s')) (archived_category_name config)
      = Some b
    ∧ get_by_name (roles (bot_guild s')) (editors_role_name config) = Some e
    ∧ setup api_fails create_role_fails write_fails interaction s'
      = (Done tt,
         mkBot (bot_world s') (bot_config s') (bot_file s')
               (bot_said s' ++ [SetupComplete a b e])).
Proof.
  intros config config' Hin _ Hok Hrole Hwrite Hne.
  assert (∀ s0 : Bot,
            bot_config s0 = config ∨ bot_config s0 = config' →
            guild_id (bot_guild s0) = guild_id (bot_guild s) →
            with_guild_id (bot_config s0)
              (if in_guild interaction then Some (guild_id (bot_guild s0))
               else None) = config') as Hcfg.
  { intros s0 [E|E] Hgid; rewrite E, Hin, Hgid; done. }
  destruct (ensure_categories_found api_fails config' (bot_world s) Hne
              (Hok _) (Hok _)) as (a & b & w1 & Hens & Ha & Hb).
  pose proof (ensure_categories_added api_fails config' (bot_world s)) as Hadd.
  pose proof (ensure_categories_replies api_fails config' (bot_world s)) as Hrep.
  rewrite Hens in Hadd, Hrep. cbn [snd] in Hadd, Hrep.
  set (s1 := mkBot w1 config' (bot_file s) (bot_said s)).
  assert (∃ e s2,
            get_or_create_role create_role_fails (editors_role_name config') s1
            = (Done e, s2)
            ∧ bot_config s2 = config' ∧ bot_file s2 = bot_file s
            ∧ bot_said s2 = bot_said s
            ∧ replies (bot_world s2) = replies w1
            ∧ server_grown (guild w1) (bot_guild s2)
            ∧ categories (bot_guild s2) = categories (guild w1)
            ∧ get_by_name (roles (bot_guild s2)) (editors_role_name config)
              = Some e) as (e & s2 & Hrun & Hc2 & Hf2 & Hs2 & Hr2 & Hg2 & Hcat2 & He).
  { rewrite get_or_create_role_run. cbn [editors_role_name config' with_guild_id].
    fold config. unfold bot_guild. cbn [s1 bot_world].
    destruct (get_by_name (roles (guild w1)) (editors_role_name config))
      as [e|] eqn:Ee.
    - exists e, s1. split_and!; first [done|reflexivity].
    - rewrite Hrole. eexists _, _. split_and!; try done.
      + apply with_new_role_grown.
      + cbn. rewrite get_by_name_app, Ee. cbn.
        by rewrite bool_decide_eq_true_2. }
  set (s' := mkBot (bot_world s2) config' (Text (dumps_config config'))
                   (bot_said s ++ [SetupComplete a b e])).
  assert (setup api_fails create_role_fails write_fails interaction s
          = (Done tt, s')) as Hsetup.
  { rewrite setup_assigns by apply Hok. cbv zeta.
    rewrite (Hcfg s (or_introl eq_refl) eq_refl). rewrite Hin. cbn [negb].
    rewrite Hens. fold s1. rewrite Hrun, Hwrite.
    rewrite answer_run, Hok. cbn [bot_world bot_config bot_file bot_said].
    by rewrite Hc2, Hs2. }
  assert (server_grown (bot_guild s) (bot_guild s2)) as Hgrown.
  { etrans; [|exact Hg2]. by apply categories_added_grown. }
  exists a, b, e, s'. split_and!; try done.
  - cbn [s' bot_file]. rewrite load_dumps_config. apply typed_to_raw.
  - cbn. congruence.
  - unfold bot_guild in Hcat2 |- *. cbn [s' bot_world]. by rewrite Hcat2.
  - unfold bot_guild in Hcat2 |- *. cbn [s' bot_world]. by rewrite Hcat2.
  - (* once more *)
    rewrite setup_assigns by apply Hok. cbv zeta.
    rewrite (Hcfg s' (or_intror eq_refl))
      by (destruct Hgrown as (Hg & _); exact Hg).
    rewrite Hin. cbn [negb]. cbn [s' bot_world bot_file bot_said].
    rewrite (ensure_categories_present api_fails config' (bot_world s2) a b)
      by (cbn; unfold bot_guild in Hcat2; by rewrite Hcat2).
    rewrite get_or_create_role_run.
    cbn [editors_role_name config' with_guild_id]. fold config.
    unfold bot_guild at 1. cbn [bot_world]. fold (bot_guild s2). rewrite He.
    rewrite Hwrite, answer_run, Hok.
    done.
Qed.

End SetupSpec.

Lemma setup_spec_witness :
  ∃ s', setup no_failure roles_granted false (mkInteraction true 0) fresh_bot
        = (Done tt, s')
        ∧ bot_config s' = config0
        ∧ typed (load (bot_file s')) = Some config0
        ∧ server_grown fresh_guild (bot_guild s').
Proof.
  destruct (setup_spec no_failure roles_granted false (mkInteraction true 0)
              fresh_bot)
    as (a & b & e & s' & H1 & H2 & _ & H4 & _ & _ & H7 & _).
  - reflexivity.
  - vm_compute. reflexivity.
  - reflexivity.
  - reflexivity.
  - reflexivity.
  - intros H. vm_compute in H. discriminate H.
  - exists s'. split_and!; [exact H1|exact H2|exact H4|exact H7].
Defined.

Section SetupFailure.

Context (api_fails : ApiCall → option exn).

Context (create_role_fails : str → option exn).

Context (write_fails : bool).

(** X19.  When [setup] fails, in or outside a server (its id within the limit
    of digits).  The guild has been assigned already: the configuration in
    memory names the guild of the interaction, or none when the command was
    used outside a server; the user has been told nothing; and the file still
    holds what it held, unless it was the final message that failed.  Outside
    a server [setup] always fails, with [AttributeError], and the sweep does
    nothing from then on. *)
Theorem setup_failure (interaction : Interaction) (s s' : Bot) (e : bot_exn) :
  api_fails Defer = None →
  str_digits_limit (guild_id (bot_guild s)) →
  setup api_fails create_role_fails write_fails interaction s = (Failed e, s') →
  bot_config s'
  = with_guild_id (bot_config s)
      (if in_guild interaction then Some (guild_id (bot_guild s)) else None)
  ∧ bot_said s' = bot_said s
  ∧ (bot_file s' = bot_file s
     ∨ (bot_file s' = Text (dumps_config (bot_config s'))
        ∧ ∃ e', api_fails Followup = Some e' ∧ e = Platform e'))
  ∧ (in_guild interaction = false →
     e = AttributeError ∧ bot_world s' = bot_world s
     ∧ bot_file s' = bot_file s
     ∧ ∀ now, tick api_fails now s' = (Done tt, s')).
Proof.
  intros Hdefer _. rewrite setup_assigns by done. cbv zeta.
  destruct (in_guild interaction) eqn:Hin; cbn [negb].
  2:{ intros [= <- <-]. split; [done|]. split; [done|]. split; [by left|].
      intros _. by split_and!. }
  destruct (ensure_categories _ _ _) as [[[a b]|e1] w1].
  2:{ intros [= <- <-]. split; [done|]. split; [done|]. split; [by left|done]. }
  cbv zeta. rewrite get_or_create_role_run. cbn [bot_guild bot_world].
  destruct (get_by_name _ _) as [r|].
  - destruct write_fails.
    + intros [= <- <-]. split; [done|]. split; [done|]. split; [by left|done].
    + rewrite answer_run. destruct (api_fails Followup) as [e'|] eqn:Ef;
        [|discriminate].
      intros [= <- <-]. split; [done|]. split; [done|].
      split; [|done]. right. split; [done|]. by eexists.
  - destruct (create_role_fails _).
    + intros [= <- <-]. split; [done|]. split; [done|]. split; [by left|done].
    + destruct write_fails.
      * intros [= <- <-]. split; [done|]. split; [done|]. split; [by left|done].
      * rewrite answer_run. destruct (api_fails Followup) as [e'|] eqn:Ef;
          [|discriminate].
        intros [= <- <-]. split; [done|]. split; [done|].
        split; [|done]. right. split; [done|]. by eexists.
Qed.

End SetupFailure.

Lemma setup_failure_witness :
  ∃ s', setup no_failure roles_granted false (mkInteraction false 0)
          (home_bot [article_due]) = (Failed AttributeError, s')
        ∧ bot_config s' = with_guild_id config0 None
        ∧ ∀ now, tick no_failure now s' = (Done tt, s').
Proof.
  eexists. split; [reflexivity|].
  destruct (setup_failure no_failure roles_granted false (mkInteraction false 0)
              (home_bot [article_due]) _ AttributeError eq_refl
              ltac:(vm_compute; reflexivity) eq_refl)
    as (H1 & _ & _ & H4).
  split; [exact H1|]. exact (proj2 (proj2 (proj2 (H4 eq_refl)))).
Defined.

Lemma get_channel_elem (chs : list Channel) (c : Channel) :
  NoDup (ch_id <$> chs) → c ∈ chs → get_channel chs (ch_id c) = Some c.
Proof.
  intros Hnd Hc.
  destruct (get_channel chs (ch_id c)) as [c'|] eqn:E.
  - f_equal. symmetry. by apply (get_channel_unique chs (ch_id c) c' c).
  - by destruct (get_channel_None chs (ch_id c) c E Hc).
Qed.

(** The topics of the two articles of the scenario hold what [isoformat]
    prints, the first with a UTC offset. *)
Lemma settled_topic_articles (c : Channel) :
  c ∈ filter (λ c, ch_type c = TextChannel ∧ ch_category c = Some 10)
             [article_utc; article_due] →
  settled_topic c.
Proof.
  intros [_ Hc]%list_elem_of_filter.
  apply elem_of_cons in Hc as [->|Hc].
  - exists (Some (mkdatetime 2020 1 1 0 0 0 0 (Some 0))).
    apply (decodes_isoformat _ 24%nat 60%nat); reflexivity.
  - apply list_elem_of_singleton in Hc as ->.
    apply plain_topic_settled, plain_topic_article_due.
Qed.

Section ListArticles.

Context (api_fails : ApiCall → option exn).

Context (timestamp : datetime → result Z).

Lemma on_world_lift {A} (r : result A) (s : Bot) :
  on_world (lift r) s
  = match r with Ok a => (Done a, s) | Raise e => (Failed (Platform e), s) end.
Proof. rewrite on_world_run. unfold lift. destruct r; by rewrite bot_eta. Qed.

Lemma article_lines_state (g : Guild) (chs : list Z) (lines : list Line)
    (s : Bot) :
  (article_lines timestamp g chs lines s).2 = s.
Proof.
  revert lines. induction chs as [|ch chs IH]; intros lines; [done|].
  cbn [article_lines]. rewrite bbind_run, on_world_lift.
  destruct (extract_deadline_from_topic _) as [[dl|]|e]; [| |done].
  - rewrite bbind_run, on_world_lift. destruct (timestamp dl); [|done].
    apply IH.
  - apply IH.
Qed.

Lemma article_lines_run (g : Guild) (cs : list Channel) (lines : list Line)
    (s : Bot) :
  (∀ c, c ∈ cs → get_channel (channels g) (ch_id c) = Some c) →
  (Forall (λ c, ¬ no_timestamp timestamp c) cs →
   ∃ new, article_lines timestamp g (map ch_id cs) lines s
          = (Done (lines ++ new), s)
          ∧ Forall2 (line_of timestamp) cs new)
  ∧ (Exists (no_timestamp timestamp) cs →
     ∃ e, article_lines timestamp g (map ch_id cs) lines s
          = (Failed (Platform e), s)).
Proof.
  revert lines. induction cs as [|c cs IH]; intros lines Hget.
  - split.
    + intros _. exists []. by rewrite app_nil_r.
    + by intros ?%Exists_nil.
  - assert (∀ c', c' ∈ cs → get_channel (channels g) (ch_id c') = Some c')
      as Hget' by (intros c' ?; apply Hget; by right).
    cbn [map article_lines]. rewrite (Hget c) by left.
    rewrite bbind_run, on_world_lift.
    destruct (extract_deadline_total (ch_topic c)) as [dl Hdl]. rewrite Hdl.
    destruct dl as [dl|].
    + rewrite bbind_run, on_world_lift.
      destruct (timestamp dl) as [ts|e] eqn:Hts.
      * destruct (IH (lines ++ [WithDeadline (ch_id c) ts]) Hget')
          as [IHok IHbad].
        split.
        -- intros [_ Hcs]%Forall_cons. destruct (IHok Hcs) as (new & -> & Hnew).
           exists (WithDeadline (ch_id c) ts :: new).
           rewrite <- app_assoc. split; [done|]. constructor; [|done].
           unfold line_of. rewrite Hdl. by exists ts.
        -- intros [Hbad|Hbad]%Exists_cons; [|by apply IHbad].
           destruct Hbad as (dl' & e & Hdl' & He). congruence.
      * split.
        -- intros [Hc _]%Forall_cons. destruct Hc. by exists dl, e.
        -- intros _. by exists e.
    + destruct (IH (lines ++ [NoDeadline (ch_id c)]) Hget') as [IHok IHbad].
      split.
      * intros [_ Hcs]%Forall_cons. destruct (IHok Hcs) as (new & -> & Hnew).
        exists (NoDeadline (ch_id c) :: new).
        rewrite <- app_assoc. split; [done|]. constructor; [|done].
        unfold line_of. by rewrite Hdl.
      * intros [Hbad|Hbad]%Exists_cons; [|by apply IHbad].
        destruct Hbad as (dl' & e & Hdl' & He). congruence.
Qed.

(** [list_articles] outside a server: the user is told so, when the
    messages go through, and nothing else has changed, whether they do or
    not. *)
Lemma list_articles_outside_server (interaction : Interaction) (s : Bot) :
  in_guild interaction = false →
  let r := list_articles api_fails timestamp interaction s in
  bot_world r.2 = bot_world s
  ∧ bot_config r.2 = bot_config s
  ∧ bot_file r.2 = bot_file s
  ∧ (api_fails Defer = None → api_fails Followup = None →
     r = (Done tt,
          mkBot (bot_world s) (bot_config s) (bot_file s)
                (bot_said s ++ [Told MustBeInServer]))).
Proof.
  intros Hin. cbv zeta. unfold list_articles.
  rewrite bbind_run, on_world_api, Hin. cbn [negb].
  destruct (api_fails Defer); [done|].
  rewrite answer_run. destruct (api_fails Followup); done.
Qed.

(** X20.  [list_articles] in a server that has both categories, when the
    interaction is acknowledged and the answer goes through, and the topics of
    the channels listed are ones that all versions of the interpreter decode
    alike.  The user gets one line for every text channel of the Active
    category, in the order of the channels: with the deadline's timestamp when
    the topic decodes to a deadline, and "no deadline" otherwise; or "No
    active article channels." when there is none.  When one of the deadlines
    has no timestamp the command fails and the user gets no list at all.
    Nothing else of the bot's state changes. *)
Theorem list_articles_spec (interaction : Interaction) (s : Bot) (a b : Z) :
  let g := bot_guild s in
  let listed :=
    filter (λ c, ch_type c = TextChannel ∧ ch_category c = Some a)
           (channels g) in
  in_guild interaction = true →
  api_fails Defer = None →
  api_fails Followup = None →
  get_by_name (categories g) (active_category_name (bot_config s)) = Some a →
  get_by_name (categories g) (archived_category_name (bot_config s)) = Some b →
  NoDup (ch_id <$> channels g) →
  (∀ c, c ∈ listed → settled_topic c) →
  (Forall (λ c, ¬ no_timestamp timestamp c) listed →
   ∃ lines,
     list_articles api_fails timestamp interaction s
     = (Done tt,
        mkBot (bot_world s) (bot_config s) (bot_file s)
              (bot_said s ++ [if bool_decide (lines = []) then NoActiveArticles
                              else Articles lines]))
     ∧ Forall2 (line_of timestamp) listed lines)
  ∧ (Exists (no_timestamp timestamp) listed →
     ∃ e, list_articles api_fails timestamp interaction s
          = (Failed (Platform e), s)).
Proof.
  intros g listed Hin Hdefer Hfollow Ha Hb Hnd _.
  assert (∀ c, c ∈ listed → get_channel (channels g) (ch_id c) = Some c) as Hget.
  { intros c [_ Hc]%list_elem_of_filter. by apply get_channel_elem. }
  assert (list_articles api_fails timestamp interaction s
          = match article_lines timestamp g (map ch_id listed) [] s with
            | (Done lines, s') =>
                if bool_decide (lines = []) then answer api_fails NoActiveArticles s'
                else answer api_fails (Articles lines) s'
            | (Failed e, s') => (Failed e, s')
            end) as ->.
  { unfold list_articles. rewrite bbind_run, on_world_api, Hdefer, Hin.
    cbn [negb]. rewrite bbind_run. unfold get_config at 1. cbv beta iota.
    rewrite bbind_run, on_world_run.
    rewrite (ensure_categories_present api_fails (bot_config s) (bot_world s)
               a b Ha Hb).
    rewrite bot_eta. cbv beta iota.
    rewrite bbind_run, on_world_get_guild. rewrite bbind_run.
    fold g. unfold text_channels. fold listed.
    destruct (article_lines _ _ _ _ _) as [[lines|e] s']; [|done].
    by case_bool_decide. }
  destruct (article_lines_run g listed [] s Hget) as [Hok Hbad]. split.
  - intros Hall. destruct (Hok Hall) as (lines & -> & Hlines).
    exists lines. split; [|done]. cbn [app].
    case_bool_decide; by rewrite answer_run, Hfollow.
  - intros Hex. destruct (Hbad Hex) as (e & ->). by exists e.
Qed.

(** X21.  Whatever the platform refuses, [list_articles] changes no channel,
    no role and no member, nor the configuration or its file; it adds at most
    the two categories; and the user gets one answer when it returns and none
    when it fails. *)
Theorem list_articles_frame (interaction : Interaction) (s : Bot) :
  let r := list_articles api_fails timestamp interaction s in
  bot_config r.2 = bot_config s
  ∧ bot_file r.2 = bot_file s
  ∧ replies (bot_world r.2) = replies (bot_world s)
  ∧ categories_added (bot_guild s) (bot_guild r.2)
  ∧ match r.1 with
    | Done _ => ∃ a, bot_said r.2 = bot_said s ++ [a]
    | Failed _ => bot_said r.2 = bot_said s
    end.
Proof.
  set (P := λ r : outcome unit * Bot,
         bot_config r.2 = bot_config s
         ∧ bot_file r.2 = bot_file s
         ∧ replies (bot_world r.2) = replies (bot_world s)
         ∧ categories_added (bot_guild s) (bot_guild r.2)
         ∧ match r.1 with
           | Done _ => ∃ a, bot_said r.2 = bot_said s ++ [a]
           | Failed _ => bot_said r.2 = bot_said s
           end).
  change (P (list_articles api_fails timestamp interaction s)).
  assert (∀ e s0,
            bot_config s0 = bot_config s → bot_file s0 = bot_file s →
            replies (bot_world s0) = replies (bot_world s) →
            categories_added (bot_guild s) (bot_guild s0) →
            bot_said s0 = bot_said s →
            P (Failed e, s0)) as Hfailed.
  { intros e s0 ? ? ? ? ?. by split_and!. }
  assert (∀ a s0,
            bot_config s0 = bot_config s → bot_file s0 = bot_file s →
            replies (bot_world s0) = replies (bot_world s) →
            categories_added (bot_guild s) (bot_guild s0) →
            bot_said s0 = bot_said s →
            P (answer api_fails a s0)) as Hanswer.
  { intros a s0 ? ? ? ? Hsaid. rewrite answer_run.
    destruct (api_fails Followup); [by apply Hfailed|].
    split_and!; try done. cbn. rewrite Hsaid. by eexists. }
  unfold list_articles.
  rewrite bbind_run, on_world_api.
  destruct (api_fails Defer).
  { apply Hfailed; try done. apply categories_added_refl. }
  destruct (negb (in_guild interaction)).
  { apply Hanswer; try done. apply categories_added_refl. }
  rewrite bbind_run. unfold get_config at 1. cbv beta iota.
  rewrite bbind_run, on_world_run.
  pose proof (ensure_categories_added api_fails (bot_config s) (bot_world s))
    as Hadd.
  pose proof (ensure_categories_replies api_fails (bot_config s) (bot_world s))
    as Hrep.
  destruct (ensure_categories _ _ _) as [[[a b]|e] w1]; cbn [snd] in Hadd, Hrep.
  2:{ by apply Hfailed. }
  cbv beta iota. rewrite bbind_run, on_world_get_guild. rewrite bbind_run.
  set (s1 := mkBot w1 (bot_config s) (bot_file s) (bot_said s)).
  pose proof (article_lines_state (bot_guild s1)
                (text_channels (bot_guild s1) a) [] s1) as Hst.
  destruct (article_lines _ _ _ _ _) as [[lines|e] s2]; cbn [snd] in Hst;
    subst s2.
  - case_bool_decide; by apply Hanswer.
  - by apply Hfailed.
Qed.

End ListArticles.

Lemma list_articles_spec_witness :
  ∃ lines,
    list_articles no_failure epoch (mkInteraction true 0)
      (home_bot [article_utc; article_due])
    = (Done tt,
       mkBot (mkWorld (home_guild [article_utc; article_due]) []) config0
             (Text (dumps_config config0))
             ([] ++ [if bool_decide (lines = []) then NoActiveArticles
                     else Articles lines]))
    ∧ Forall2 (line_of epoch)
        (filter (λ c, ch_type c = TextChannel ∧ ch_category c = Some 10)
                [article_utc; article_due])
        lines.
Proof.
  apply (proj1 (list_articles_spec no_failure epoch (mkInteraction true 0)
                  (home_bot [article_utc; article_due]) 10 11
                  eq_refl eq_refl eq_refl eq_refl eq_refl
                  ltac:(apply (bool_decide_unpack _); vm_compute; exact I)
                  settled_topic_articles)).
  apply Forall_forall. intros c _ (dl & e & _ & H). discriminate H.
Defined.

(** ** Tick after tick *)

(** What a tick keeps: the server apart from its channels, the ids and the
    topics of the channels; and where it leaves each channel. *)
Lemma sweeper_step (api_fails : ApiCall → option exn) (config : BotConfig)
    (now : datetime) (w : World) (a b : Z) :
  let g := guild w in
  let g' := guild (sweeper api_fails config now w).2 in
  tzinfo now = None →
  cfg_guild_id config = Some (guild_id g) →
  get_by_name (categories g) (active_category_name config) = Some a →
  get_by_name (categories g) (archived_category_name config) = Some b →
  NoDup (ch_id <$> channels g) →
  (∀ c, c ∈ channels g → plain_topic c) →
  guild_id g' = guild_id g
  ∧ categories g' = categories g
  ∧ roles g' = roles g
  ∧ NoDup (ch_id <$> channels g')
  ∧ (∀ c, c ∈ channels g' → plain_topic c)
  ∧ ∀ c, c ∈ channels g →
         get_channel (channels g') (ch_id c)
         = Some (if decide (to_sweep a now c)
                 then swept api_fails b (default_role g)
                        (get_by_name (roles g) (editors_role_name config)) c
                 else c).
Proof.
  intros g g' Hnow Hgid Ha Hb Hnd Hplain. subst g'.
  assert (∀ c, c ∈ channels g → naive_deadline c) as Hnaive
    by (intros c Hc; by apply plain_topic_naive, Hplain).
  rewrite (sweeper_run_filter api_fails config now w a b) by done.
  cbn [snd guild with_channels guild_id categories roles channels]. fold g.
  set (F := λ c, if decide (to_sweep a now c)
                 then swept api_fails b (default_role g)
                        (get_by_name (roles g) (editors_role_name config)) c
                 else c).
  assert (∀ c, ch_id (F c) = ch_id c) as Hid.
  { intros c. unfold F. destruct (decide _); [apply swept_id|done]. }
  assert (∀ c, ch_topic (F c) = ch_topic c) as Htopic.
  { intros c. unfold F. destruct (decide _); [apply swept_topic|done]. }
  split_and!; try done.
  - rewrite <- list_fmap_compose.
    erewrite list_fmap_ext; [exact Hnd|]. intros _ c _. apply Hid.
  - intros c' Hc'. apply list_elem_of_In, in_map_iff in Hc' as (c & <- & Hc).
    apply list_elem_of_In, Hplain in Hc. unfold plain_topic.
    by rewrite Htopic.
  - intros c Hc. rewrite get_channel_map by done.
    by rewrite (get_channel_elem _ c Hnd Hc).
Qed.

(** X22.  On a server whose topics all versions of the interpreter decode
    alike, to no deadline or to one without a UTC offset: when the platform
    takes the notice and refuses the move, the channel stays in the Active
    category, so every later tick finds it past its deadline again and sends
    the notice again: after [n] ticks the channel holds [n] notices more, and
    is otherwise as it was. *)
Theorem sweeper_notice_repeats (api_fails : ApiCall → option exn)
    (config : BotConfig) (nows : list datetime) (w : World) (a b : Z)
    (c : Channel) (e : exn) :
  let g := guild w in
  cfg_guild_id config = Some (guild_id g) →
  get_by_name (categories g) (active_category_name config) = Some a →
  get_by_name (categories g) (archived_category_name config) = Some b →
  NoDup (ch_id <$> channels g) →
  (∀ c, c ∈ channels g → plain_topic c) →
  c ∈ channels g →
  ch_type c = TextChannel →
  ch_category c = Some a →
  Forall (λ now, tzinfo now = None ∧ due now c = true) nows →
  api_fails (SendMessage (ch_id c)) = None →
  api_fails (EditCategory (ch_id c)) = Some e →
  get_channel (channels (guild (ticks api_fails config nows w))) (ch_id c)
  = Some (mkChannel (ch_id c) (ch_type c) (ch_name c) (ch_topic c)
                    (ch_category c) (ch_overwrites c)
                    (ch_messages c
                     ++ replicate (length nows) (DeadlinePassed, false))).
Proof.
  intros g Hgid Ha Hb Hnd Hnaive Hc Ht Hcat Hnows Hsend Hmove. subst g.
  unfold ticks.
  revert w c Hgid Ha Hb Hnd Hnaive Hc Ht Hcat Hnows Hsend Hmove.
  induction nows as [|now nows IH];
    intros w c Hgid Ha Hb Hnd Hnaive Hc Ht Hcat Hnows Hsend Hmove.
  - cbn. rewrite app_nil_r. rewrite (get_channel_elem _ c Hnd Hc).
    by destruct c.
  - apply Forall_cons in Hnows as [[Hnow Hdue] Hnows].
    destruct (sweeper_step api_fails config now w a b Hnow Hgid Ha Hb Hnd
                Hnaive) as (Hgid' & Hcats' & _ & Hnd' & Hnaive' & Hget).
    specialize (Hget c Hc). rewrite decide_True in Hget by done.
    assert (swept api_fails b (default_role (guild w))
              (get_by_name (roles (guild w)) (editors_role_name config)) c
            = add_message DeadlinePassed c) as Hswept.
    { unfold swept. by rewrite Hsend, Hmove. }
    rewrite Hswept in Hget.
    apply get_channel_Some in Hget as [Hc' Hid'].
    cbn [foldl].
    set (w' := (sweeper api_fails config now w).2) in *.
    replace (ch_id c) with (ch_id (add_message DeadlinePassed c)) by done.
    rewrite (IH w' (add_message DeadlinePassed c)); try done.
    + cbn [add_message ch_id ch_type ch_name ch_topic ch_category
             ch_overwrites ch_messages length replicate].
      by rewrite <- app_assoc.
    + by rewrite Hgid'.
    + by rewrite Hcats'.
    + by rewrite Hcats'.
Qed.

Lemma sweeper_notice_repeats_witness :
  get_channel
    (channels (guild (ticks move_refused config0 [now0; day_after; day_after]
                        (mkWorld (home_guild [article_due]) []))))
    21
  = Some (mkChannel 21 TextChannel (py "budget") (ch_topic article_due)
                    (Some 10) writer_overwrites
                    [(DeadlinePassed, false); (DeadlinePassed, false);
                     (DeadlinePassed, false)]).
Proof.
  apply (sweeper_notice_repeats move_refused config0
           [now0; day_after; day_after]
           (mkWorld (home_guild [article_due]) []) 10 11 article_due
           Forbidden).
  - reflexivity.
  - reflexivity.
  - reflexivity.
  - apply NoDup_singleton.
  - intros c Hc. apply list_elem_of_singleton in Hc. subst c.
    apply plain_topic_article_due.
  - apply list_elem_of_singleton. reflexivity.
  - reflexivity.
  - reflexivity.
  - repeat constructor.
  - reflexivity.
  - reflexivity.
Defined.

(** ** [load] and a key that is no field *)

Lemma set_fields_unknown (items : list (list N * json)) (c : RawConfig) :
  Exists (λ kv, kv.1 ∉ config_fields) items →
  set_fields items c = Raise TypeError.
Proof.
  intros H. revert c. induction H as [[key value] items Hkey|[key value] items _ IH];
    intros c; cbn [set_fields].
  - cbn [fst] in Hkey. unfold config_fields in Hkey.
    rewrite !not_elem_of_cons in Hkey.
    destruct Hkey as (? & ? & ? & ? & _).
    by rewrite !bool_decide_eq_false_2.
  - repeat case_bool_decide; by rewrite ?IH.
Qed.

(** X23.  A key in the file that is not a field of [BotConfig] costs the whole
    file: [load] gives the defaults, also for the fields the file does hold.
    *)
Theorem load_unknown_key (s : str) (items : list (list N * json)) :
  json_loads s = Ok (JDict items) →
  Exists (λ kv, kv.1 ∉ config_fields) items →
  load (Text s) = to_raw default_config.
Proof.
  intros Hs Hkey. unfold load. rewrite Hs. cbn [rbind BotConfig_new].
  by rewrite set_fields_unknown.
Qed.

Lemma load_unknown_key_witness :
  json_loads stray_key_file
  = Ok (JDict [(codes (py "guild_id"), JInt 1); (codes (py "token"), JInt 2)])
  ∧ load (Text stray_key_file) = to_raw default_config.
Proof.
  assert (json_loads stray_key_file
          = Ok (JDict [(codes (py "guild_id"), JInt 1);
                       (codes (py "token"), JInt 2)])) as H
    by (vm_compute; reflexivity).
  split; [exact H|].
  apply (load_unknown_key stray_key_file _ H).
  right. left. apply (bool_decide_unpack _). vm_compute. exact I.
Defined.
